(** * world-engine: turn pipeline, pressure and chronicles, social graph, beliefs

    A shallow embedding of the TypeScript sources
    [core/types.ts], [core/meaningEngine.ts], [core/chronicle-pressure.ts],
    [core/engine.ts], [modules/socialGraph.ts] and [modules/beliefSystem.ts],
    then of [core/actionGenerator.ts], of the drivers, and of the parts of
    [modules/utilityAI.ts], [modules/actionSelector.ts] and
    [core/narrativeRenderer.ts] that need neither [Math.exp] nor text,
    followed by the properties of these functions.

    Conventions of the embedding.
    - A JavaScript number that carries a magnitude (pressure, weight, trust,
      intimacy, confidence, rank) is an exact rational [Q]; [===] on such
      numbers is [Qeq_bool] and the results are compared with [==].  The
      rational functions add, multiply and divide exactly where the code
      rounds to the nearest double, and they have no infinity and no NaN.
      The properties are therefore stated in the forms that rounding keeps:
      the expression that the code computes, operation by operation and in
      its order; comparisons; and bounds with the side conditions under
      which no operation overflows.
    - The module [Binary64] embeds [bayesianUpdate] and [calculatePageRank]
      a second time, over the binary64 floats of the code, for the runs in
      which the rounding shows.
    - A JavaScript number that counts (turn, year, ttl, interactions) is an
      integer [Z].
    - A [Map] and an object used as a dictionary are finite maps [gmap];
      a loop over their entries is a left fold over [map_to_list].  The order
      in which entries are visited is the one of [map_to_list], not the
      insertion order of the JavaScript engine.
    - [crypto.randomUUID()], [Math.random()] and [Date.now()] read an ambient
      source; the calls are threaded through a state monad [Eff]. *)

From Stdlib Require Import QArith Qabs Qpower Lqa ZArith String Ascii List Lia.
From Stdlib Require Uint63 Floats.
From Stdlib Require Import Qround.
From stdpp Require Import gmap strings list fin_maps.
From stdpp Require Import pretty.

(** ** Numbers and the [Math] helpers *)

Definition Qlt_bool (x y : Q) : bool := negb (Qle_bool y x).

Definition Math_max (a b : Q) : Q := if Qle_bool a b then b else a.

Definition Math_min (a b : Q) : Q := if Qle_bool a b then a else b.

Definition Math_abs (a : Q) : Q := Qabs a.

(** [Math.pow] at an integer exponent. *)
Definition Math_pow (base : Q) (exponent : Z) : Q := Qpower base exponent.

(** [clamp] is declared, with the same body, at the end of both
    [socialGraph.ts] and [beliefSystem.ts]. *)
Definition clamp (value min max : Q) : Q := Math_max min (Math_min max value).

(** [a ?? b] *)
Definition nullish {A} (a : option A) (b : A) : A :=
  match a with Some x => x | None => b end.

(** ** Strings *)

Definition lower_ascii (c : ascii) : ascii :=
  let n := nat_of_ascii c in
  if ((65 <=? n) && (n <=? 90))%nat then ascii_of_nat (n + 32) else c.

(** [s.toLowerCase()] on ASCII text. *)
Fixpoint toLowerCase (s : string) : string :=
  match s with
  | EmptyString => EmptyString
  | String c rest => String (lower_ascii c) (toLowerCase rest)
  end.

(** [s.includes(sub)] *)
Fixpoint includes (s sub : string) : bool :=
  String.prefix sub s ||
  match s with
  | EmptyString => false
  | String _ rest => includes rest sub
  end.

(** ** Ambient effects *)

Record Ambient := {
  uuid_source : nat -> string;
  random_source : nat -> Q;
  clock_source : nat -> Z
}.

(** A computation reads the ambient sources; the counter is the number of
    reads made so far. *)
Definition Eff (A : Type) : Type := Ambient -> nat -> A * nat.

Definition ret {A} (a : A) : Eff A := fun _ n => (a, n).

Definition bind {A B} (m : Eff A) (k : A -> Eff B) : Eff B :=
  fun amb n => let '(a, n') := m amb n in k a amb n'.

Notation "x <- e ;; k" := (bind e (fun x => k))
  (at level 100, e at next level, right associativity).

Definition randomUUID : Eff string := fun amb n => (uuid_source amb n, S n).

Definition Math_random : Eff Q := fun amb n => (random_source amb n, S n).

Definition Date_now : Eff Z := fun amb n => (clock_source amb n, S n).

(** [array.map(f)] with a callback that has effects. *)
Fixpoint mapM {A B} (f : A -> Eff B) (l : list A) : Eff (list B) :=
  match l with
  | [] => ret []
  | x :: rest => y <- f x ;; ys <- mapM f rest ;; ret (y :: ys)
  end.

(** A [for ... of] loop whose body has effects. *)
Fixpoint foldM {A S} (f : S -> A -> Eff S) (s : S) (l : list A) : Eff S :=
  match l with
  | [] => ret s
  | x :: rest => s' <- f s x ;; foldM f s' rest
  end.

(** ** core/types.ts *)

Inductive ActionType := MOVE | SPEAK | WAIT | ATTACK.

Inductive ActionTag := RISKY | SAFE | SOCIAL | AGGRESSIVE | PASSIVE | NEUTRAL.

#[global] Instance ActionTag_eq_dec : EqDecision ActionTag.
Proof. solve_decision. Defined.

Definition ActionTag_code (t : ActionTag) : nat :=
  match t with
  | RISKY => 0 | SAFE => 1 | SOCIAL => 2
  | AGGRESSIVE => 3 | PASSIVE => 4 | NEUTRAL => 5
  end.

Definition ActionTag_of_code (n : nat) : option ActionTag :=
  match n with
  | 0 => Some RISKY | 1 => Some SAFE | 2 => Some SOCIAL
  | 3 => Some AGGRESSIVE | 4 => Some PASSIVE | 5 => Some NEUTRAL
  | _ => None
  end.

#[global] Instance ActionTag_countable : Countable ActionTag.
Proof.
  apply (inj_countable ActionTag_code ActionTag_of_code).
  intros []; reflexivity.
Defined.

Record Action := {
  actorId : string;
  targetId : option string;
  type : ActionType;
  tags : list ActionTag
}.

(** [ActionLog extends Action] with [id] and [timestamp]. *)
Record ActionLog := {
  log_id : string;
  log_actorId : string;
  log_targetId : option string;
  log_type : ActionType;
  log_tags : list ActionTag;
  log_timestamp : Z
}.

(** ['FEAR' | 'TRUST' | 'RESPECT'] in the declaration; at run time the keys
    of the pressure object, hence strings. *)
Abbreviation MeaningType := string (only parsing).

Record Audience := {
  factionIds : option (list string);
  locationIds : option (list string)
}.

Record MeaningEvent := {
  meaning_id : string;
  sourceLogIds : list string;
  meaning_type : MeaningType;
  intensity : Q;
  audience : Audience
}.

Inductive Tone := positive | negative | ambiguous.

Record EchoScope := {
  factionId : option string;
  locationId : option string
}.

Record Echo := {
  echo_id : string;
  originMeaningId : string;
  tone : Tone;
  distortion : Q;
  ttl : Z;
  echo_scope : EchoScope
}.

Inductive ChronicleScope := LOCAL | REGIONAL | GLOBAL.

Record ChronicleEntry := {
  chronicle_id : string;
  chronicle_year : Z;
  summary : string;
  derivedMeaningIds : list string;
  chronicle_scope : ChronicleScope
}.

(** ** core/chronicle-pressure.ts: the state *)

Record WorldTendency := {
  tag : ActionTag;
  weight : Q
}.

(** [ExtendedWorldState extends WorldState]. *)
Record ExtendedWorldState := {
  year : Z;
  turn : Z;
  logs : list ActionLog;
  meanings : list MeaningEvent;
  echoes : list Echo;
  chronicles : list ChronicleEntry;
  tendency : list WorldTendency;
  meaningPressure : gmap string Q;
  lastChronicleTurn : gmap string Z
}.

(** [{ ...world, meaningPressure: pressure }] *)
Definition with_meaningPressure (world : ExtendedWorldState)
    (pressure : gmap string Q) : ExtendedWorldState :=
  {| year := year world; turn := turn world; logs := logs world;
     meanings := meanings world; echoes := echoes world;
     chronicles := chronicles world; tendency := tendency world;
     meaningPressure := pressure;
     lastChronicleTurn := lastChronicleTurn world |}.

(** [{ ...world, meaningPressure: pressure, lastChronicleTurn: lastTurn }] *)
Definition with_pressure_and_lastTurn (world : ExtendedWorldState)
    (pressure : gmap string Q) (lastTurn : gmap string Z)
    : ExtendedWorldState :=
  {| year := year world; turn := turn world; logs := logs world;
     meanings := meanings world; echoes := echoes world;
     chronicles := chronicles world; tendency := tendency world;
     meaningPressure := pressure;
     lastChronicleTurn := lastTurn |}.

(** [{ ...world, tendency }] *)
Definition with_tendency (world : ExtendedWorldState)
    (tendency' : list WorldTendency) : ExtendedWorldState :=
  {| year := year world; turn := turn world; logs := logs world;
     meanings := meanings world; echoes := echoes world;
     chronicles := chronicles world; tendency := tendency';
     meaningPressure := meaningPressure world;
     lastChronicleTurn := lastChronicleTurn world |}.

(** ** core/meaningEngine.ts *)

Record MeaningPlugin := {
  plugin_type : MeaningType;
  plugin_evaluate : list ActionLog -> Eff (list MeaningEvent)
}.

(** The engine is its private array of plugins; [register] pushes. *)
Abbreviation MeaningEngine := (list MeaningPlugin) (only parsing).

Definition register (engine : MeaningEngine) (plugin : MeaningPlugin)
    : MeaningEngine :=
  engine ++ [plugin].

(** [this.plugins.flatMap(p => p.evaluate(logs))] *)
Fixpoint evaluate (engine : MeaningEngine) (logs : list ActionLog)
    : Eff (list MeaningEvent) :=
  match engine with
  | [] => ret []
  | p :: rest =>
      ms <- plugin_evaluate p logs ;;
      ms' <- evaluate rest logs ;;
      ret (ms ++ ms')
  end.

(** [l.tags.includes(t)] *)
Definition has_tag (t : ActionTag) (l : ActionLog) : bool :=
  bool_decide (t ∈ log_tags l).

Definition FearPlugin : MeaningPlugin :=
  {| plugin_type := "FEAR";
     plugin_evaluate := fun logs =>
       mapM (fun l =>
               id <- randomUUID ;;
               ret {| meaning_id := id;
                      sourceLogIds := [log_id l];
                      meaning_type := "FEAR";
                      intensity := 0.4%Q;
                      audience := {| factionIds := None;
                                     locationIds := Some ["LOCAL"] |} |})
            (filter (fun l => has_tag RISKY l = true) logs) |}.

Definition TrustPlugin : MeaningPlugin :=
  {| plugin_type := "TRUST";
     plugin_evaluate := fun logs =>
       mapM (fun l =>
               id <- randomUUID ;;
               ret {| meaning_id := id;
                      sourceLogIds := [log_id l];
                      meaning_type := "TRUST";
                      intensity := 0.3%Q;
                      audience := {| factionIds := Some ["CIVILIANS"];
                                     locationIds := None |} |})
            (filter (fun l => has_tag SOCIAL l = true) logs) |}.

Definition RespectPlugin : MeaningPlugin :=
  {| plugin_type := "RESPECT";
     plugin_evaluate := fun logs =>
       mapM (fun l =>
               id <- randomUUID ;;
               ret {| meaning_id := id;
                      sourceLogIds := [log_id l];
                      meaning_type := "RESPECT";
                      intensity := 0.2%Q;
                      audience := {| factionIds := Some ["WARRIORS"];
                                     locationIds := None |} |})
            (filter (fun l => has_tag AGGRESSIVE l = true) logs) |}.

(** ** core/chronicle-pressure.ts: the functions *)

(** 1. Accumulate Meaning pressure.  The intensities are added one by one,
    in the order of the list, as the loop does; each addition is exact here
    and rounded in the code. *)
Definition accumulateMeaningPressure (world : ExtendedWorldState)
    (meanings : list MeaningEvent) : ExtendedWorldState :=
  let pressure :=
    foldl (fun (pressure : gmap string Q) m =>
             <[meaning_type m :=
                 (nullish (pressure !! meaning_type m) 0%Q + intensity m)%Q]>
               pressure)
          (meaningPressure world) meanings in
  with_meaningPressure world pressure.

Definition CHRONICLE_THRESHOLD : Q := 2.0%Q.

Definition MIN_CHRONICLE_GAP : Z := 3.

(** [world.turn - last >= MIN_CHRONICLE_GAP] where [last] is
    [lastTurn[type] ?? -Infinity]: with no recorded turn the difference is
    [+Infinity] and the test succeeds. *)
Definition gap_elapsed (turn : Z) (last : option Z) : bool :=
  match last with
  | Some l => (MIN_CHRONICLE_GAP <=? turn - l)%Z
  | None => true
  end.

(** [`An era shaped by ${type.toLowerCase()}.`] *)
Definition chronicle_summary (type : MeaningType) : string :=
  "An era shaped by " +:+ toLowerCase type +:+ ".".

(** The state of the loop of [generateChronicleFromPressure]:
    [entries], [pressure] and [lastTurn]. *)
Definition ChronicleLoop : Type :=
  list ChronicleEntry * gmap string Q * gmap string Z.

(** One turn of the loop [for (const [key, value] of Object.entries(pressure))]. *)
Definition chronicle_body (world : ExtendedWorldState)
    (st : ChronicleLoop) (entry : string * Q) : Eff ChronicleLoop :=
  let '(entries, pressure, lastTurn) := st in
  let '(type, value) := entry in
  let last := lastTurn !! type in
  let canEmit :=
    Qle_bool CHRONICLE_THRESHOLD value && gap_elapsed (turn world) last in
  if canEmit then
    id <- randomUUID ;;
    ret (entries ++
           [ {| chronicle_id := id;
                chronicle_year := year world;
                summary := chronicle_summary type;
                derivedMeaningIds := [];
                chronicle_scope := LOCAL |} ],
         <[type := (value * 0.4)%Q]> pressure,
         <[type := turn world]> lastTurn)
  else ret st.

(** 2. Generate Chronicle from accumulated pressure *)
Definition generateChronicleFromPressure (world : ExtendedWorldState)
    : Eff (ExtendedWorldState * list ChronicleEntry) :=
  let pressure := meaningPressure world in
  let lastTurn := lastChronicleTurn world in
  st <- foldM (chronicle_body world) ([], pressure, lastTurn)
             (map_to_list pressure) ;;
  let '(entries, pressure', lastTurn') := st in
  ret (with_pressure_and_lastTurn world pressure' lastTurn', entries).

(** 3. Chronicle -> World Tendency (with clamping) *)
Definition TENDENCY_MIN : Q := (-0.6)%Q.

Definition TENDENCY_MAX : Q := 0.6%Q.

(** The closure [adjust] of [applyChronicleTendency], with the [Map] it
    updates as an argument. *)
Definition adjust (tag : ActionTag) (delta : Q) (map : gmap ActionTag Q)
    : gmap ActionTag Q :=
  let current := nullish (map !! tag) 0%Q in
  let next :=
    Math_max TENDENCY_MIN (Math_min TENDENCY_MAX (current + delta)%Q) in
  <[tag := next]> map.

(** The body of the loop [for (const c of chronicles)]. *)
Definition tendency_body (map : gmap ActionTag Q) (c : ChronicleEntry)
    : gmap ActionTag Q :=
  let lower := toLowerCase (summary c) in
  let map1 :=
    if includes lower "fear"
    then adjust SAFE 0.08%Q (adjust RISKY (-0.10)%Q map) else map in
  let map2 :=
    if includes lower "trust"
    then adjust PASSIVE (-0.04)%Q (adjust SOCIAL 0.08%Q map1) else map1 in
  if includes lower "respect" then adjust AGGRESSIVE 0.05%Q map2 else map2.

(** The [Map] filled by [for (const t of world.tendency)]. *)
Definition tendency_map (tendency : list WorldTendency) : gmap ActionTag Q :=
  foldl (fun (map : gmap ActionTag Q) t =>
           <[tag t := (nullish (map !! tag t) 0%Q + weight t)%Q]> map)
        ∅ tendency.

(** [[...map.entries()].map(([tag, weight]) => ({ tag, weight }))] *)
Definition tendency_entries (map : gmap ActionTag Q) : list WorldTendency :=
  (fun '(tag, weight) => {| tag := tag; weight := weight |})
    <$> map_to_list map.

Definition applyChronicleTendency (world : ExtendedWorldState)
    (chronicles : list ChronicleEntry) : ExtendedWorldState :=
  match chronicles with
  | [] => world                 (* [if (!chronicles.length) return world] *)
  | _ :: _ =>
      let map := tendency_map (tendency world) in
      let map := foldl tendency_body map chronicles in
      with_tendency world (tendency_entries map)
  end.

(** [world.tendency.find(x => x.tag === t)] *)
Definition find_tendency (t : ActionTag) (l : list WorldTendency)
    : option WorldTendency :=
  List.find (fun x => bool_decide (tag x = t)) l.

(** 4. Action probability inclination *)
Definition inclineActionProbability (base : Q) (tags : list ActionTag)
    (world : ExtendedWorldState) : Q :=
  let modifier :=
    foldl (fun (modifier : Q) t =>
             match find_tendency t (tendency world) with
             | Some influence => (modifier + weight influence)%Q
             | None => modifier
             end) 0%Q tags in
  Math_max 0.05%Q (base + modifier)%Q.

(** 5. Echo -> MeaningPressure bridge *)
Definition TONE_FACTOR (t : Tone) : Q :=
  match t with
  | positive => 0.6%Q
  | negative => 1.0%Q
  | ambiguous => 0.3%Q
  end.

Definition DECAY_SENSITIVITY (type : MeaningType) : option Q :=
  if String.eqb type "FEAR" then Some 0.8%Q
  else if String.eqb type "TRUST" then Some 0.6%Q
  else if String.eqb type "RESPECT" then Some 0.5%Q
  else None.

(** The body of the inner loop of [applyEchoToPressure]. *)
Definition echo_body (echo : Echo) (pressure : gmap string Q)
    (entry : string * Q) : gmap string Q :=
  let '(type, value) := entry in
  let sensitivity := nullish (DECAY_SENSITIVITY type) 0.7%Q in
  let gain := (value * TONE_FACTOR (tone echo) * sensitivity * 0.1)%Q in
  <[type := (value + gain)%Q]> pressure.

Definition applyEchoToPressure (world : ExtendedWorldState)
    : ExtendedWorldState :=
  let pressure :=
    foldl (fun (pressure : gmap string Q) echo =>
             foldl (echo_body echo) pressure (map_to_list pressure))
          (meaningPressure world) (echoes world) in
  with_meaningPressure world pressure.

(** ** core/engine.ts *)

Record TurnResult := {
  result_world : ExtendedWorldState;
  result_logs : list ActionLog;
  result_meanings : list MeaningEvent;
  result_chronicles : list ChronicleEntry
}.

(** The object literal names [id], [actorId], [type], [tags] and
    [timestamp]; it has no [targetId] property. *)
Definition executeAction (action : Action) : Eff ActionLog :=
  id <- randomUUID ;;
  timestamp <- Date_now ;;
  ret {| log_id := id;
         log_actorId := actorId action;
         log_targetId := None;
         log_type := type action;
         log_tags := tags action;
         log_timestamp := timestamp |}.

Definition generateEchoes (meanings : list MeaningEvent) : Eff (list Echo) :=
  mapM (fun m =>
          id <- randomUUID ;;
          distortion <- Math_random ;;
          ret {| echo_id := id;
                 originMeaningId := meaning_id m;
                 tone := if String.eqb (meaning_type m) "FEAR"
                         then negative else positive;
                 distortion := distortion;
                 ttl := 3;
                 echo_scope := {| factionId := None;
                                  locationId := Some "LOCAL" |} |})
       meanings.

(** [{ ...e, ttl: e.ttl - 1 }] *)
Definition age_echo (e : Echo) : Echo :=
  {| echo_id := echo_id e; originMeaningId := originMeaningId e;
     tone := tone e; distortion := distortion e;
     ttl := (ttl e - 1)%Z; echo_scope := echo_scope e |}.

Definition updateEchoTTL (echoes : list Echo) : list Echo :=
  filter (fun e => (0 < ttl e)%Z) (age_echo <$> echoes).

(** The locals [logs], [meanings], [chronicles] and [echoes] of the source
    are [logs'], [meanings'], [chronicles'] and [echoes'] here, the plain
    names being the fields of the world. *)
Definition simulateTurn (world : ExtendedWorldState) (actions : list Action)
    (meaningEngine : MeaningEngine) : Eff TurnResult :=
  logs' <- mapM executeAction actions ;;
  (* 1) interpret actions into meanings via plugins *)
  meanings' <- evaluate meaningEngine logs' ;;
  (* 2) accumulate pressure from meanings *)
  let nextWorld := accumulateMeaningPressure world meanings' in
  (* 3) let existing echoes amplify that pressure *)
  let nextWorld := applyEchoToPressure nextWorld in
  (* 4) produce chronicles from accumulated pressure *)
  chronicleResult <- generateChronicleFromPressure nextWorld ;;
  let '(worldAfterChronicle, chronicles') := chronicleResult in
  (* 5) chronicles bias world tendencies *)
  let worldAfterChronicle :=
    applyChronicleTendency worldAfterChronicle chronicles' in
  (* 6) update echoes (short-lived) *)
  echoes' <- generateEchoes meanings' ;;
  let updatedEchoes :=
    updateEchoTTL (echoes worldAfterChronicle ++ echoes') in
  (* 7) advance time (turn/year) *)
  let newTurn := (turn world + 1)%Z in
  let yearIncrement := if (Z.rem newTurn 10 =? 0)%Z then 1%Z else 0%Z in
  let finalWorld :=
    {| year := (year worldAfterChronicle + yearIncrement)%Z;
       turn := newTurn;
       logs := logs worldAfterChronicle ++ logs';
       meanings := meanings worldAfterChronicle ++ meanings';
       chronicles := chronicles worldAfterChronicle ++ chronicles';
       echoes := updatedEchoes;
       tendency := tendency worldAfterChronicle;
       meaningPressure := meaningPressure worldAfterChronicle;
       lastChronicleTurn := lastChronicleTurn worldAfterChronicle |} in
  ret {| result_world := finalWorld;
         result_logs := logs';
         result_meanings := meanings';
         result_chronicles := chronicles' |}.

(** ** modules/socialGraph.ts *)

Record Relationship := {
  rel_sourceId : string;
  rel_targetId : string;
  trust : Q;                 (* [-1, 1] *)
  intimacy : Q;              (* [0, 1] *)
  interactions : Z;
  lastInteractionTurn : Z
}.

Record CharacterNode := {
  node_id : string;
  outgoingRelations : list string;
  incomingRelations : list string
}.

Record SocialGraphState := {
  nodes : gmap string CharacterNode;
  relationships : gmap string Relationship
}.

Definition createRelationshipId (sourceId targetId : string) : string :=
  sourceId +:+ "->" +:+ targetId.

Definition createEmptySocialGraph : SocialGraphState :=
  {| nodes := ∅; relationships := ∅ |}.

Definition addCharacterNode (graph : SocialGraphState) (characterId : string)
    : SocialGraphState :=
  match nodes graph !! characterId with
  | Some _ => graph
  | None =>
      {| nodes := <[characterId :=
                      {| node_id := characterId;
                         outgoingRelations := [];
                         incomingRelations := [] |}]> (nodes graph);
         relationships := relationships graph |}
  end.

Definition getRelationship (graph : SocialGraphState)
    (sourceId targetId : string) : option Relationship :=
  relationships graph !! createRelationshipId sourceId targetId.

Definition TRUST_DECAY_RATE : Q := 0.02%Q.

Definition INTIMACY_DECAY_RATE : Q := 0.01%Q.

(** The argument [delta: { trust?: number; intimacy?: number }]. *)
Record Delta := {
  delta_trust : option Q;
  delta_intimacy : option Q
}.

(** [ids.includes(relationId)] *)
Definition includes_id (ids : list string) (relationId : string) : bool :=
  bool_decide (relationId ∈ ids).

Definition upsertRelationship (graph : SocialGraphState)
    (sourceId targetId : string) (delta : Delta) (currentTurn : Z)
    : SocialGraphState :=
  let relationId := createRelationshipId sourceId targetId in
  let existing := relationships graph !! relationId in
  let newRelationship :=
    match existing with
    | Some existing =>
        {| rel_sourceId := rel_sourceId existing;
           rel_targetId := rel_targetId existing;
           trust := clamp (trust existing + nullish (delta_trust delta) 0)%Q
                          (-1)%Q 1%Q;
           intimacy :=
             clamp (intimacy existing + nullish (delta_intimacy delta) 0)%Q
                   0%Q 1%Q;
           interactions := (interactions existing + 1)%Z;
           lastInteractionTurn := currentTurn |}
    | None =>
        {| rel_sourceId := sourceId;
           rel_targetId := targetId;
           trust := clamp (nullish (delta_trust delta) 0%Q) (-1)%Q 1%Q;
           intimacy := clamp (nullish (delta_intimacy delta) 0%Q) 0%Q 1%Q;
           interactions := 1%Z;
           lastInteractionTurn := currentTurn |}
    end in
  let newRelationships := <[relationId := newRelationship]> (relationships graph) in
  let newNodes := nodes graph in
  let newNodes :=
    match newNodes !! sourceId with
    | Some sourceNode =>
        if negb (includes_id (outgoingRelations sourceNode) relationId)
        then <[sourceId :=
                 {| node_id := node_id sourceNode;
                    outgoingRelations :=
                      outgoingRelations sourceNode ++ [relationId];
                    incomingRelations := incomingRelations sourceNode |}]>
               newNodes
        else newNodes
    | None => newNodes
    end in
  let newNodes :=
    match newNodes !! targetId with
    | Some targetNode =>
        if negb (includes_id (incomingRelations targetNode) relationId)
        then <[targetId :=
                 {| node_id := node_id targetNode;
                    outgoingRelations := outgoingRelations targetNode;
                    incomingRelations :=
                      incomingRelations targetNode ++ [relationId] |}]>
               newNodes
        else newNodes
    | None => newNodes
    end in
  {| nodes := newNodes; relationships := newRelationships |}.

(** [{ ...rel, trust: ..., intimacy: ... }] of [decayRelationships].  At a
    turn far before the last interaction the power of the code overflows
    to an infinity, which the rational power cannot do: the properties of
    the decay take a turn that is not before the last interaction, where
    the power lies in [[0, 1]]. *)
Definition decay_relationship (currentTurn : Z) (rel : Relationship)
    : Relationship :=
  let turnsSince := (currentTurn - lastInteractionTurn rel)%Z in
  let decayedTrust :=
    (trust rel * Math_pow (1 - TRUST_DECAY_RATE) turnsSince)%Q in
  let decayedIntimacy :=
    (intimacy rel * Math_pow (1 - INTIMACY_DECAY_RATE) turnsSince)%Q in
  {| rel_sourceId := rel_sourceId rel;
     rel_targetId := rel_targetId rel;
     trust := clamp decayedTrust (-1)%Q 1%Q;
     intimacy := clamp decayedIntimacy 0%Q 1%Q;
     interactions := interactions rel;
     lastInteractionTurn := lastInteractionTurn rel |}.

Definition decayRelationships (graph : SocialGraphState) (currentTurn : Z)
    : SocialGraphState :=
  let newRelationships :=
    foldl (fun (newRelationships : gmap string Relationship)
               '(id, rel) =>
             <[id := decay_relationship currentTurn rel]> newRelationships)
          ∅ (map_to_list (relationships graph)) in
  {| nodes := nodes graph; relationships := newRelationships |}.

Definition PAGERANK_DAMPING : Q := 0.85%Q.

Definition PAGERANK_ITERATIONS : nat := 20.

Definition PAGERANK_TOLERANCE : Q := 1e-6%Q.

(** The body of [for (const relId of node.incomingRelations)].  A source
    node without outgoing relations gives a division by zero, which yields
    [0] in [Q] and an infinity or NaN in JavaScript; [upsertRelationship]
    lists every edge at its source, so that the graphs it builds have no
    such node.  [Binary64.incoming_body] divides as the code does. *)
Definition incoming_body (graph : SocialGraphState) (ranks : gmap string Q)
    (sum : Q) (relId : string) : Q :=
  match relationships graph !! relId with
  | Some rel =>
      match nodes graph !! rel_sourceId rel with
      | Some sourceNode =>
          let outDegree :=
            inject_Z (Z.of_nat (length (outgoingRelations sourceNode))) in
          let sourceRank := nullish (ranks !! rel_sourceId rel) 0%Q in
          let weight := (0.5 + 0.5 * ((trust rel + 1) / 2))%Q in
          (sum + weight * sourceRank / outDegree)%Q
      | None => sum
      end
  | None => sum
  end.

(** The body of [for (const nodeId of nodeIds)]; [node] is
    [graph.nodes.get(nodeId)!], the value stored under the key [nodeId].
    The new rank is exact here; [Binary64.node_body] rounds it as the code
    does. *)
Definition node_body (graph : SocialGraphState) (n : Q)
    (ranks : gmap string Q) (st : gmap string Q * Q)
    (entry : string * CharacterNode) : gmap string Q * Q :=
  let '(newRanks, maxDiff) := st in
  let '(nodeId, node) := entry in
  let sum := foldl (incoming_body graph ranks) 0%Q (incomingRelations node) in
  let newRank :=
    ((1 - PAGERANK_DAMPING) / n + PAGERANK_DAMPING * sum)%Q in
  let diff := Math_abs (newRank - nullish (ranks !! nodeId) 0)%Q in
  (<[nodeId := newRank]> newRanks,
   if Qlt_bool maxDiff diff then diff else maxDiff).

(** One pass over the nodes: [newRanks] and [maxDiff]. *)
Definition pagerank_sweep (graph : SocialGraphState) (n : Q)
    (ranks : gmap string Q) : gmap string Q * Q :=
  foldl (node_body graph n ranks) (∅, 0%Q) (map_to_list (nodes graph)).

(** [for (const [id, rank] of newRanks) ranks.set(id, rank)] *)
Definition commit_ranks (ranks newRanks : gmap string Q) : gmap string Q :=
  foldl (fun (ranks : gmap string Q) '(id, rank) => <[id := rank]> ranks)
        ranks (map_to_list newRanks).

(** The loop [for (let iter = 0; iter < PAGERANK_ITERATIONS; iter++)], by
    recursion on the number of iterations left.  The second component
    counts the bodies that were run; it is not part of the source. *)
Fixpoint pagerank_loop (graph : SocialGraphState) (n : Q) (remaining : nat)
    (ranks : gmap string Q) : gmap string Q * nat :=
  match remaining with
  | O => (ranks, O)
  | S remaining' =>
      let '(newRanks, maxDiff) := pagerank_sweep graph n ranks in
      if Qlt_bool maxDiff PAGERANK_TOLERANCE then (ranks, 1%nat)
      else
        let '(ranks', runs) :=
          pagerank_loop graph n remaining' (commit_ranks ranks newRanks) in
        (ranks', S runs)
  end.

(** The initial uniform distribution. *)
Definition initial_ranks (nodeIds : list string) (n : Q) : gmap string Q :=
  foldl (fun (ranks : gmap string Q) id => <[id := (1 / n)%Q]> ranks)
        ∅ nodeIds.

(** [calculatePageRank] together with the number of loop bodies it ran. *)
Definition calculatePageRank_trace (graph : SocialGraphState)
    : gmap string Q * nat :=
  let nodeIds := (map_to_list (nodes graph)).*1 in
  let n := length nodeIds in
  if (n =? 0)%nat then (∅, O)
  else
    let n := inject_Z (Z.of_nat n) in
    pagerank_loop graph n PAGERANK_ITERATIONS (initial_ranks nodeIds n).

Definition calculatePageRank (graph : SocialGraphState) : gmap string Q :=
  (calculatePageRank_trace graph).1.

(** ** modules/beliefSystem.ts *)

Record Belief := {
  proposition : string;
  confidence : Q;            (* [0, 1] *)
  lastUpdatedTurn : Z;
  sources : list string
}.

Record BeliefState := {
  characterId : string;
  beliefs : gmap string Belief
}.

Record ObservationContext := {
  observerId : string;
  observerLocation : string;
  attentionLevel : Q;
  intelligence : Q
}.

Record WorldEvent := {
  event_id : string;
  event_type : string;
  event_actorId : string;
  event_targetId : option string;
  location : string;
  event_turn : Z;
  visibility : Q
}.

Definition createBeliefState (characterId : string) : BeliefState :=
  {| characterId := characterId; beliefs := ∅ |}.

Definition calculateObservability (event : WorldEvent)
    (context : ObservationContext) : Q :=
  let distanceFactor :=
    if String.eqb (location event) (observerLocation context)
    then 1.0%Q else 0.3%Q in
  let observability :=
    (visibility event * distanceFactor * attentionLevel context)%Q in
  clamp observability 0%Q 1%Q.

(** The default of the parameter [threshold]. *)
Definition DEFAULT_THRESHOLD : Q := 0.5%Q.

Definition isEventObserved (event : WorldEvent) (context : ObservationContext)
    (threshold : Q) : bool :=
  let observability := calculateObservability event context in
  Qle_bool threshold observability.

Record PropositionImpact := {
  impact_proposition : string;
  likelihoodIfTrue : Q;
  likelihoodIfFalse : Q
}.

(** The quotient is exact here; [Binary64.bayesianUpdate] rounds it as the
    code does. *)
Definition bayesianUpdate (prior likelihoodTrue likelihoodFalse : Q) : Q :=
  let evidence :=
    (likelihoodTrue * prior + likelihoodFalse * (1 - prior))%Q in
  if Qeq_bool evidence 0 then prior
  else
    let posterior := (likelihoodTrue * prior / evidence)%Q in
    clamp posterior 0%Q 1%Q.

Definition adjustForIntelligence (likelihood intelligence : Q) : Q :=
  (0.5 + (likelihood - 0.5) * intelligence)%Q.

(** The body of [for (const impact of impacts)]. *)
Definition impact_body (event : WorldEvent) (context : ObservationContext)
    (newBeliefs : gmap string Belief) (impact : PropositionImpact)
    : gmap string Belief :=
  let existing := newBeliefs !! impact_proposition impact in
  let prior := nullish (confidence <$> existing) 0.5%Q in
  let adjustedLikelihoodTrue :=
    adjustForIntelligence (likelihoodIfTrue impact) (intelligence context) in
  let adjustedLikelihoodFalse :=
    adjustForIntelligence (likelihoodIfFalse impact) (intelligence context) in
  let posterior :=
    bayesianUpdate prior adjustedLikelihoodTrue adjustedLikelihoodFalse in
  <[impact_proposition impact :=
      {| proposition := impact_proposition impact;
         confidence := posterior;
         lastUpdatedTurn := event_turn event;
         sources := nullish (sources <$> existing) [] ++ [event_id event] |}]>
    newBeliefs.

Definition updateBeliefFromEvent (state : BeliefState) (event : WorldEvent)
    (context : ObservationContext) (impacts : list PropositionImpact)
    : BeliefState :=
  if negb (isEventObserved event context DEFAULT_THRESHOLD) then state
  else
    let newBeliefs := foldl (impact_body event context) (beliefs state) impacts in
    {| characterId := characterId state; beliefs := newBeliefs |}.

(** * Further functions of the same sources *)

(** ** modules/socialGraph.ts: queries *)

(** A bound that starts at [-Infinity] or [+Infinity]: [None] is the
    infinity, [Some x] a number. *)
Definition above (x : Q) (bound : option Q) : bool :=
  match bound with
  | Some b => Qlt_bool b x          (* x > b *)
  | None => true                    (* x > -Infinity *)
  end.

Definition below (x : Q) (bound : option Q) : bool :=
  match bound with
  | Some b => Qlt_bool x b          (* x < b *)
  | None => true                    (* x < Infinity *)
  end.

(** The result [{ trust, intimacy }] of [getBidirectionalRelationship]. *)
Record Ties := {
  ties_trust : Q;
  ties_intimacy : Q
}.

Definition getBidirectionalRelationship (graph : SocialGraphState)
    (idA idB : string) : Ties :=
  let relAB := getRelationship graph idA idB in
  let relBA := getRelationship graph idB idA in
  let trustA := nullish (trust <$> relAB) 0%Q in
  let trustB := nullish (trust <$> relBA) 0%Q in
  let intimacyA := nullish (intimacy <$> relAB) 0%Q in
  let intimacyB := nullish (intimacy <$> relBA) 0%Q in
  {| ties_trust := ((trustA + trustB) / 2)%Q;
     ties_intimacy := ((intimacyA + intimacyB) / 2)%Q |}.

Definition calculateDegreeCentrality (graph : SocialGraphState)
    : gmap string Q :=
  let n := size (nodes graph) in
  if (n <=? 1)%nat then
    foldl (fun (centrality : gmap string Q) id => <[id := 0%Q]> centrality)
          ∅ (map_to_list (nodes graph)).*1
  else
    foldl (fun (centrality : gmap string Q) '(id, node) =>
             let degree :=
               (length (incomingRelations node)
                + length (outgoingRelations node))%nat in
             <[id := (inject_Z (Z.of_nat degree)
                      / (2 * (inject_Z (Z.of_nat n) - 1)))%Q]> centrality)
          ∅ (map_to_list (nodes graph)).

Definition getAllRelationshipsFor (graph : SocialGraphState)
    (characterId : string) : list Relationship :=
  match nodes graph !! characterId with
  | None => []
  | Some node =>
      foldl (fun (relations : list Relationship) relId =>
               match relationships graph !! relId with
               | Some rel => relations ++ [rel]
               | None => relations
               end)
            [] (outgoingRelations node ++ incomingRelations node)
  end.

Definition findMostTrusted (graph : SocialGraphState) (characterId : string)
    : option string :=
  match nodes graph !! characterId with
  | None => None
  | Some node =>
      (foldl (fun (st : option Q * option string) relId =>
                let '(maxTrust, mostTrusted) := st in
                match relationships graph !! relId with
                | Some rel =>
                    if above (trust rel) maxTrust
                    then (Some (trust rel), Some (rel_targetId rel))
                    else st
                | None => st
                end)
             (None, None) (outgoingRelations node)).2
  end.

Definition findLeastTrusted (graph : SocialGraphState) (characterId : string)
    : option string :=
  match nodes graph !! characterId with
  | None => None
  | Some node =>
      (foldl (fun (st : option Q * option string) relId =>
                let '(minTrust, leastTrusted) := st in
                match relationships graph !! relId with
                | Some rel =>
                    if below (trust rel) minTrust
                    then (Some (trust rel), Some (rel_targetId rel))
                    else st
                | None => st
                end)
             (None, None) (outgoingRelations node)).2
  end.

Definition findMostIntimate (graph : SocialGraphState) (characterId : string)
    : option string :=
  match nodes graph !! characterId with
  | None => None
  | Some node =>
      (foldl (fun (st : option Q * option string) relId =>
                let '(maxIntimacy, mostIntimate) := st in
                match relationships graph !! relId with
                | Some rel =>
                    if above (intimacy rel) maxIntimacy
                    then (Some (intimacy rel), Some (rel_targetId rel))
                    else st
                | None => st
                end)
             (None, None) (outgoingRelations node)).2
  end.

(** ** modules/socialGraph.ts: communities *)

(** [`community-${communityCounter}`] *)
Definition community_name (communityCounter : nat) : string :=
  "community-" +:+ pretty communityCounter.

(** The body of the loop over
    [[...node.outgoingRelations, ...node.incomingRelations]]: the queue
    after the push, if there is one. *)
Definition neighbor_body (graph : SocialGraphState) (current : string)
    (visited : gset string) (queue : list string) (relId : string)
    : list string :=
  match relationships graph !! relId with
  | Some rel =>
      if Qlt_bool 0 (trust rel) then
        let neighbor :=
          if String.eqb (rel_sourceId rel) current
          then rel_targetId rel else rel_sourceId rel in
        if bool_decide (neighbor ∈ visited) then queue
        else queue ++ [neighbor]
      else queue
  | None => queue
  end.

(** The loop [while (queue.length > 0)], by recursion on a bound of the
    number of its turns: [None] when the bound is reached with the queue
    not empty. *)
Fixpoint community_loop (fuel : nat) (graph : SocialGraphState)
    (communityId : string) (queue : list string) (visited : gset string)
    (communities : gmap string string) {struct fuel}
    : option (gset string * gmap string string) :=
  match queue with
  | [] => Some (visited, communities)
  | current :: queue =>                       (* [queue.shift()] *)
      match fuel with
      | O => None
      | S fuel' =>
          if bool_decide (current ∈ visited)
          then community_loop fuel' graph communityId queue visited
                              communities
          else
            let visited := visited ∪ {[current]} in
            let communities := <[current := communityId]> communities in
            match nodes graph !! current with
            | None =>
                community_loop fuel' graph communityId queue visited
                               communities
            | Some node =>
                let queue :=
                  foldl (neighbor_body graph current visited) queue
                        (outgoingRelations node ++ incomingRelations node) in
                community_loop fuel' graph communityId queue visited
                               communities
            end
      end
  end.

(** The state of the outer loop: [communities], [visited] and
    [communityCounter]. *)
Definition CommunityState : Type := gmap string string * gset string * nat.

(** The body of [for (const nodeId of graph.nodes.keys())]. *)
Definition community_body (fuel : nat) (graph : SocialGraphState)
    (st : option CommunityState) (nodeId : string) : option CommunityState :=
  match st with
  | None => None
  | Some (communities, visited, communityCounter) =>
      if bool_decide (nodeId ∈ visited) then st
      else
        match community_loop fuel graph (community_name communityCounter)
                             [nodeId] visited communities with
        | Some (visited, communities) =>
            Some (communities, visited, S communityCounter)
        | None => None
        end
  end.

(** [detectCommunities] with [fuel] as the bound of each [while] loop and
    [keys] as [graph.nodes.keys()]: the keys of a [Map] come in the order of
    their insertion, which the map of the model does not record, so the
    order is an argument. *)
Definition detectCommunities_within (fuel : nat) (keys : list string)
    (graph : SocialGraphState) : option (gmap string string) :=
  match foldl (community_body fuel graph) (Some (∅, ∅, O)) keys with
  | Some (communities, _, _) => Some communities
  | None => None
  end.

(** The number of ids in the two adjacency lists of a node, and in those of
    all nodes. *)
Definition degree (node : CharacterNode) : nat :=
  length (outgoingRelations node ++ incomingRelations node).

Definition total_degree (graph : SocialGraphState) : nat :=
  sum_list_with (fun e => degree e.2) (map_to_list (nodes graph)).

(** Each [while] loop takes a node from the queue once for the start and
    once for each id of an adjacency list at most.  The keys are taken in
    the order of the map of the model. *)
Definition detectCommunities (graph : SocialGraphState)
    : option (gmap string string) :=
  detectCommunities_within (S (total_degree graph))
                           (map_to_list (nodes graph)).*1 graph.

(** ** modules/beliefSystem.ts: the other functions *)

Definition setInitialBelief (state : BeliefState) (proposition : string)
    (confidence : Q) (turn : Z) : BeliefState :=
  let newBeliefs :=
    <[proposition :=
        {| proposition := proposition;
           confidence := clamp confidence 0%Q 1%Q;
           lastUpdatedTurn := turn;
           sources := ["initial"] |}]> (beliefs state) in
  {| characterId := characterId state; beliefs := newBeliefs |}.

Definition BELIEF_DECAY_RATE : Q := 0.01%Q.

Definition BELIEF_EQUILIBRIUM : Q := 0.5%Q.

(** [{ ...belief, confidence: ... }] of [decayBeliefs].  As for the decay
    of relationships, the properties take a turn that is not before the
    date of the belief, where the power of the code lies in [[0, 1]]. *)
Definition decay_belief (currentTurn : Z) (belief : Belief) : Belief :=
  let turnsSince := (currentTurn - lastUpdatedTurn belief)%Z in
  let decayFactor := Math_pow (1 - BELIEF_DECAY_RATE)%Q turnsSince in
  let diff := (confidence belief - BELIEF_EQUILIBRIUM)%Q in
  let decayedConfidence := (BELIEF_EQUILIBRIUM + diff * decayFactor)%Q in
  {| proposition := proposition belief;
     confidence := clamp decayedConfidence 0%Q 1%Q;
     lastUpdatedTurn := lastUpdatedTurn belief;
     sources := sources belief |}.

Definition decayBeliefs (state : BeliefState) (currentTurn : Z)
    : BeliefState :=
  let newBeliefs :=
    foldl (fun (newBeliefs : gmap string Belief) '(prop, belief) =>
             <[prop := decay_belief currentTurn belief]> newBeliefs)
          ∅ (map_to_list (beliefs state)) in
  {| characterId := characterId state; beliefs := newBeliefs |}.

Definition getBeliefConfidence (state : BeliefState) (proposition : string)
    : Q :=
  nullish (confidence <$> beliefs state !! proposition) 0.5%Q.

Definition getStrongestPositiveBelief (state : BeliefState) : option Belief :=
  (foldl (fun (st : option Belief * Q) belief =>
            let '(strongest, maxConfidence) := st in
            if Qlt_bool maxConfidence (confidence belief)
            then (Some belief, confidence belief)
            else st)
         (None, 0.5%Q) (map_to_list (beliefs state)).*2).1.

Definition getStrongestNegativeBelief (state : BeliefState) : option Belief :=
  (foldl (fun (st : option Belief * Q) belief =>
            let '(strongest, minConfidence) := st in
            if Qlt_bool (confidence belief) minConfidence
            then (Some belief, confidence belief)
            else st)
         (None, 0.5%Q) (map_to_list (beliefs state)).*2).1.

(** ** modules/utilityAI.ts: needs, outcomes and the hash *)

Record NeedState := {
  survival : Q;
  safety : Q;
  social : Q;
  esteem : Q;
  selfActualization : Q
}.

(** [Partial<Record<keyof NeedState, number>>] *)
Record NeedDeltas := {
  d_survival : option Q;
  d_safety : option Q;
  d_social : option Q;
  d_esteem : option Q;
  d_selfActualization : option Q
}.

Definition no_deltas : NeedDeltas :=
  {| d_survival := None; d_safety := None; d_social := None;
     d_esteem := None; d_selfActualization := None |}.

Record ActionOutcome := {
  needImpacts : NeedDeltas;
  probability : Q
}.

(** The two probabilities of a SPEAK at a target are the expressions of
    the code; they add up to 1 here, and in the code only up to rounding
    (to 0.9999999999999999 for a trust of -0.93). *)
Definition getActionOutcomes (actionType : ActionType) (hasTarget : bool)
    (targetRelationship : option Ties) : list ActionOutcome :=
  match actionType with
  | MOVE =>
      [ {| needImpacts :=
             {| d_survival := None; d_safety := Some 0.05%Q; d_social := None;
                d_esteem := None; d_selfActualization := None |};
           probability := 0.9%Q |};
        {| needImpacts :=
             {| d_survival := None; d_safety := Some (-0.1)%Q;
                d_social := None; d_esteem := None;
                d_selfActualization := None |};
           probability := 0.1%Q |} ]
  | WAIT =>
      [ {| needImpacts :=
             {| d_survival := Some 0.02%Q; d_safety := Some 0.1%Q;
                d_social := None; d_esteem := None;
                d_selfActualization := None |};
           probability := 1.0%Q |} ]
  | SPEAK =>
      if negb hasTarget then
        [ {| needImpacts := no_deltas; probability := 1.0%Q |} ]
      else
        let speakTrust := nullish (ties_trust <$> targetRelationship) 0%Q in
        [ {| needImpacts :=
               {| d_survival := None; d_safety := None;
                  d_social := Some (0.15 * (1 + speakTrust))%Q;
                  d_esteem := Some 0.05%Q; d_selfActualization := None |};
             probability := (0.7 + 0.2 * speakTrust)%Q |};
          {| needImpacts :=
               {| d_survival := None; d_safety := None;
                  d_social := Some (-0.05)%Q; d_esteem := None;
                  d_selfActualization := None |};
             probability := (0.3 - 0.2 * speakTrust)%Q |} ]
  | ATTACK =>
      if negb hasTarget then
        [ {| needImpacts := no_deltas; probability := 1.0%Q |} ]
      else
        [ {| needImpacts :=
               {| d_survival := None; d_safety := Some (-0.2)%Q;
                  d_social := None; d_esteem := Some 0.1%Q;
                  d_selfActualization := None |};
             probability := 0.6%Q |};
          {| needImpacts :=
               {| d_survival := None; d_safety := Some (-0.4)%Q;
                  d_social := None; d_esteem := Some (-0.1)%Q;
                  d_selfActualization := None |};
             probability := 0.4%Q |} ]
  end.

(** The conversion of a number to a signed 32-bit integer that the bit
    operators apply to their operands and to their result. *)
Definition ToInt32 (z : Z) : Z := ((z + 2 ^ 31) mod 2 ^ 32 - 2 ^ 31)%Z.

(** The body of the loop of [hashToFloat]; [char] is
    [input.charCodeAt(i)], the byte of a string of ASCII characters. *)
Definition hash_body (hash : Z) (char : ascii) : Z :=
  let char := Z.of_nat (nat_of_ascii char) in
  let hash := (ToInt32 (Z.shiftl (ToInt32 hash) 5) - hash + char)%Z in
  ToInt32 (Z.land (ToInt32 hash) (ToInt32 hash)).

Definition hashToFloat (input : string) : Q :=
  let hash := foldl hash_body 0%Z (list_ascii_of_string input) in
  (inject_Z (Z.rem (Z.abs hash) 10000) / 10000)%Q.

(** ** core/narrativeRenderer.ts: the choice of a template *)

(** The same hash, modulo the length of an array.  For the length 0 the
    source has [NaN]; the remainder is [Z.rem]'s here. *)
Definition hashToIndex (input : string) (arrayLength : Z) : Z :=
  let hash := foldl hash_body 0%Z (list_ascii_of_string input) in
  Z.rem (Z.abs hash) arrayLength.

(** [arr[index]]: [None] is [undefined]. *)
Definition selectFromArray {T} (arr : list T) (context : string) : option T :=
  let index := hashToIndex context (Z.of_nat (length arr)) in
  if (index <? 0)%Z then None else arr !! Z.to_nat index.

Definition updateNeeds (current : NeedState) (deltas : NeedDeltas)
    : NeedState :=
  {| survival :=
       clamp (survival current + nullish (d_survival deltas) 0)%Q 0%Q 1%Q;
     safety :=
       clamp (safety current + nullish (d_safety deltas) 0)%Q 0%Q 1%Q;
     social :=
       clamp (social current + nullish (d_social deltas) 0)%Q 0%Q 1%Q;
     esteem :=
       clamp (esteem current + nullish (d_esteem deltas) 0)%Q 0%Q 1%Q;
     selfActualization :=
       clamp (selfActualization current
              + nullish (d_selfActualization deltas) 0)%Q 0%Q 1%Q |}.

Definition createDefaultNeedState : NeedState :=
  {| survival := 0.7%Q; safety := 0.6%Q; social := 0.5%Q; esteem := 0.4%Q;
     selfActualization := 0.3%Q |}.

(** The selection of targets of modules/utilityAI.ts, which has the names
    of that of modules/actionSelector.ts. *)
Module utilityAI.

Definition selectSpeakTarget (actorId : string) (graph : SocialGraphState)
    : option string :=
  findMostIntimate graph actorId.

Definition selectAttackTarget (actorId : string) (graph : SocialGraphState)
    : option string :=
  findLeastTrusted graph actorId.

End utilityAI.

(** ** modules/actionSelector.ts: targets and relations *)

Record GameCharacter := {
  char_id : string;
  char_name : string;
  char_needs : NeedState;
  char_beliefs : BeliefState;
  char_traits : list string;
  char_intelligence : Q;
  char_location : string
}.

Record GameState := {
  game_world : ExtendedWorldState;
  characters : gmap string GameCharacter;
  socialGraph : SocialGraphState
}.

Definition selectSpeakTarget (actorId : string) (candidates : list string)
    (graph : SocialGraphState) : option string :=
  match candidates with
  | [] => None                  (* [if (candidates.length === 0)] *)
  | _ :: _ =>
      (foldl (fun (st : option string * option Q) targetId =>
                let '(bestTarget, bestScore) := st in
                if String.eqb targetId actorId then st
                else
                  let rel := getRelationship graph actorId targetId in
                  let intimacy := nullish (intimacy <$> rel) 0.1%Q in
                  let trust := nullish (trust <$> rel) 0%Q in
                  let score := (intimacy * (1 + trust))%Q in
                  if above score bestScore
                  then (Some targetId, Some score)
                  else st)
             (None, None) candidates).1
  end.

Definition selectAttackTarget (actorId : string) (candidates : list string)
    (graph : SocialGraphState) : option string :=
  match candidates with
  | [] => None
  | _ :: _ =>
      (foldl (fun (st : option string * option Q) targetId =>
                let '(bestTarget, minScore) := st in
                if String.eqb targetId actorId then st
                else
                  let rel := getRelationship graph actorId targetId in
                  let trust := nullish (trust <$> rel) 0%Q in
                  if below trust minScore
                  then (Some targetId, Some trust)
                  else st)
             (None, None) candidates).1
  end.

Definition selectTargetForAction (actorId : string) (actionType : ActionType)
    (candidates : list string) (graph : SocialGraphState) : option string :=
  match actionType with
  | SPEAK => selectSpeakTarget actorId candidates graph
  | ATTACK => selectAttackTarget actorId candidates graph
  | _ => None
  end.

Definition getTagsForAction (actionType : ActionType) : list ActionTag :=
  match actionType with
  | MOVE => [NEUTRAL]
  | WAIT => [SAFE]
  | SPEAK => [SOCIAL]
  | ATTACK => [RISKY; AGGRESSIVE]
  end.

(** [names[id] ?? id] on the table of the three sample characters. *)
Definition getCharacterName (id : string) : string :=
  if String.eqb id "npc-1" then "첫째 자"
  else if String.eqb id "npc-2" then "둘째 자"
  else if String.eqb id "npc-3" then "셋째 자"
  else id.

Definition createInitialGameState (characterIds : list string)
    (world : ExtendedWorldState) : GameState :=
  let '(characters, graph) :=
    foldl (fun (st : gmap string GameCharacter * SocialGraphState) id =>
             let '(characters, graph) := st in
             (<[id := {| char_id := id;
                         char_name := getCharacterName id;
                         char_needs := createDefaultNeedState;
                         char_beliefs := createBeliefState id;
                         char_traits := [];
                         char_intelligence := 0.7%Q;
                         char_location := "TOWN" |}]> characters,
              addCharacterNode graph id))
          (∅, createEmptySocialGraph) characterIds in
  let graph :=
    foldl (fun (graph : SocialGraphState) idA =>
             foldl (fun (graph : SocialGraphState) idB =>
                      if negb (String.eqb idA idB) then
                        upsertRelationship graph idA idB
                          {| delta_trust := Some 0%Q;
                             delta_intimacy := Some 0.1%Q |}
                          (turn world)
                      else graph)
                   graph characterIds)
          graph characterIds in
  {| game_world := world; characters := characters; socialGraph := graph |}.

(** [!action.targetId]: no target, or the empty string. *)
Definition no_target (targetId : option string) : bool :=
  match targetId with
  | None => true
  | Some t => String.eqb t ""
  end.

Definition updateRelationsFromAction (gameState : GameState) (action : Action)
    : GameState :=
  if no_target (targetId action) then gameState
  else
    let target := nullish (targetId action) "" in
    let graph := socialGraph gameState in
    let now := turn (game_world gameState) in
    let graph :=
      match type action with
      | SPEAK =>
          let graph :=
            upsertRelationship graph (actorId action) target
              {| delta_trust := Some 0.05%Q; delta_intimacy := Some 0.08%Q |}
              now in
          upsertRelationship graph target (actorId action)
            {| delta_trust := Some 0.03%Q; delta_intimacy := Some 0.05%Q |}
            now
      | ATTACK =>
          let graph :=
            upsertRelationship graph (actorId action) target
              {| delta_trust := Some (-0.3)%Q;
                 delta_intimacy := Some (-0.1)%Q |}
              now in
          upsertRelationship graph target (actorId action)
            {| delta_trust := Some (-0.5)%Q;
               delta_intimacy := Some (-0.2)%Q |}
            now
      | _ => graph
      end in
    {| game_world := game_world gameState;
       characters := characters gameState;
       socialGraph := graph |}.

(** ** core/actionGenerator.ts *)

Record ActionCandidate := {
  cand_type : ActionType;
  cand_tags : list ActionTag;
  baseProbability : Q;
  needsTarget : bool
}.

Definition BASE_ACTION_POOL : list ActionCandidate :=
  [ {| cand_type := MOVE; cand_tags := [NEUTRAL]; baseProbability := 0.3%Q;
       needsTarget := false |};
    {| cand_type := WAIT; cand_tags := [SAFE]; baseProbability := 0.25%Q;
       needsTarget := false |};
    {| cand_type := SPEAK; cand_tags := [SOCIAL]; baseProbability := 0.25%Q;
       needsTarget := true |};
    {| cand_type := ATTACK; cand_tags := [RISKY; AGGRESSIVE];
       baseProbability := 0.2%Q; needsTarget := true |} ].

(** [others[Math.floor(x)]]: [undefined] outside the array. *)
Definition element_at (others : list string) (x : Q) : option string :=
  let index := Qfloor x in
  if (index <? 0)%Z then None else others !! Z.to_nat index.

Definition pickRandomTarget (actorId : string) (allActorIds : list string)
    : Eff (option string) :=
  let others := filter (fun id => id <> actorId) allActorIds in
  match others with
  | [] => ret None
  | _ :: _ =>
      r <- Math_random ;;
      ret (element_at others (r * inject_Z (Z.of_nat (length others)))%Q)
  end.

(** The loop [for (const w of weighted)] of [generateAction], with the
    [return] after it. *)
Fixpoint roll_loop (actorId : string) (allActorIds : list string) (roll : Q)
    (weighted : list (ActionCandidate * Q)) : Eff Action :=
  match weighted with
  | [] =>
      ret {| actorId := actorId; targetId := None; type := WAIT;
             tags := [SAFE] |}
  | (candidate, weight) :: rest =>
      let roll := (roll - weight)%Q in
      if Qle_bool roll 0 then
        targetId <- (if needsTarget candidate
                     then pickRandomTarget actorId allActorIds
                     else ret None) ;;
        ret {| actorId := actorId; targetId := targetId;
               type := cand_type candidate; tags := cand_tags candidate |}
      else roll_loop actorId allActorIds roll rest
  end.

Definition generateAction (actorId : string) (world : ExtendedWorldState)
    (allActorIds : list string) : Eff Action :=
  let weighted :=
    (fun c => (c, inclineActionProbability (baseProbability c) (cand_tags c)
                    world)) <$> BASE_ACTION_POOL in
  let total := foldl (fun (s : Q) w => (s + w.2)%Q) 0%Q weighted in
  r <- Math_random ;;
  let roll := (r * total)%Q in
  roll_loop actorId allActorIds roll weighted.

Definition generateActionsForTurn (actorIds : list string)
    (world : ExtendedWorldState) : Eff (list Action) :=
  mapM (fun id => generateAction id world actorIds) actorIds.

(** ** world/initialState.ts and the driver loops *)

Definition initialWorld : ExtendedWorldState :=
  {| year := 1; turn := 1; logs := []; meanings := []; echoes := [];
     chronicles := []; tendency := [];
     meaningPressure := ∅; lastChronicleTurn := ∅ |}.


(** ** world/sampleActions.ts *)

Definition sampleActions : list Action :=
  [ {| actorId := "npc-1"; targetId := None; type := MOVE; tags := [RISKY] |};
    {| actorId := "npc-2"; targetId := None; type := WAIT; tags := [SAFE] |} ].

(** ** The drivers *)

(** The engine with the three plugins registered. *)
Definition meaningEngine : list MeaningPlugin :=
  register (register (register [] FearPlugin) TrustPlugin) RespectPlugin.

(** The loop [for (let i = 0; i < count; i++)] of both drivers: propose the
    actions, simulate the turn, go on with the world of the result.  What
    the loop prints is left out. *)
Fixpoint turn_loop (count : nat)
    (propose : ExtendedWorldState -> Eff (list Action))
    (world : ExtendedWorldState) : Eff ExtendedWorldState :=
  match count with
  | O => ret world
  | S count' =>
      actions <- propose world ;;
      result <- simulateTurn world actions meaningEngine ;;
      turn_loop count' propose (result_world result)
  end.

(** [runSimulation], with the last value of its variable [world] as the
    result. *)
Definition runSimulation : Eff ExtendedWorldState :=
  turn_loop 10 (fun _ => ret sampleActions) initialWorld.

Definition actors : list string := ["npc-1"; "npc-2"; "npc-3"].

(** The loop of the entry point, over generated actions. *)
Definition main : Eff ExtendedWorldState :=
  turn_loop 20 (generateActionsForTurn actors) initialWorld.
(** * The arithmetic of the code: binary64 *)

(** [bayesianUpdate] and [calculatePageRank] once more, with the numbers
    of the code: the binary64 floats, whose operations round to the nearest
    double.  A decimal literal stands for the nearest double, as in
    JavaScript. *)
Module Binary64.
Import FloatClass PrimFloat.
#[local] Set Warnings "-inexact-float".
Local Open Scope float_scope.

(** A length as a number. *)
Definition of_length (n : nat) : float :=
  of_uint63 (Uint63.of_Z (Z.of_nat n)).

(** [Math.max] and [Math.min]: NaN when an argument is NaN, and [-0] below
    [+0]. *)
Definition Math_max (a b : float) : float :=
  if is_nan a || is_nan b then nan
  else if a <? b then b
  else if b <? a then a
  else match classify a with NZero => b | _ => a end.

Definition Math_min (a b : float) : float :=
  if is_nan a || is_nan b then nan
  else if a <? b then a
  else if b <? a then b
  else match classify a with NZero => a | _ => b end.

Definition Math_abs (a : float) : float := abs a.

Definition clamp (value min max : float) : float :=
  Math_max min (Math_min max value).

(** *** modules/beliefSystem.ts *)

Definition bayesianUpdate (prior likelihoodTrue likelihoodFalse : float)
    : float :=
  let evidence := likelihoodTrue * prior + likelihoodFalse * (1 - prior) in
  if evidence =? 0 then prior
  else
    let posterior := likelihoodTrue * prior / evidence in
    clamp posterior 0 1.

(** *** modules/socialGraph.ts *)

Record Relationship := {
  rel_sourceId : string;
  rel_targetId : string;
  trust : float;
  intimacy : float;
  interactions : Z;
  lastInteractionTurn : Z
}.

Record SocialGraphState := {
  nodes : gmap string CharacterNode;
  relationships : gmap string Relationship
}.

Definition PAGERANK_DAMPING : float := 0.85.

Definition PAGERANK_ITERATIONS : nat := 20.

Definition PAGERANK_TOLERANCE : float := 1e-6.

(** The body of [for (const relId of node.incomingRelations)]. *)
Definition incoming_body (graph : SocialGraphState)
    (ranks : gmap string float) (sum : float) (relId : string) : float :=
  match relationships graph !! relId with
  | Some rel =>
      match nodes graph !! rel_sourceId rel with
      | Some sourceNode =>
          let outDegree := of_length (length (outgoingRelations sourceNode)) in
          let sourceRank := nullish (ranks !! rel_sourceId rel) 0 in
          let weight := 0.5 + 0.5 * ((trust rel + 1) / 2) in
          sum + weight * sourceRank / outDegree
      | None => sum
      end
  | None => sum
  end.

(** The body of [for (const nodeId of nodeIds)]. *)
Definition node_body (graph : SocialGraphState) (n : float)
    (ranks : gmap string float) (st : gmap string float * float)
    (entry : string * CharacterNode) : gmap string float * float :=
  let '(newRanks, maxDiff) := st in
  let '(nodeId, node) := entry in
  let sum := foldl (incoming_body graph ranks) 0 (incomingRelations node) in
  let newRank := (1 - PAGERANK_DAMPING) / n + PAGERANK_DAMPING * sum in
  let diff := Math_abs (newRank - nullish (ranks !! nodeId) 0) in
  (<[nodeId := newRank]> newRanks,
   if maxDiff <? diff then diff else maxDiff).

Definition pagerank_sweep (graph : SocialGraphState) (n : float)
    (ranks : gmap string float) : gmap string float * float :=
  foldl (node_body graph n ranks) (∅, 0) (map_to_list (nodes graph)).

Definition commit_ranks (ranks newRanks : gmap string float)
    : gmap string float :=
  foldl (fun (ranks : gmap string float) '(id, rank) => <[id := rank]> ranks)
        ranks (map_to_list newRanks).

Fixpoint pagerank_loop (graph : SocialGraphState) (n : float)
    (remaining : nat) (ranks : gmap string float) : gmap string float :=
  match remaining with
  | O => ranks
  | S remaining' =>
      let '(newRanks, maxDiff) := pagerank_sweep graph n ranks in
      if maxDiff <? PAGERANK_TOLERANCE then ranks
      else pagerank_loop graph n remaining' (commit_ranks ranks newRanks)
  end.

Definition initial_ranks (nodeIds : list string) (n : float)
    : gmap string float :=
  foldl (fun (ranks : gmap string float) id => <[id := 1 / n]> ranks)
        ∅ nodeIds.

Definition calculatePageRank (graph : SocialGraphState)
    : gmap string float :=
  let nodeIds := (map_to_list (nodes graph)).*1 in
  let n := length nodeIds in
  if (n =? 0)%nat then ∅
  else
    let n := of_length n in
    pagerank_loop graph n PAGERANK_ITERATIONS (initial_ranks nodeIds n).

(** *** The vocabulary of the stop rule *)

(** [maxDiff] at the end of one pass. *)
Definition max_change (graph : SocialGraphState) (n : float)
    (ranks : gmap string float) : float :=
  (pagerank_sweep graph n ranks).2.

(** The test [maxDiff < PAGERANK_TOLERANCE] at the end of one pass. *)
Definition converged (graph : SocialGraphState) (n : float)
    (ranks : gmap string float) : bool :=
  max_change graph n ranks <? PAGERANK_TOLERANCE.

(** The ranks after one loop body that does not break. *)
Definition pagerank_step (graph : SocialGraphState) (n : float)
    (ranks : gmap string float) : gmap string float :=
  commit_ranks ranks (pagerank_sweep graph n ranks).1.

(** The ranks after [j] such bodies. *)
Fixpoint ranks_after (graph : SocialGraphState) (n : float)
    (ranks : gmap string float) (j : nat) : gmap string float :=
  match j with
  | O => ranks
  | S j' => ranks_after graph n (pagerank_step graph n ranks) j'
  end.

(** [n], the number of nodes, as the divisor of the ranks. *)
Definition node_count (graph : SocialGraphState) : float :=
  of_length (length (map_to_list (nodes graph)).*1).

(** A graph of one node, without relationships. *)
Definition lone_node (nodeId : string) : SocialGraphState :=
  {| nodes := {[ nodeId := {| node_id := nodeId; outgoingRelations := [];
                              incomingRelations := [] |} ]};
     relationships := ∅ |}.

(** Two nodes and an edge that only its target lists: the source has no
    outgoing relation, and the rank of the target is divided by an
    out-degree of zero. *)
Definition unlisted_edge : SocialGraphState :=
  {| nodes := {[ "a" := {| node_id := "a"; outgoingRelations := [];
                           incomingRelations := [] |};
                 "b" := {| node_id := "b"; outgoingRelations := [];
                           incomingRelations := ["a->b"] |} ]};
     relationships :=
       {[ "a->b" := {| rel_sourceId := "a"; rel_targetId := "b";
                       trust := 0.5; intimacy := 0.4; interactions := 1;
                       lastInteractionTurn := 3 |} ]} |}.

End Binary64.

(** * The vocabulary of the properties, and sample data *)

Section Vocabulary.
Local Open Scope Q_scope.

(** ** Beliefs *)

(** The factor of [calculateObservability] for the distance between the
    observer and the event. *)
Definition locationFactor (event : WorldEvent) (context : ObservationContext)
    : Q :=
  if bool_decide (observerLocation context = location event)
  then 1.0 else 0.3.

Definition sample_belief_state : BeliefState :=
  {| characterId := "npc-1";
     beliefs := {[ "the king is good" :=
                     {| proposition := "the king is good"; confidence := 0.7;
                        lastUpdatedTurn := 2; sources := ["initial"] |} ]} |}.

Definition sample_event : WorldEvent :=
  {| event_id := "e1"; event_type := "ATTACK"; event_actorId := "npc-2";
     event_targetId := None; location := "market"; event_turn := 4;
     visibility := 0.9 |}.

Definition far_observer : ObservationContext :=
  {| observerId := "npc-1"; observerLocation := "castle";
     attentionLevel := 1; intelligence := 0.8 |}.

Definition near_observer : ObservationContext :=
  {| observerId := "npc-1"; observerLocation := "market";
     attentionLevel := 1; intelligence := 0.8 |}.

(** ** Echoes and pressure *)

(** [DECAY_SENSITIVITY[type] ?? 0.7] *)
Definition sensitivity (type : string) : Q :=
  nullish (DECAY_SENSITIVITY type) 0.7.

(** What one echo of tone [t] does to the pressure entries, in the words of
    the specification: each entry [p] of type [type] becomes
    [p + p * toneFactor(t) * sensitivity(type) * 0.1]. *)
Definition amplify (t : Tone) (pressure : gmap string Q) : gmap string Q :=
  map_imap
    (fun type p => Some (p + p * TONE_FACTOR t * sensitivity type * 0.1))
    pressure.

(** ** Relationships *)

(** The ranges of the data model: [trust] in [[-1, 1]], [intimacy] in
    [[0, 1]]. *)
Definition relationship_in_range (rel : Relationship) : Prop :=
  -1 <= trust rel <= 1 /\ 0 <= intimacy rel <= 1.

Definition graph_in_range (graph : SocialGraphState) : Prop :=
  forall id rel,
    relationships graph !! id = Some rel -> relationship_in_range rel.

Definition sample_relationship : Relationship :=
  {| rel_sourceId := "a"; rel_targetId := "b"; trust := 0.5; intimacy := 0.4;
     interactions := 1; lastInteractionTurn := 3 |}.

(** Two characters and the edge from ["a"] to ["b"], as
    [addCharacterNode] and [upsertRelationship] build them. *)
Definition sample_graph : SocialGraphState :=
  {| nodes :=
       {[ "a" := {| node_id := "a"; outgoingRelations := ["a->b"];
                    incomingRelations := [] |};
          "b" := {| node_id := "b"; outgoingRelations := [];
                    incomingRelations := ["a->b"] |} ]};
     relationships := {[ "a->b" := sample_relationship ]} |}.

(** Both deltas are zero, given as [0] or left out. *)
Definition zero_delta (delta : Delta) : Prop :=
  nullish (delta_trust delta) 0 == 0 /\
  nullish (delta_intimacy delta) 0 == 0.

(** ** PageRank *)

(** [newRank] of a node, as [node_body] computes it. *)
Definition new_rank (graph : SocialGraphState) (n : Q)
    (ranks : gmap string Q) (node : CharacterNode) : Q :=
  (1 - PAGERANK_DAMPING) / n
  + PAGERANK_DAMPING
    * foldl (incoming_body graph ranks) 0 (incomingRelations node).

(** [diff] of a node: the change of its rank in one pass. *)
Definition rank_change (graph : SocialGraphState) (n : Q)
    (ranks : gmap string Q) (nodeId : string) (node : CharacterNode) : Q :=
  Math_abs (new_rank graph n ranks node - nullish (ranks !! nodeId) 0).

(** [maxDiff] at the end of one pass. *)
Definition max_change (graph : SocialGraphState) (n : Q)
    (ranks : gmap string Q) : Q :=
  (pagerank_sweep graph n ranks).2.

(** The ranks after one loop body that does not break. *)
Definition pagerank_step (graph : SocialGraphState) (n : Q)
    (ranks : gmap string Q) : gmap string Q :=
  commit_ranks ranks (pagerank_sweep graph n ranks).1.

(** The ranks after [j] such bodies. *)
Fixpoint ranks_after (graph : SocialGraphState) (n : Q)
    (ranks : gmap string Q) (j : nat) : gmap string Q :=
  match j with
  | O => ranks
  | S j' => ranks_after graph n (pagerank_step graph n ranks) j'
  end.

(** [n], the number of nodes, as the divisor of the ranks. *)
Definition node_count (graph : SocialGraphState) : Q :=
  inject_Z (Z.of_nat (length (map_to_list (nodes graph)).*1)).

(** ** Chronicles *)

(** The test [canEmit] of the loop, read on the world given to
    [generateChronicleFromPressure]. *)
Definition canEmit (world : ExtendedWorldState) (type : string) (value : Q)
    : bool :=
  Qle_bool CHRONICLE_THRESHOLD value
  && gap_elapsed (turn world) (lastChronicleTurn world !! type).

(** A type emits: its pressure is at least 2.0 and its last chronicle, if
    there is one, lies at least 3 turns in the past. *)
Definition emits (world : ExtendedWorldState) (type : string) : Prop :=
  exists value,
    meaningPressure world !! type = Some value /\
    2.0 <= value /\
    match lastChronicleTurn world !! type with
    | Some last => (3 <= turn world - last)%Z
    | None => True
    end.

(** The types that emit, in the order of the loop. *)
Definition emitted_types (world : ExtendedWorldState) : list string :=
  (filter (fun e => canEmit world e.1 e.2 = true)
          (map_to_list (meaningPressure world))).*1.

(** The world of the cooldown scenario: only FEAR carries pressure. *)
Definition fear_world (turn : Z) (last : Z) : ExtendedWorldState :=
  {| year := 1; turn := turn; logs := []; meanings := []; echoes := [];
     chronicles := []; tendency := [];
     meaningPressure := {[ "FEAR"%string := 2.0 ]};
     lastChronicleTurn := {[ "FEAR"%string := last ]} |}.

Definition sample_ambient : Ambient :=
  {| uuid_source := fun n => String (ascii_of_nat (65 + n)) EmptyString;
     random_source := fun _ => 0.5;
     clock_source := fun n => Z.of_nat n |}.

(** ** Tendencies *)

Definition weight_in_range (w : Q) : Prop := -0.6 <= w <= 0.6.

Definition map_in_range (map : gmap ActionTag Q) : Prop :=
  forall t w, map !! t = Some w -> weight_in_range w.

(** The weight that a tendency list gives to a tag, as
    [inclineActionProbability] reads it: the weight of the first entry with
    the tag. *)
Definition weight_of (l : list WorldTendency) (t : ActionTag) : option Q :=
  weight <$> find_tendency t l.

(** The weight that the loop [for (const t of world.tendency)] collects
    for a tag: the weights of the entries with the tag, added in the order
    of the list to 0; nothing for a tag without entry. *)
Definition summed_weight (t : ActionTag) (l : list WorldTendency)
    : option Q :=
  foldl (fun (acc : option Q) e =>
           if bool_decide (tag e = t)
           then Some (nullish acc 0 + weight e) else acc)
        None l.

Definition fear_chronicle : ChronicleEntry :=
  {| chronicle_id := "c1"; chronicle_year := 1;
     summary := "An era shaped by fear."; derivedMeaningIds := [];
     chronicle_scope := LOCAL |}.

Definition wary_world : ExtendedWorldState :=
  {| year := 1; turn := 8; logs := []; meanings := []; echoes := [];
     chronicles := [];
     tendency := [ {| tag := RISKY; weight := -0.55 |};
                   {| tag := SAFE; weight := 0.3 |} ];
     meaningPressure := ∅; lastChronicleTurn := ∅ |}.

(** ** The turn *)

(** What a log keeps of the action it records. *)
Definition records (action : Action) (log : ActionLog) : Prop :=
  log_actorId log = actorId action /\
  log_type log = type action /\
  log_tags log = tags action /\
  log_targetId log = None.

Definition speak_to_neighbour : Action :=
  {| actorId := "npc-1"; targetId := Some "npc-2"; type := SPEAK;
     tags := [SOCIAL] |}.

Definition dread_echo : Echo :=
  {| echo_id := "e1"; originMeaningId := "m1"; tone := negative;
     distortion := 0.5; ttl := 2;
     echo_scope := {| factionId := None; locationId := Some "LOCAL" |} |}.

Definition relief_echo : Echo :=
  {| echo_id := "e2"; originMeaningId := "m2"; tone := positive;
     distortion := 0.5; ttl := 1;
     echo_scope := {| factionId := None; locationId := Some "LOCAL" |} |}.

(** A world with pressure 1 for FEAR and 2 for JOY, a type outside the
    sensitivity table. *)
Definition echoing_world (echoes : list Echo) : ExtendedWorldState :=
  {| year := 1; turn := 4; logs := []; meanings := []; echoes := echoes;
     chronicles := []; tendency := [];
     meaningPressure := {[ "FEAR"%string := 1; "JOY"%string := 2 ]};
     lastChronicleTurn := ∅ |}.

(** ** Needs and outcomes *)

Definition needs_in_range (needs : NeedState) : Prop :=
  0 <= survival needs <= 1 /\ 0 <= safety needs <= 1 /\
  0 <= social needs <= 1 /\ 0 <= esteem needs <= 1 /\
  0 <= selfActualization needs <= 1.

(** The same satisfaction levels, up to the equality of rationals. *)
Definition same_needs (a b : NeedState) : Prop :=
  survival a == survival b /\ safety a == safety b /\
  social a == social b /\ esteem a == esteem b /\
  selfActualization a == selfActualization b.

(** The sum of the probabilities of a list of outcomes. *)
Definition total_probability (outcomes : list ActionOutcome) : Q :=
  foldr (fun o s => probability o + s) 0 outcomes.

(** The polynomial hash [s[0]*31^(n-1) + ... + s[n-1]] without
    wrap-around. *)
Definition polynomial_hash (input : string) : Z :=
  foldl (fun h c => (31 * h + Z.of_nat (nat_of_ascii c))%Z) 0%Z
        (list_ascii_of_string input).

(** ** Graphs built by the module *)

(** No edge of the graph had its last interaction after the turn. *)
Definition not_before_interactions (graph : SocialGraphState)
    (currentTurn : Z) : Prop :=
  forall id rel,
    relationships graph !! id = Some rel ->
    (lastInteractionTurn rel <= currentTurn)%Z.

(** The graphs that the functions of the module build from the empty
    graph, the decay being run at a turn that no last interaction
    follows. *)
Inductive built_graph : SocialGraphState -> Prop :=
  | built_empty : built_graph createEmptySocialGraph
  | built_node graph characterId :
      built_graph graph -> built_graph (addCharacterNode graph characterId)
  | built_upsert graph sourceId targetId delta currentTurn :
      built_graph graph ->
      built_graph
        (upsertRelationship graph sourceId targetId delta currentTurn)
  | built_decay graph currentTurn :
      built_graph graph ->
      not_before_interactions graph currentTurn ->
      built_graph (decayRelationships graph currentTurn).

(** The node that [addCharacterNode] creates. *)
Definition fresh_node (characterId : string) : CharacterNode :=
  {| node_id := characterId; outgoingRelations := [];
     incomingRelations := [] |}.

(** No relationship id is listed twice in an adjacency list. *)
Definition listed_once (graph : SocialGraphState) : Prop :=
  forall id node,
    nodes graph !! id = Some node ->
    NoDup (outgoingRelations node) /\ NoDup (incomingRelations node).

(** A node with [relationId] among its outgoing, or incoming, relations:
    the list is extended only when the id is not in it. *)
Definition list_outgoing (relationId : string) (node : CharacterNode)
    : CharacterNode :=
  {| node_id := node_id node;
     outgoingRelations :=
       if includes_id (outgoingRelations node) relationId
       then outgoingRelations node
       else outgoingRelations node ++ [relationId];
     incomingRelations := incomingRelations node |}.

Definition list_incoming (relationId : string) (node : CharacterNode)
    : CharacterNode :=
  {| node_id := node_id node;
     outgoingRelations := outgoingRelations node;
     incomingRelations :=
       if includes_id (incomingRelations node) relationId
       then incomingRelations node
       else incomingRelations node ++ [relationId] |}.

(** ** Choosing the best of a list *)

(** The relationships that the outgoing list of a character resolves to,
    in the order of the list. *)
Definition outgoing_relations (graph : SocialGraphState)
    (characterId : string) : list Relationship :=
  match nodes graph !! characterId with
  | Some node =>
      omap (fun relId => relationships graph !! relId)
           (outgoingRelations node)
  | None => []
  end.

(** One step of a scan that keeps the best score seen and its label. *)
Definition best_step (better : Q -> option Q -> bool)
    (st : option Q * option string) (entry : string * Q)
    : option Q * option string :=
  if better entry.2 st.1 then (Some entry.2, Some entry.1) else st.

(** The state of such a scan is right for the entries seen so far. *)
Definition is_best (ge : Q -> Q -> Prop) (entries : list (string * Q))
    (st : option Q * option string) : Prop :=
  match st with
  | (None, None) => entries = []
  | (Some b, Some label) =>
      (label, b) ∈ entries /\ forall e, e ∈ entries -> ge b e.2
  | _ => False
  end.

(** The score of a candidate in [selectSpeakTarget]. *)
Definition speak_score (graph : SocialGraphState) (actorId targetId : string)
    : Q :=
  let rel := getRelationship graph actorId targetId in
  nullish (intimacy <$> rel) 0.1 * (1 + nullish (trust <$> rel) 0).

(** The trust that [selectAttackTarget] reads for a candidate. *)
Definition attack_score (graph : SocialGraphState)
    (actorId targetId : string) : Q :=
  nullish (trust <$> getRelationship graph actorId targetId) 0.

(** The candidates other than the actor. *)
Definition other_candidates (actorId : string) (candidates : list string)
    : list string :=
  filter (fun id => id <> actorId) candidates.


(** ** Belief states *)

(** Every confidence is a probability. *)
Definition beliefs_in_range (state : BeliefState) : Prop :=
  forall p b, beliefs state !! p = Some b -> 0 <= confidence b <= 1.

(** The propositions that a list of impacts names. *)
Definition impact_propositions (impacts : list PropositionImpact)
    : list string :=
  impact_proposition <$> impacts.

(** The belief that [impact_body] stores has the proposition as its name,
    the turn of the event as its date and the event as its last source. *)
Definition updated_by (event : WorldEvent) (p : string) (b : Belief) : Prop :=
  proposition b = p /\ lastUpdatedTurn b = event_turn event /\
  last (sources b) = Some (event_id event).

(** A belief that dates from turn 2 with confidence 0.9, and one with
    confidence 0.2. *)
Definition two_beliefs : BeliefState :=
  {| characterId := "npc-1";
     beliefs := {[ "the king is good" :=
                     {| proposition := "the king is good"; confidence := 0.9;
                        lastUpdatedTurn := 2; sources := ["initial"] |};
                   "the road is safe" :=
                     {| proposition := "the road is safe"; confidence := 0.2;
                        lastUpdatedTurn := 2; sources := ["initial"] |} ]} |}.

(** ** Pressure *)

(** The types of a list of meanings. *)
Definition meaning_types (meanings : list MeaningEvent) : list string :=
  meaning_type <$> meanings.

(** The running sum of [accumulateMeaningPressure] for one type: the
    intensities of the meanings of the type, added one after the other, in
    the order of the list, to the pressure at the start. *)
Definition running_pressure (type : string) (start : Q)
    (meanings : list MeaningEvent) : Q :=
  foldl (fun sum m =>
           if String.eqb (meaning_type m) type then sum + intensity m
           else sum)
        start meanings.

(** [world.meaningPressure[type] ?? 0] *)
Definition pressure_of (world : ExtendedWorldState) (type : string) : Q :=
  nullish (meaningPressure world !! type) 0.

(** ** Time *)

(** The years that begin between two turns: a year begins with each turn
    whose number is a multiple of 10. *)
Definition years_between (from to : Z) : Z := (to / 10 - from / 10)%Z.

(** ** Proposals *)

(** An action that [generateAction] may propose for an actor among
    [allActorIds]: its tags are those of its type, and its target, if it
    has one, is another of the actors and the action is one that needs a
    target. *)
Definition proposed_by (id : string) (allActorIds : list string)
    (action : Action) : Prop :=
  actorId action = id /\
  tags action = getTagsForAction (type action) /\
  match targetId action with
  | Some t =>
      t ∈ allActorIds /\ t <> id /\
      (type action = SPEAK \/ type action = ATTACK)
  | None => True
  end.

(** Every number that the ambient gives for [Math.random()] lies in
    [[0, 1)]. *)
Definition random_in_unit (amb : Ambient) : Prop :=
  forall k, 0 <= random_source amb k < 1.

(** An ambient whose random numbers are all 0.6: with no tendency the roll
    falls on SPEAK. *)
Definition talkative_ambient : Ambient :=
  {| uuid_source := uuid_source sample_ambient;
     random_source := fun _ => 0.6;
     clock_source := clock_source sample_ambient |}.

(** ** Relationship ids *)

(** An id without the character [>], so that the arrow of a relationship id
    can be found again. *)
Definition plain_id (id : string) : Prop := includes id ">" = false.

(** The edge from [sourceId] to [targetId] in [graph'] is the edge of
    [graph], or the edge without weight, shifted by [trust] and [intimacy]
    within the ranges, with one more interaction and dated [now]. *)
Definition shifted (graph graph' : SocialGraphState)
    (sourceId targetId : string) (delta : Delta) (now : Z) : Prop :=
  let old := getRelationship graph sourceId targetId in
  exists rel,
    getRelationship graph' sourceId targetId = Some rel /\
    trust rel
    == clamp (nullish (trust <$> old) 0 + nullish (delta_trust delta) 0)
             (-1) 1 /\
    intimacy rel
    == clamp (nullish (intimacy <$> old) 0 + nullish (delta_intimacy delta) 0)
             0 1 /\
    interactions rel = (nullish (interactions <$> old) 0 + 1)%Z /\
    lastInteractionTurn rel = now.

(** The deltas of [updateRelationsFromAction]: what the actor comes to
    think of the target, and the target of the actor. *)
Definition speak_forth : Delta :=
  {| delta_trust := Some 0.05; delta_intimacy := Some 0.08 |}.

Definition speak_back : Delta :=
  {| delta_trust := Some 0.03; delta_intimacy := Some 0.05 |}.

Definition attack_forth : Delta :=
  {| delta_trust := Some (-0.3); delta_intimacy := Some (-0.1) |}.

Definition attack_back : Delta :=
  {| delta_trust := Some (-0.5); delta_intimacy := Some (-0.2) |}.

(** A game around the sample graph. *)
Definition sample_game : GameState :=
  {| game_world := initialWorld; characters := ∅;
     socialGraph := sample_graph |}.

Definition attack_neighbour : Action :=
  {| actorId := "b"; targetId := Some "a"; type := ATTACK;
     tags := [RISKY; AGGRESSIVE] |}.

(** ** Centrality *)

(** [(in + out) / (2 * (n - 1))] for a node of a graph of [n] nodes. *)
Definition normalized_degree (n : nat) (node : CharacterNode) : Q :=
  inject_Z (Z.of_nat (length (incomingRelations node)
                      + length (outgoingRelations node)))
  / (2 * (inject_Z (Z.of_nat n) - 1)).

(** ** Ranks *)

(** The rank that every node receives whatever its incoming edges. *)
Definition base_rank (graph : SocialGraphState) : Q :=
  (1 - PAGERANK_DAMPING) / node_count graph.

(** Ranks for the nodes of the graph and nothing else, none of them below
    [bound]. *)
Definition ranks_above (graph : SocialGraphState) (bound : Q)
    (ranks : gmap string Q) : Prop :=
  dom ranks = dom (nodes graph) /\
  forall id r, ranks !! id = Some r -> bound <= r.

(** ** The initial game *)

(** The character that [createInitialGameState] makes for an id. *)
Definition default_character (id : string) : GameCharacter :=
  {| char_id := id; char_name := getCharacterName id;
     char_needs := createDefaultNeedState;
     char_beliefs := createBeliefState id; char_traits := [];
     char_intelligence := 0.7; char_location := "TOWN" |}.

(** The deltas of the first link between two characters. *)
Definition link_delta : Delta :=
  {| delta_trust := Some 0; delta_intimacy := Some 0.1 |}.

(** The edge that links two characters at the start. *)
Definition first_link (a b : string) (now : Z) : Relationship :=
  {| rel_sourceId := a; rel_targetId := b;
     trust := clamp 0 (-1) 1; intimacy := clamp 0.1 0 1;
     interactions := 1; lastInteractionTurn := now |}.

(** The ordered pairs of different ids, in the order of the two loops. *)
Definition ordered_pairs (ids : list string) : list (string * string) :=
  a ← ids; (fun b => (a, b)) <$> filter (fun b => a <> b) ids.

(** ** Meanings *)

(** The logs that carry a tag, in order. *)
Definition tagged (t : ActionTag) (logs : list ActionLog) : list ActionLog :=
  filter (fun l => has_tag t l = true) logs.

(** A meaning of the given type and intensity whose only source is the
    log. *)
Definition interprets (type : string) (value : Q) (l : ActionLog)
    (m : MeaningEvent) : Prop :=
  sourceLogIds m = [log_id l] /\ meaning_type m = type /\ intensity m = value.

(** ** Communities *)

(** The ids that the adjacency lists of the nodes not yet visited hold:
    a bound of the pushes to come. *)
Definition pending (graph : SocialGraphState) (visited : gset string) : nat :=
  sum_list_with
    (fun e => if bool_decide (e.1 ∈ visited) then 0%nat else degree e.2)
    (map_to_list (nodes graph)).

(** Every community is one of the first [counter] names. *)
Definition names_below (counter : nat) (communities : gmap string string)
    : Prop :=
  forall id name,
    communities !! id = Some name ->
    exists k, (k < counter)%nat /\ name = community_name k.

(** Three characters: ["a"] trusts ["b"], ["c"] stands alone. *)
Definition three_graph : SocialGraphState :=
  addCharacterNode sample_graph "c".

(** An edge of positive trust in an adjacency list of [x] leads to [y]: the
    [while] loop pushes [y] when it takes [x] from the queue, unless [y] is
    visited. *)
Definition joined (graph : SocialGraphState) (x y : string) : Prop :=
  exists node relId rel,
    nodes graph !! x = Some node /\
    relId ∈ outgoingRelations node ++ incomingRelations node /\
    relationships graph !! relId = Some rel /\
    0 < trust rel /\
    y = if String.eqb (rel_sourceId rel) x
        then rel_targetId rel else rel_sourceId rel.

(** Every such edge is listed at both of its ends. *)
Definition ties_mutual (graph : SocialGraphState) : Prop :=
  forall x y, joined graph x y -> joined graph y x.

(** The visited ids are closed under these edges, and the two ends of an
    edge have the same community. *)
Definition settled (graph : SocialGraphState) (visited : gset string)
    (communities : gmap string string) : Prop :=
  forall x y,
    x ∈ visited -> joined graph x y ->
    y ∈ visited /\ communities !! y = communities !! x.

(** ["a"] is close to ["b"], whom it distrusts, and less close to ["c"],
    whom it trusts. *)
Definition torn_graph : SocialGraphState :=
  upsertRelationship
    (upsertRelationship
       (addCharacterNode
          (addCharacterNode (addCharacterNode createEmptySocialGraph "a") "b")
          "c")
       "a" "b" {| delta_trust := Some (-0.8); delta_intimacy := Some 0.6 |} 1)
    "a" "c" {| delta_trust := Some 0.9; delta_intimacy := Some 0.5 |} 1.
End Vocabulary.

(** * Properties *)

(** ** The [Math] helpers *)

Section MathFacts.
Local Open Scope Q_scope.

Lemma Qlt_bool_iff (x y : Q) : Qlt_bool x y = true <-> x < y.
Proof.
  unfold Qlt_bool. rewrite negb_true_iff.
  destruct (Qle_bool y x) eqn:E.
  - apply Qle_bool_iff in E. split; [discriminate | intros; lra].
  - split; [intros _ | reflexivity].
    apply Qnot_le_lt. intros H. apply Qle_bool_iff in H. congruence.
Qed.

Lemma Qlt_bool_false_iff (x y : Q) : Qlt_bool x y = false <-> y <= x.
Proof.
  destruct (Qlt_bool x y) eqn:E.
  - apply Qlt_bool_iff in E. split; [discriminate | intros; lra].
  - split; [intros _ | reflexivity].
    apply Qnot_lt_le. intros H. apply Qlt_bool_iff in H. congruence.
Qed.

Lemma Math_max_cases (a b : Q) :
  (a <= b /\ Math_max a b = b) \/ (b < a /\ Math_max a b = a).
Proof.
  unfold Math_max. destruct (Qle_bool a b) eqn:E.
  - left. split; [by apply Qle_bool_iff | done].
  - right. split; [| done].
    apply Qnot_le_lt. intros H. apply Qle_bool_iff in H. congruence.
Qed.

Lemma Math_min_cases (a b : Q) :
  (a <= b /\ Math_min a b = a) \/ (b < a /\ Math_min a b = b).
Proof.
  unfold Math_min. destruct (Qle_bool a b) eqn:E.
  - left. split; [by apply Qle_bool_iff | done].
  - right. split; [| done].
    apply Qnot_le_lt. intros H. apply Qle_bool_iff in H. congruence.
Qed.

(** A value inside the interval is returned as it is (up to [==]: at the
    upper end the bound itself is returned). *)
Lemma clamp_inside (v lo hi : Q) : lo <= v <= hi -> clamp v lo hi == v.
Proof.
  intros [Hlo Hhi]. unfold clamp.
  destruct (Math_min_cases hi v) as [[H1 ->] | [H1 ->]];
    destruct (Math_max_cases lo hi) as [[H2 E2] | [H2 E2]];
    destruct (Math_max_cases lo v) as [[H3 E3] | [H3 E3]];
    rewrite ?E2, ?E3; lra.
Qed.

Lemma clamp_range (v lo hi : Q) : lo <= hi -> lo <= clamp v lo hi <= hi.
Proof.
  intros Hle. unfold clamp.
  destruct (Math_min_cases hi v) as [[H1 ->] | [H1 ->]];
    destruct (Math_max_cases lo hi) as [[H2 E2] | [H2 E2]];
    destruct (Math_max_cases lo v) as [[H3 E3] | [H3 E3]];
    rewrite ?E2, ?E3; lra.
Qed.

(** Below the interval the lower bound is returned. *)
Lemma clamp_below (v lo hi : Q) : v < lo -> lo <= hi -> clamp v lo hi = lo.
Proof.
  intros Hv Hle. unfold clamp.
  destruct (Math_min_cases hi v) as [[H1 ->] | [H1 ->]];
    destruct (Math_max_cases lo hi) as [[H2 E2] | [H2 E2]];
    destruct (Math_max_cases lo v) as [[H3 E3] | [H3 E3]];
    rewrite ?E2, ?E3; try reflexivity; lra.
Qed.

(** [clamp] respects the equality of rationals. *)
Lemma clamp_compat (v v' lo hi : Q) :
  v == v' -> clamp v lo hi == clamp v' lo hi.
Proof.
  intros Hv. unfold clamp.
  destruct (Math_min_cases hi v) as [[H1 ->] | [H1 ->]];
    destruct (Math_min_cases hi v') as [[H1' ->] | [H1' ->]];
    destruct (Math_max_cases lo hi) as [[H2 E2] | [H2 E2]];
    destruct (Math_max_cases lo v) as [[H3 E3] | [H3 E3]];
    destruct (Math_max_cases lo v') as [[H3' E3'] | [H3' E3']];
    rewrite ?E2, ?E3, ?E3'; lra.
Qed.

(** A factor in [(0, 1]] raised to a non-negative power stays in [(0, 1]]. *)
Lemma Qpower_unit_interval (q : Q) (z : Z) :
  0 < q -> q <= 1 -> (0 <= z)%Z -> 0 < q ^ z /\ q ^ z <= 1.
Proof.
  intros Hq0 Hq1 Hz. split; [by apply Qpower_0_lt |].
  revert z Hz. apply natlike_ind.
  - simpl. lra.
  - intros z Hz IH. unfold Z.succ.
    rewrite Qpower_plus by lra. rewrite Qpower_1_r.
    assert (0 < q ^ z) by (by apply Qpower_0_lt). nra.
Qed.

End MathFacts.

(** ** modules/beliefSystem.ts *)

Section BeliefFacts.
Import PrimFloat.
Local Open Scope Q_scope.
#[local] Set Warnings "-inexact-float".

(** The evidence term [P(E)] of [bayesianUpdate]. *)
Let evidence (prior likelihoodTrue likelihoodFalse : Q) : Q :=
  likelihoodTrue * prior + likelihoodFalse * (1 - prior).

Lemma bayesianUpdate_zero_evidence (prior lt lf : Q) :
  evidence prior lt lf == 0 -> bayesianUpdate prior lt lf = prior.
Proof.
  intros H. unfold bayesianUpdate. fold (evidence prior lt lf).
  apply Qeq_bool_iff in H. by rewrite H.
Qed.

Lemma bayesianUpdate_clamped (prior lt lf : Q) :
  ~ evidence prior lt lf == 0 ->
  bayesianUpdate prior lt lf = clamp (lt * prior / evidence prior lt lf) 0 1.
Proof.
  intros H. unfold bayesianUpdate. fold (evidence prior lt lf).
  destruct (Qeq_bool (evidence prior lt lf) 0) eqn:E; [| done].
  apply Qeq_bool_iff in E. contradiction.
Qed.

(** On probabilities Bayes' posterior lies in [[0, 1]]. *)
Lemma posterior_in_unit (prior lt lf : Q) :
  0 <= prior <= 1 -> 0 <= lt -> 0 <= lf -> ~ evidence prior lt lf == 0 ->
  0 <= lt * prior / evidence prior lt lf <= 1.
Proof.
  intros [Hp0 Hp1] Hlt Hlf Hev.
  assert (Ha : 0 <= lt * prior) by nra.
  assert (Hb : 0 <= lf * (1 - prior)) by nra.
  assert (Hpos : 0 < evidence prior lt lf) by (unfold evidence in *; lra).
  split.
  - apply Qle_shift_div_l; [done | lra].
  - apply Qle_shift_div_r; [done | unfold evidence; lra].
Qed.

(** The claim as it was stated fails twice: with equal likelihoods 0.3 the
    prior 0.1 comes back as 0.09999999999999998, the double below 0.1; and
    on the likelihoods 3 and -2 the result is 1, where the quotient of the
    claim is 3. *)
Lemma bayesianUpdate_rounds_and_clamps :
  Binary64.bayesianUpdate 0.1 0.3 0.3 = 0.09999999999999998%float /\
  Binary64.bayesianUpdate 0.1 0.3 0.3 <> 0.1%float /\
  bayesianUpdate 0.5 3 (-2) == 1 /\
  3 * 0.5 / (3 * 0.5 + -2 * (1 - 0.5)) == 3 /\
  Binary64.bayesianUpdate 0.5 3 (-2) = 1%float.
Proof.
  split; [reflexivity |]. split; [| repeat split].
  intros H.
  apply (f_equal (fun x => PrimFloat.eqb x 0.1%float)) in H.
  vm_compute in H. discriminate.
Qed.

(** C2. [bayesianUpdate] returns the prior as it is when the evidence term
    [likelihoodTrue * prior + likelihoodFalse * (1 - prior)] is exactly
    zero, which is the case of two likelihoods 0; otherwise it returns
    Bayes' quotient [likelihoodTrue * prior / evidence] clamped to
    [[0, 1]], and on a prior in [[0, 1]] and non-negative likelihoods the
    clamp leaves the quotient as it is.  The guard and the clamped quotient
    are those of the doubles too, with the evidence and the quotient as the
    doubles compute them.  [bayesianUpdate(0.5, 0.8, 0.2)] is [0.8], in
    doubles as well.  With equal likelihoods and an evidence other than
    zero the result is therefore the clamped quotient as the code computes
    it, which rounding can move off the prior: in doubles
    [bayesianUpdate(0.1, 0.3, 0.3)] is [0.09999999999999998]. *)
Theorem bayesianUpdate_posterior :
  (forall prior lt lf : Q,
      lt * prior + lf * (1 - prior) == 0 ->
      bayesianUpdate prior lt lf = prior) /\
  (forall prior : Q, bayesianUpdate prior 0 0 = prior) /\
  (forall prior lt lf : Q,
      ~ lt * prior + lf * (1 - prior) == 0 ->
      bayesianUpdate prior lt lf
      = clamp (lt * prior / (lt * prior + lf * (1 - prior))) 0 1) /\
  (forall prior lt lf : Q,
      0 <= prior <= 1 -> 0 <= lt -> 0 <= lf ->
      ~ lt * prior + lf * (1 - prior) == 0 ->
      bayesianUpdate prior lt lf
      == lt * prior / (lt * prior + lf * (1 - prior))) /\
  bayesianUpdate 0.5 0.8 0.2 == 0.8 /\
  (forall prior lt lf : float,
      (lt * prior + lf * (1 - prior) =? 0)%float = true ->
      Binary64.bayesianUpdate prior lt lf = prior) /\
  (forall prior lt lf : float,
      (lt * prior + lf * (1 - prior) =? 0)%float = false ->
      Binary64.bayesianUpdate prior lt lf
      = Binary64.clamp (lt * prior / (lt * prior + lf * (1 - prior)))%float
                       0 1) /\
  Binary64.bayesianUpdate 0.5 0.8 0.2 = 0.8%float /\
  Binary64.bayesianUpdate 0.1 0.3 0.3 = 0.09999999999999998%float /\
  Binary64.bayesianUpdate 0.1 0 0 = 0.1%float.
Proof.
  split; [| split; [| split; [| split; [| split; [| split; [| split]]]]]].
  - intros prior lt lf Hev. by apply bayesianUpdate_zero_evidence.
  - intros prior. apply bayesianUpdate_zero_evidence. unfold evidence. ring.
  - intros prior lt lf Hev. by apply bayesianUpdate_clamped.
  - intros prior lt lf Hp Hlt Hlf Hev.
    rewrite bayesianUpdate_clamped by exact Hev.
    apply clamp_inside. by apply posterior_in_unit.
  - reflexivity.
  - intros prior lt lf Hev. unfold Binary64.bayesianUpdate. by rewrite Hev.
  - intros prior lt lf Hev. unfold Binary64.bayesianUpdate. by rewrite Hev.
  - repeat split.
Qed.

Lemma bayesianUpdate_posterior_witness :
  bayesianUpdate (1 # 4) (1 # 2) (1 # 4)
  == (1 # 2) * (1 # 4) / ((1 # 2) * (1 # 4) + (1 # 4) * (1 - (1 # 4))) /\
  bayesianUpdate 0.5 3 (-2)
  = clamp (3 * 0.5 / (3 * 0.5 + -2 * (1 - 0.5))) 0 1 /\
  bayesianUpdate 0 1 0 = 0.
Proof.
  destruct bayesianUpdate_posterior as (Hzero & _ & Hclamp & Hgen & _).
  split; [| split].
  - apply Hgen; [split | | |]; try (intros H; vm_compute in H); discriminate.
  - apply Hclamp. intros H. vm_compute in H. discriminate.
  - apply Hzero. reflexivity.
Defined.

Lemma calculateObservability_unfold event context :
  calculateObservability event context
  = clamp (visibility event * locationFactor event context
           * attentionLevel context) 0 1.
Proof.
  unfold calculateObservability, locationFactor.
  destruct (String.eqb_spec (location event) (observerLocation context)) as [E | E].
  - rewrite bool_decide_eq_true_2; [done | congruence].
  - rewrite bool_decide_eq_false_2; [done | congruence].
Qed.

(** C9. An event whose observability
    [visibility * locationFactor * attention] is below [0.5] is not observed,
    and [updateBeliefFromEvent] returns the belief state it was given. *)
Theorem updateBeliefFromEvent_unobserved
    (state : BeliefState) (event : WorldEvent) (context : ObservationContext)
    (impacts : list PropositionImpact) :
  visibility event * locationFactor event context * attentionLevel context
  < 0.5 ->
  isEventObserved event context DEFAULT_THRESHOLD = false /\
  updateBeliefFromEvent state event context impacts = state.
Proof.
  intros Hlow.
  assert (Hobs : isEventObserved event context DEFAULT_THRESHOLD = false).
  { unfold isEventObserved. rewrite calculateObservability_unfold.
    set (o := visibility event * locationFactor event context
              * attentionLevel context) in *.
    destruct (Qle_bool DEFAULT_THRESHOLD (clamp o 0 1)) eqn:E; [| done].
    apply Qle_bool_iff in E. unfold DEFAULT_THRESHOLD in E.
    destruct (Qlt_le_dec o 0) as [Hneg | Hnn].
    - rewrite clamp_below in E; lra.
    - rewrite clamp_inside in E; lra. }
  split; [exact Hobs |].
  unfold updateBeliefFromEvent. by rewrite Hobs.
Qed.

Lemma updateBeliefFromEvent_unobserved_witness :
  isEventObserved sample_event far_observer DEFAULT_THRESHOLD = false /\
  updateBeliefFromEvent sample_belief_state sample_event far_observer
    [ {| impact_proposition := "the king is good";
         likelihoodIfTrue := 0.2; likelihoodIfFalse := 0.8 |} ]
  = sample_belief_state.
Proof.
  apply updateBeliefFromEvent_unobserved. reflexivity.
Defined.

(** The same event seen from its own location is observed, and the belief
    moves from 0.7 to 91/202. *)
Example updateBeliefFromEvent_observed :
  isEventObserved sample_event near_observer DEFAULT_THRESHOLD = true /\
  (fun b => Qred (confidence b))
    <$> beliefs
          (updateBeliefFromEvent sample_belief_state sample_event
             near_observer
             [ {| impact_proposition := "the king is good";
                  likelihoodIfTrue := 0.2; likelihoodIfFalse := 0.8 |} ])
        !! "the king is good"
  = Some (91 # 202).
Proof. split; vm_compute; reflexivity. Qed.

End BeliefFacts.

(** ** Loops over the entries of a map *)

Section MapLoops.
Context {K : Type} `{Countable K} {V W : Type}.

(** A loop that stores [f k v] under [k] for each entry [(k, v)] of a list
    without repeated keys. *)
Lemma foldl_set_entries (g : gmap K W -> K * V -> gmap K W) (f : K -> V -> W)
    (l : list (K * V)) (m : gmap K W) (k : K) :
  (forall acc k v, g acc (k, v) = <[k := f k v]> acc) ->
  NoDup l.*1 ->
  foldl g m l !! k
  = match (list_to_map l : gmap K V) !! k with
    | Some v => Some (f k v)
    | None => m !! k
    end.
Proof.
  intros Hg. revert m. induction l as [| [k0 v0] l IH]; intros m Hnd.
  - simpl. by rewrite lookup_empty.
  - simpl in *. apply NoDup_cons in Hnd as [Hk0 Hnd].
    rewrite IH by exact Hnd. rewrite Hg.
    destruct (decide (k0 = k)) as [-> | Hne].
    + rewrite lookup_insert_eq.
      rewrite (not_elem_of_list_to_map_1 l k) by exact Hk0.
      by rewrite lookup_insert_eq.
    + rewrite (lookup_insert_ne (list_to_map l)) by exact Hne.
      destruct (list_to_map l !! k); [done |].
      by rewrite lookup_insert_ne.
Qed.

(** The same loop over the entries of a map. *)
Lemma foldl_set_map_entries (g : gmap K W -> K * V -> gmap K W)
    (f : K -> V -> W) (m0 : gmap K V) (m : gmap K W) (k : K) :
  (forall acc k v, g acc (k, v) = <[k := f k v]> acc) ->
  foldl g m (map_to_list m0) !! k
  = match m0 !! k with
    | Some v => Some (f k v)
    | None => m !! k
    end.
Proof.
  intros Hg.
  rewrite (foldl_set_entries g f) by (done || apply NoDup_fst_map_to_list).
  by rewrite list_to_map_to_list.
Qed.

End MapLoops.

(** ** core/chronicle-pressure.ts: echoes and pressure *)

Section EchoFacts.
Local Open Scope Q_scope.

Lemma echo_loop_amplify (echo : Echo) (pressure : gmap string Q) :
  foldl (echo_body echo) pressure (map_to_list pressure)
  = amplify (tone echo) pressure.
Proof.
  apply map_eq. intros type.
  rewrite (foldl_set_map_entries (echo_body echo)
             (fun type p =>
                p + p * TONE_FACTOR (tone echo) * sensitivity type * 0.1))
    by done.
  unfold amplify. rewrite map_lookup_imap.
  by destruct (pressure !! type).
Qed.

Lemma amplify_lookup (t : Tone) (pressure : gmap string Q) (type : string) :
  amplify t pressure !! type
  = (fun p => p + p * TONE_FACTOR t * sensitivity type * 0.1)
      <$> pressure !! type.
Proof.
  unfold amplify. rewrite map_lookup_imap. by destruct (pressure !! type).
Qed.

Lemma amplify_all_dom (l : list Echo) (pressure : gmap string Q) :
  dom (foldl (fun p e => amplify (tone e) p) pressure l) = dom pressure.
Proof.
  revert pressure. induction l as [| e l IH]; intros pressure; [done |].
  simpl. rewrite IH. apply set_eq. intros type.
  rewrite !elem_of_dom, amplify_lookup.
  destruct (pressure !! type); simpl; split; intros [? ?]; eauto; done.
Qed.

Lemma sensitivity_unmapped (type : string) :
  type <> "FEAR"%string -> type <> "TRUST"%string ->
  type <> "RESPECT"%string ->
  sensitivity type = 0.7.
Proof.
  intros H1 H2 H3. unfold sensitivity, DECAY_SENSITIVITY.
  destruct (String.eqb_spec type "FEAR"); [done |].
  destruct (String.eqb_spec type "TRUST"); [done |].
  destruct (String.eqb_spec type "RESPECT"); done.
Qed.

(** C3. [applyEchoToPressure] applies, for each echo of the world in turn,
    the amplification of every pressure entry [p] of type [type] to
    [p + p * toneFactor(tone) * sensitivity(type) * 0.1]; the echoes compound,
    one amplification per echo; the tone factors are 0.6, 1.0 and 0.3, the
    sensitivities 0.8, 0.6 and 0.5 with 0.7 for any other type; the set of
    pressure entries is the one of the input, and no other field of the
    world changes. *)
Theorem applyEchoToPressure_amplifies (world : ExtendedWorldState) :
  meaningPressure (applyEchoToPressure world)
  = foldl (fun p e => amplify (tone e) p)
          (meaningPressure world) (echoes world) /\
  (forall (t : Tone) (pressure : gmap string Q) (type : string),
      amplify t pressure !! type
      = (fun p => p + p * TONE_FACTOR t * sensitivity type * 0.1)
          <$> pressure !! type) /\
  (forall (e : Echo) (type : string),
      echoes world = [e] ->
      meaningPressure (applyEchoToPressure world) !! type
      = (fun p => p + p * TONE_FACTOR (tone e) * sensitivity type * 0.1)
          <$> meaningPressure world !! type) /\
  (forall type : string,
      meaningPressure (applyEchoToPressure world) !! type = None
      <-> meaningPressure world !! type = None) /\
  (TONE_FACTOR positive = 0.6 /\ TONE_FACTOR negative = 1.0 /\
   TONE_FACTOR ambiguous = 0.3) /\
  (sensitivity "FEAR" = 0.8 /\ sensitivity "TRUST" = 0.6 /\
   sensitivity "RESPECT" = 0.5 /\
   forall type : string,
     type <> "FEAR"%string -> type <> "TRUST"%string ->
     type <> "RESPECT"%string -> sensitivity type = 0.7) /\
  applyEchoToPressure world
  = with_meaningPressure world (meaningPressure (applyEchoToPressure world)).
Proof.
  assert (Hfold : meaningPressure (applyEchoToPressure world)
                  = foldl (fun p e => amplify (tone e) p)
                          (meaningPressure world) (echoes world)).
  { unfold applyEchoToPressure. simpl.
    generalize (meaningPressure world) as pressure.
    induction (echoes world) as [| e l IH]; intros pressure; [done |].
    simpl. rewrite echo_loop_amplify. apply IH. }
  split; [exact Hfold |].
  split; [apply amplify_lookup |].
  split; [intros e type He; rewrite Hfold, He; apply amplify_lookup |].
  split.
  { intros type. rewrite <- !not_elem_of_dom.
    by rewrite Hfold, amplify_all_dom. }
  split; [done |].
  split; [repeat split; try done; apply sensitivity_unmapped |].
  done.
Qed.

Lemma applyEchoToPressure_amplifies_witness :
  sensitivity "JOY" = 0.7 /\
  meaningPressure (applyEchoToPressure (echoing_world [dread_echo])) !! "FEAR"
  = Some (1 + 1 * 1.0 * 0.8 * 0.1).
Proof.
  pose proof (applyEchoToPressure_amplifies (echoing_world [dread_echo]))
    as (_ & _ & Hone & _ & _ & (_ & _ & _ & Hother) & _).
  split.
  - apply Hother; discriminate.
  - apply (Hone dread_echo "FEAR"%string). reflexivity.
Defined.

(** Two echoes compound: FEAR goes from 1 to 1.08 and then to
    1.08 * 1.048; JOY, with the default sensitivity, from 2 to 2.14 and
    then to 2.14 * 1.042. *)
Example applyEchoToPressure_compounds :
  Qred <$> meaningPressure
             (applyEchoToPressure (echoing_world [dread_echo; relief_echo]))
  = {[ "FEAR"%string := Qred (1 * 1.08 * 1.048);
       "JOY"%string := Qred (2 * 1.07 * 1.042) ]}.
Proof. vm_compute. reflexivity. Qed.

End EchoFacts.

(** ** modules/socialGraph.ts: relationships *)

Section RelationshipFacts.
Local Open Scope Q_scope.

Lemma decayRelationships_fmap (graph : SocialGraphState) (currentTurn : Z) :
  relationships (decayRelationships graph currentTurn)
  = decay_relationship currentTurn <$> relationships graph.
Proof.
  unfold decayRelationships. simpl. apply map_eq. intros id.
  rewrite (foldl_set_map_entries _ (fun _ => decay_relationship currentTurn)).
  - rewrite lookup_fmap. by destruct (relationships graph !! id).
  - by intros acc k v.
Qed.

(** The ranges hold of every graph built with the functions of the
    module. *)
Lemma createEmptySocialGraph_in_range : graph_in_range createEmptySocialGraph.
Proof. intros id rel. simpl. by rewrite lookup_empty. Qed.

Lemma addCharacterNode_in_range graph characterId :
  graph_in_range graph -> graph_in_range (addCharacterNode graph characterId).
Proof.
  intros Hg id rel. unfold addCharacterNode.
  destruct (nodes graph !! characterId); apply Hg.
Qed.

Lemma upsertRelationship_in_range graph sourceId targetId delta currentTurn :
  graph_in_range graph ->
  graph_in_range (upsertRelationship graph sourceId targetId delta currentTurn).
Proof.
  intros Hg id rel. unfold upsertRelationship. simpl.
  destruct (decide (createRelationshipId sourceId targetId = id)) as [<- | Hne].
  - rewrite lookup_insert_eq. intros [= <-].
    destruct (relationships graph !! createRelationshipId sourceId targetId);
      split; simpl; apply clamp_range; lra.
  - rewrite lookup_insert_ne by exact Hne. apply Hg.
Qed.

Lemma decayRelationships_in_range graph currentTurn :
  graph_in_range (decayRelationships graph currentTurn).
Proof.
  intros id rel. rewrite decayRelationships_fmap, lookup_fmap.
  destruct (relationships graph !! id) as [r |]; [| done].
  intros [= <-]. split; simpl; apply clamp_range; lra.
Qed.

(** C8. For an edge within the ranges of the data model and a current turn
    not before its last interaction, [decayRelationships] sets
    [trust' = trust * (1 - 0.02)^dt] and
    [intimacy' = intimacy * (1 - 0.01)^dt] with
    [dt = currentTurn - lastInteractionTurn]; the sign of the trust is kept,
    its magnitude does not grow, and the intimacy does not grow. *)
Theorem decayRelationships_exponential
    (graph : SocialGraphState) (currentTurn : Z)
    (id : string) (rel : Relationship) :
  relationships graph !! id = Some rel ->
  relationship_in_range rel ->
  (lastInteractionTurn rel <= currentTurn)%Z ->
  exists rel',
    relationships (decayRelationships graph currentTurn) !! id = Some rel' /\
    trust rel'
    == trust rel * (1 - 0.02) ^ (currentTurn - lastInteractionTurn rel) /\
    intimacy rel'
    == intimacy rel * (1 - 0.01) ^ (currentTurn - lastInteractionTurn rel) /\
    (0 < trust rel -> 0 < trust rel') /\
    (trust rel < 0 -> trust rel' < 0) /\
    (trust rel == 0 -> trust rel' == 0) /\
    Qabs (trust rel') <= Qabs (trust rel) /\
    0 <= intimacy rel' <= intimacy rel /\
    rel_sourceId rel' = rel_sourceId rel /\
    rel_targetId rel' = rel_targetId rel /\
    interactions rel' = interactions rel /\
    lastInteractionTurn rel' = lastInteractionTurn rel.
Proof.
  intros Hrel [[Ht0 Ht1] [Hi0 Hi1]] Hturn.
  exists (decay_relationship currentTurn rel).
  split; [by rewrite decayRelationships_fmap, lookup_fmap, Hrel |].
  set (dt := (currentTurn - lastInteractionTurn rel)%Z).
  assert (Hdt : (0 <= dt)%Z) by (unfold dt; lia).
  destruct (Qpower_unit_interval (1 - 0.02) dt) as [Hft0 Hft1];
    [lra | lra | done |].
  destruct (Qpower_unit_interval (1 - 0.01) dt) as [Hfi0 Hfi1];
    [lra | lra | done |].
  assert (Htrust : trust (decay_relationship currentTurn rel)
                   == trust rel * (1 - 0.02) ^ dt).
  { simpl. unfold Math_pow, TRUST_DECAY_RATE. fold dt.
    apply clamp_inside. nra. }
  assert (Hint : intimacy (decay_relationship currentTurn rel)
                 == intimacy rel * (1 - 0.01) ^ dt).
  { simpl. unfold Math_pow, INTIMACY_DECAY_RATE. fold dt.
    apply clamp_inside. nra. }
  split; [exact Htrust |]. split; [exact Hint |].
  repeat split; try done.
  - intros Hpos. rewrite Htrust. nra.
  - intros Hneg. rewrite Htrust. nra.
  - intros Hzero. rewrite Htrust, Hzero. ring.
  - rewrite Htrust, Qabs_Qmult.
    rewrite (Qabs_pos ((1 - 0.02) ^ dt)) by lra.
    pose proof (Qabs_nonneg (trust rel)). nra.
  - rewrite Hint. nra.
  - rewrite Hint. nra.
Qed.

End RelationshipFacts.

Section UpsertFacts.
Local Open Scope Q_scope.

Example sample_graph_built :
  upsertRelationship
    (addCharacterNode (addCharacterNode createEmptySocialGraph "b") "a")
    "a" "b" {| delta_trust := Some 0.5; delta_intimacy := Some 0.4 |} 3
  = sample_graph.
Proof. vm_compute. reflexivity. Qed.

Lemma decayRelationships_exponential_witness :
  exists rel',
    relationships (decayRelationships sample_graph 5) !! "a->b" = Some rel' /\
    trust rel' == 0.5 * (1 - 0.02) ^ 2 /\
    intimacy rel' == 0.4 * (1 - 0.01) ^ 2.
Proof.
  destruct (decayRelationships_exponential sample_graph 5 "a->b"
              sample_relationship)
    as (rel' & Hrel' & Htrust & Hint & _).
  - reflexivity.
  - unfold relationship_in_range. simpl. lra.
  - simpl. lia.
  - exists rel'. split; [exact Hrel' |]. split; [exact Htrust | exact Hint].
Defined.

(** An upsert of an existing edge with zero deltas counts as an
    interaction: the count of the sample edge goes from 1 to 2. *)
Lemma upsertRelationship_zero_delta_counts :
  let graph' :=
    upsertRelationship sample_graph "a" "b"
      {| delta_trust := Some 0; delta_intimacy := Some 0 |} 9 in
  getRelationship sample_graph "a" "b" = Some sample_relationship /\
  (interactions <$> getRelationship graph' "a" "b")
  <> Some (interactions sample_relationship).
Proof. split; [reflexivity | vm_compute; discriminate]. Qed.

(** C7, amended.  For an edge of the graph within the ranges of the data
    model, [upsertRelationship] with both deltas zero keeps the trust and the
    intimacy, sets the last-interaction turn to the current turn and adds one
    to the interaction count; every other relationship is unchanged, and so
    are the nodes when the end points that exist already list the edge. *)
Theorem upsertRelationship_zero_delta
    (graph : SocialGraphState) (sourceId targetId : string) (delta : Delta)
    (currentTurn : Z) (rel : Relationship) :
  getRelationship graph sourceId targetId = Some rel ->
  relationship_in_range rel ->
  zero_delta delta ->
  let relationId := createRelationshipId sourceId targetId in
  let graph' :=
    upsertRelationship graph sourceId targetId delta currentTurn in
  exists rel',
    relationships graph' = <[relationId := rel']> (relationships graph) /\
    trust rel' == trust rel /\
    intimacy rel' == intimacy rel /\
    interactions rel' = (interactions rel + 1)%Z /\
    lastInteractionTurn rel' = currentTurn /\
    rel_sourceId rel' = rel_sourceId rel /\
    rel_targetId rel' = rel_targetId rel /\
    (forall id, id <> relationId ->
                relationships graph' !! id = relationships graph !! id) /\
    ((forall node, nodes graph !! sourceId = Some node ->
                   relationId ∈ outgoingRelations node) ->
     (forall node, nodes graph !! targetId = Some node ->
                   relationId ∈ incomingRelations node) ->
     nodes graph' = nodes graph).
Proof.
  intros Hrel [[Ht0 Ht1] [Hi0 Hi1]] [Hdt Hdi] relationId graph'.
  unfold getRelationship in Hrel. fold relationId in Hrel.
  subst graph'. unfold upsertRelationship. fold relationId.
  rewrite Hrel. simpl.
  eexists. split; [reflexivity |]. simpl.
  split; [rewrite (clamp_compat _ (trust rel)) by (rewrite Hdt; ring);
          apply clamp_inside; lra |].
  split; [rewrite (clamp_compat _ (intimacy rel)) by (rewrite Hdi; ring);
          apply clamp_inside; lra |].
  repeat split.
  - intros id Hne. by rewrite lookup_insert_ne.
  - intros Hout Hin.
    destruct (nodes graph !! sourceId) as [sourceNode |] eqn:Hs.
    + unfold includes_id. rewrite bool_decide_eq_true_2 by (by apply Hout).
      simpl. destruct (nodes graph !! targetId) as [targetNode |]; [| done].
      by rewrite bool_decide_eq_true_2 by (by apply Hin).
    + destruct (nodes graph !! targetId) as [targetNode |]; [| done].
      unfold includes_id. by rewrite bool_decide_eq_true_2 by (by apply Hin).
Qed.

Lemma upsertRelationship_zero_delta_witness :
  exists rel',
    relationships
      (upsertRelationship sample_graph "a" "b"
         {| delta_trust := None; delta_intimacy := Some 0 |} 9)
    = <["a->b"%string := rel']> (relationships sample_graph) /\
    trust rel' == 0.5 /\ intimacy rel' == 0.4 /\
    interactions rel' = 2%Z /\ lastInteractionTurn rel' = 9%Z.
Proof.
  destruct (upsertRelationship_zero_delta sample_graph "a" "b"
              {| delta_trust := None; delta_intimacy := Some 0 |} 9
              sample_relationship)
    as (rel' & Hrels & Htrust & Hint & Hcount & Hlast & _).
  - reflexivity.
  - unfold relationship_in_range. simpl. lra.
  - unfold zero_delta. simpl. lra.
  - exists rel'. repeat split; assumption.
Defined.

End UpsertFacts.

(** ** modules/socialGraph.ts: PageRank *)

Section PageRankFacts.
Local Open Scope Q_scope.

(** The running maximum of [node_body] is the largest change, or [0]. *)
Lemma sweep_max_change_list graph n ranks (l : list (string * CharacterNode))
    (newRanks : gmap string Q) (maxDiff : Q) (tol : Q) :
  (foldl (node_body graph n ranks) (newRanks, maxDiff) l).2 < tol
  <-> maxDiff < tol /\
      Forall (fun e => rank_change graph n ranks e.1 e.2 < tol) l.
Proof.
  revert newRanks maxDiff. induction l as [| [nodeId node] l IH];
    intros newRanks maxDiff.
  - simpl. split; [intros ?; split; [done | constructor] | by intros [? _]].
  - cbn [foldl node_body]. rewrite IH, Forall_cons. cbn [fst snd].
    fold (new_rank graph n ranks node).
    fold (rank_change graph n ranks nodeId node).
    destruct (Qlt_bool maxDiff (rank_change graph n ranks nodeId node)) eqn:E.
    + apply Qlt_bool_iff in E. split; intros [? ?]; repeat split; try tauto; lra.
    + apply Qlt_bool_false_iff in E.
      split; [intros [? ?] | intros [? [? ?]]]; repeat split; try tauto; lra.
Qed.

(** The pass has converged exactly when every node changed by less than the
    tolerance. *)
Lemma max_change_below_tolerance graph n ranks :
  max_change graph n ranks < PAGERANK_TOLERANCE
  <-> forall nodeId node,
        nodes graph !! nodeId = Some node ->
        rank_change graph n ranks nodeId node < PAGERANK_TOLERANCE.
Proof.
  unfold max_change, pagerank_sweep. rewrite sweep_max_change_list.
  rewrite Forall_forall. split.
  - intros [_ Hall] nodeId node Hnode.
    apply (Hall (nodeId, node)). by apply elem_of_map_to_list.
  - intros Hall. split; [reflexivity |].
    intros [nodeId node] Hin. apply Hall. by apply elem_of_map_to_list.
Qed.

(** The loop runs its body until a pass changes no rank by the tolerance or
    more, and at most [remaining] times. *)
Lemma pagerank_loop_stops graph n (remaining : nat) (ranks : gmap string Q) :
  let result := pagerank_loop graph n remaining ranks in
  (exists j : nat,
      (j < remaining)%nat /\ result.2 = S j /\
      (forall i, (i < j)%nat ->
         PAGERANK_TOLERANCE
         <= max_change graph n (ranks_after graph n ranks i)) /\
      max_change graph n (ranks_after graph n ranks j) < PAGERANK_TOLERANCE /\
      result.1 = ranks_after graph n ranks j) \/
  (result.2 = remaining /\
   (forall i, (i < remaining)%nat ->
      PAGERANK_TOLERANCE
      <= max_change graph n (ranks_after graph n ranks i)) /\
   result.1 = ranks_after graph n ranks remaining).
Proof.
  revert ranks. induction remaining as [| remaining IH]; intros ranks.
  - right. simpl. repeat split. intros i Hi. lia.
  - cbn [pagerank_loop].
    destruct (pagerank_sweep graph n ranks) as [newRanks maxDiff] eqn:Hsweep.
    assert (Hmax : max_change graph n ranks = maxDiff)
      by (unfold max_change; by rewrite Hsweep).
    assert (Hstep : pagerank_step graph n ranks = commit_ranks ranks newRanks)
      by (unfold pagerank_step; by rewrite Hsweep).
    destruct (Qlt_bool maxDiff PAGERANK_TOLERANCE) eqn:E.
    + apply Qlt_bool_iff in E. left. exists 0%nat. cbn.
      repeat split; [lia | intros i Hi; lia | by rewrite Hmax].
    + apply Qlt_bool_false_iff in E. rewrite <- Hstep.
      specialize (IH (pagerank_step graph n ranks)).
      destruct (pagerank_loop graph n remaining (pagerank_step graph n ranks))
        as [ranks' runs].
      cbn [fst snd] in *.
      destruct IH as [(j & Hj & Hruns & Hbefore & Hconv & Hres)
                     | (Hruns & Hbefore & Hres)].
      * left. exists (S j). repeat split; [lia | by rewrite Hruns | | done | done].
        intros [| i] Hi; [by rewrite <- Hmax in E |].
        apply Hbefore. lia.
      * right. repeat split; [by rewrite Hruns | | done].
        intros [| i] Hi; [by rewrite <- Hmax in E |].
        apply Hbefore. lia.
Qed.

End PageRankFacts.

Section PageRankCases.
Local Open Scope Q_scope.

Lemma incoming_body_no_relationships graph ranks (sum : Q) (relId : string) :
  relationships graph = ∅ -> incoming_body graph ranks sum relId = sum.
Proof. intros H. unfold incoming_body. by rewrite H, lookup_empty. Qed.

Lemma incoming_sum_no_relationships graph ranks (l : list string) (sum : Q) :
  relationships graph = ∅ -> foldl (incoming_body graph ranks) sum l = sum.
Proof.
  intros H. revert sum. induction l as [| relId l IH]; intros sum; [done |].
  simpl. rewrite incoming_body_no_relationships by exact H. apply IH.
Qed.

(** Without relationships every node gets the base rank [(1 - d) / n]. *)
Lemma new_rank_no_relationships graph n ranks node :
  relationships graph = ∅ ->
  new_rank graph n ranks node
  = (1 - PAGERANK_DAMPING) / n + PAGERANK_DAMPING * 0.
Proof.
  intros H. unfold new_rank. by rewrite incoming_sum_no_relationships.
Qed.

Lemma pagerank_sweep_single graph n ranks nodeId node :
  nodes graph = {[ nodeId := node ]} ->
  pagerank_sweep graph n ranks
  = (<[nodeId := new_rank graph n ranks node]> ∅,
     if Qlt_bool 0 (rank_change graph n ranks nodeId node)
     then rank_change graph n ranks nodeId node else 0).
Proof.
  intros H. unfold pagerank_sweep. rewrite H, map_to_list_singleton.
  reflexivity.
Qed.

Lemma commit_ranks_single ranks nodeId (rank : Q) :
  commit_ranks ranks (<[nodeId := rank]> ∅) = <[nodeId := rank]> ranks.
Proof.
  unfold commit_ranks. by rewrite insert_empty, map_to_list_singleton.
Qed.

Lemma pagerank_loop_S graph n remaining ranks :
  pagerank_loop graph n (S remaining) ranks
  = let '(newRanks, maxDiff) := pagerank_sweep graph n ranks in
    if Qlt_bool maxDiff PAGERANK_TOLERANCE then (ranks, 1%nat)
    else
      let '(ranks', runs) :=
        pagerank_loop graph n remaining (commit_ranks ranks newRanks) in
      (ranks', S runs).
Proof. reflexivity. Qed.

(** A single node without relationships: the first pass moves the rank from
    [1] to the base rank, the second pass changes nothing and the loop
    stops. *)
Lemma calculatePageRank_trace_single graph nodeId node :
  nodes graph = {[ nodeId := node ]} ->
  relationships graph = ∅ ->
  calculatePageRank_trace graph
  = ({[ nodeId := (1 - PAGERANK_DAMPING) / 1 + PAGERANK_DAMPING * 0 ]}, 2%nat).
Proof.
  intros Hnodes Hrels. unfold calculatePageRank_trace.
  rewrite Hnodes, map_to_list_singleton. cbn [fmap list_fmap fst length Nat.eqb].
  change (inject_Z (Z.of_nat 1)) with 1.
  change PAGERANK_ITERATIONS with (S (S 18)).
  unfold initial_ranks. cbn [foldl].
  rewrite pagerank_loop_S, (pagerank_sweep_single _ _ _ _ _ Hnodes).
  unfold rank_change.
  rewrite new_rank_no_relationships by exact Hrels.
  rewrite lookup_insert_eq. cbn [nullish].
  match goal with
  | |- (if ?c then _ else _) = _ => replace c with false by reflexivity
  end.
  rewrite commit_ranks_single, insert_insert_eq.
  rewrite pagerank_loop_S, (pagerank_sweep_single _ _ _ _ _ Hnodes).
  unfold rank_change.
  rewrite new_rank_no_relationships by exact Hrels.
  rewrite lookup_insert_eq. cbn [nullish].
  match goal with
  | |- (let '(_, _) := (if ?c then _ else _) in _) = _ =>
      replace c with true by reflexivity
  end.
  by rewrite insert_empty.
Qed.

Lemma calculatePageRank_trace_empty graph :
  nodes graph = ∅ -> calculatePageRank_trace graph = (∅, 0%nat).
Proof.
  intros H. unfold calculatePageRank_trace. by rewrite H, map_to_list_empty.
Qed.

Lemma nodes_count_positive graph :
  nodes graph <> ∅ -> (length (map_to_list (nodes graph)).*1 =? 0)%nat = false.
Proof.
  intros H. apply Nat.eqb_neq. rewrite length_fmap, length_map_to_list.
  by rewrite map_size_empty_iff.
Qed.

(** *** The same single node in doubles *)

Import PrimFloat.
#[local] Set Warnings "-inexact-float".

Lemma incoming_sum_binary64 (graph : Binary64.SocialGraphState)
    (ranks : gmap string float) (sum : float) (rels : list string) :
  Binary64.relationships graph = ∅ ->
  foldl (Binary64.incoming_body graph ranks) sum rels = sum.
Proof.
  intros H. induction rels as [| r rels IH]; [done |].
  cbn [foldl]. unfold Binary64.incoming_body at 2.
  rewrite H, lookup_empty. exact IH.
Qed.

Lemma of_length_one : Binary64.of_length 1 = 1%float.
Proof. vm_compute. reflexivity. Qed.

Lemma pagerank_sweep_binary64_single (graph : Binary64.SocialGraphState)
    (n : float) (ranks : gmap string float) (nodeId : string)
    (node : CharacterNode) :
  Binary64.nodes graph = {[ nodeId := node ]} ->
  Binary64.relationships graph = ∅ ->
  Binary64.pagerank_sweep graph n ranks
  = let newRank :=
      ((1 - Binary64.PAGERANK_DAMPING) / n
       + Binary64.PAGERANK_DAMPING * 0)%float in
    let diff :=
      Binary64.Math_abs (newRank - nullish (ranks !! nodeId) 0)%float in
    (<[nodeId := newRank]> ∅, if (0 <? diff)%float then diff else 0%float).
Proof.
  intros Hnodes Hrels. unfold Binary64.pagerank_sweep.
  rewrite Hnodes, map_to_list_singleton. cbn [foldl].
  unfold Binary64.node_body.
  by rewrite incoming_sum_binary64 by exact Hrels.
Qed.

Lemma pagerank_loop_binary64_S graph n remaining ranks :
  Binary64.pagerank_loop graph n (S remaining) ranks
  = let '(newRanks, maxDiff) := Binary64.pagerank_sweep graph n ranks in
    if (maxDiff <? Binary64.PAGERANK_TOLERANCE)%float then ranks
    else Binary64.pagerank_loop graph n remaining
           (Binary64.commit_ranks ranks newRanks).
Proof. reflexivity. Qed.

Lemma commit_ranks_binary64_single ranks nodeId (rank : float) :
  Binary64.commit_ranks ranks (<[nodeId := rank]> ∅)
  = <[nodeId := rank]> ranks.
Proof.
  unfold Binary64.commit_ranks.
  by rewrite insert_empty, map_to_list_singleton.
Qed.

(** In doubles the first pass moves the rank from [1] to
    [(1 - 0.85) / 1 + 0.85 * 0], which is [0.15000000000000002]; the second
    pass changes nothing and the loop stops. *)
Lemma calculatePageRank_binary64_single
    (graph : Binary64.SocialGraphState) (nodeId : string)
    (node : CharacterNode) :
  Binary64.nodes graph = {[ nodeId := node ]} ->
  Binary64.relationships graph = ∅ ->
  Binary64.calculatePageRank graph
  = {[ nodeId := 0.15000000000000002%float ]}.
Proof.
  intros Hnodes Hrels. unfold Binary64.calculatePageRank.
  rewrite Hnodes, map_to_list_singleton.
  cbn [fmap list_fmap fst length Nat.eqb].
  rewrite of_length_one.
  change Binary64.PAGERANK_ITERATIONS with (S (S 18)).
  unfold Binary64.initial_ranks. cbn [foldl].
  rewrite pagerank_loop_binary64_S.
  rewrite (pagerank_sweep_binary64_single _ _ _ _ _ Hnodes Hrels).
  rewrite lookup_insert_eq. cbn [nullish]. cbv zeta.
  match goal with
  | |- (if ?c then _ else _) = _ =>
      replace c with false by (vm_compute; reflexivity)
  end.
  rewrite commit_ranks_binary64_single, insert_insert_eq.
  rewrite pagerank_loop_binary64_S.
  rewrite (pagerank_sweep_binary64_single _ _ _ _ _ Hnodes Hrels).
  rewrite lookup_insert_eq. cbn [nullish]. cbv zeta.
  match goal with
  | |- (if ?c then _ else _) = _ =>
      replace c with true by (vm_compute; reflexivity)
  end.
  rewrite insert_empty. f_equal.
Qed.

(** In doubles as well the loop runs its body until the test
    [maxDiff < PAGERANK_TOLERANCE] of a pass succeeds, and at most
    [remaining] times; this holds of every graph, also when a rank is
    infinite or not a number. *)
Lemma pagerank_loop_binary64_stops (graph : Binary64.SocialGraphState)
    (n : float) (remaining : nat) (ranks : gmap string float) :
  let result := Binary64.pagerank_loop graph n remaining ranks in
  (exists j : nat,
      (j < remaining)%nat /\
      (forall i, (i < j)%nat ->
         Binary64.converged graph n (Binary64.ranks_after graph n ranks i)
         = false) /\
      Binary64.converged graph n (Binary64.ranks_after graph n ranks j)
      = true /\
      result = Binary64.ranks_after graph n ranks j) \/
  ((forall i, (i < remaining)%nat ->
      Binary64.converged graph n (Binary64.ranks_after graph n ranks i)
      = false) /\
   result = Binary64.ranks_after graph n ranks remaining).
Proof.
  revert ranks. induction remaining as [| remaining IH]; intros ranks.
  - right. simpl. split; [intros i Hi; lia | done].
  - rewrite pagerank_loop_binary64_S.
    assert (Hstep : Binary64.pagerank_step graph n ranks
                    = Binary64.commit_ranks ranks
                        (Binary64.pagerank_sweep graph n ranks).1)
      by reflexivity.
    assert (Hconv : Binary64.converged graph n ranks
                    = ((Binary64.pagerank_sweep graph n ranks).2
                       <? Binary64.PAGERANK_TOLERANCE)%float)
      by reflexivity.
    destruct (Binary64.pagerank_sweep graph n ranks) as [newRanks maxDiff].
    cbn [fst snd] in Hstep, Hconv. cbv zeta.
    destruct (maxDiff <? Binary64.PAGERANK_TOLERANCE)%float.
    + left. exists 0%nat. cbn [Binary64.ranks_after].
      split; [lia |]. split; [intros i Hi; lia |]. by split.
    + rewrite <- Hstep.
      destruct (IH (Binary64.pagerank_step graph n ranks))
        as [(j & Hj & Hbefore & Hstop & Hres) | (Hbefore & Hres)].
      * left. exists (S j). cbn [Binary64.ranks_after].
        split; [lia |]. split; [| by split].
        intros [| i] Hi; [exact Hconv |]. apply Hbefore. lia.
      * right. cbn [Binary64.ranks_after]. split; [| exact Hres].
        intros [| i] Hi; [exact Hconv |]. apply Hbefore. lia.
Qed.

Lemma calculatePageRank_binary64_unfold (graph : Binary64.SocialGraphState) :
  Binary64.nodes graph <> ∅ ->
  Binary64.calculatePageRank graph
  = Binary64.pagerank_loop graph (Binary64.node_count graph)
      Binary64.PAGERANK_ITERATIONS
      (Binary64.initial_ranks (map_to_list (Binary64.nodes graph)).*1
         (Binary64.node_count graph)).
Proof.
  intros Hne. unfold Binary64.calculatePageRank, Binary64.node_count.
  destruct (Nat.eqb_spec (length (map_to_list (Binary64.nodes graph)).*1) 0)
    as [Hzero | _]; [| reflexivity].
  rewrite length_fmap, length_map_to_list in Hzero.
  by apply map_size_empty_iff in Hzero.
Qed.

(** The rank of a single node is not the double [0.15]: the code returns
    [0.15000000000000002], the double above it. *)
Lemma calculatePageRank_single_rounds :
  Binary64.calculatePageRank (Binary64.lone_node "a")
  = {[ "a"%string := 0.15000000000000002%float ]} /\
  Binary64.calculatePageRank (Binary64.lone_node "a")
  <> {[ "a"%string := 0.15%float ]}.
Proof.
  assert (Hrun : Binary64.calculatePageRank (Binary64.lone_node "a")
                 = {[ "a"%string := 0.15000000000000002%float ]})
    by (by eapply calculatePageRank_binary64_single).
  split; [exact Hrun |].
  rewrite Hrun. intros H.
  apply (f_equal (fun ranks : gmap string float =>
                    match ranks !! "a"%string with
                    | Some rank => PrimFloat.eqb rank 0.15%float
                    | None => false
                    end)) in H.
  rewrite !lookup_singleton_eq in H. vm_compute in H. discriminate.
Qed.

(** An edge whose source lists no outgoing relation: the code divides by
    an out-degree of zero and the target gets an infinite rank; the second
    pass changes the other rank by nothing, the change of the infinite one
    is not a number and fails the test [diff > maxDiff], and the loop
    stops. *)
Example calculatePageRank_unlisted_edge :
  Binary64.calculatePageRank Binary64.unlisted_edge
  = {[ "a"%string := 0.07500000000000001%float; "b"%string := infinity ]} /\
  Binary64.converged Binary64.unlisted_edge 2
    (Binary64.ranks_after Binary64.unlisted_edge 2
       (Binary64.initial_ranks ["a"%string; "b"%string] 2) 1)
  = true.
Proof. split; vm_compute; reflexivity. Qed.

(** C5. On a graph with one node and no relationships the rank of the node
    is [(1 - 0.85) / 1 + 0.85 * 0] as the code computes it, which in doubles
    is [0.15000000000000002], the double next above [0.15]; on a graph
    without nodes the result is empty and no loop body is run; on any other
    graph the loop body is run until the largest change of a rank in one
    pass is below [1e-6], that is until every node changes by less than
    that, and at most 20 times; the ranks returned are those before the
    converged pass, or those after the twentieth.  The last part is stated
    a second time in doubles, on the test [maxDiff < 1e-6] as the code
    computes it, where it holds of every graph with a node. *)
Theorem calculatePageRank_stops :
  (forall graph nodeId node,
      nodes graph = {[ nodeId := node ]} -> relationships graph = ∅ ->
      calculatePageRank graph
      = {[ nodeId := (1 - PAGERANK_DAMPING) / 1 + PAGERANK_DAMPING * 0 ]}) /\
  (forall graph nodeId node,
      Binary64.nodes graph = {[ nodeId := node ]} ->
      Binary64.relationships graph = ∅ ->
      Binary64.calculatePageRank graph
      = {[ nodeId := 0.15000000000000002%float ]}) /\
  (forall graph,
      nodes graph = ∅ -> calculatePageRank_trace graph = (∅, 0%nat)) /\
  PAGERANK_DAMPING = 0.85 /\ PAGERANK_TOLERANCE = 1e-6 /\
  PAGERANK_ITERATIONS = 20%nat /\
  (forall graph n ranks,
      max_change graph n ranks < 1e-6
      <-> forall nodeId node,
            nodes graph !! nodeId = Some node ->
            rank_change graph n ranks nodeId node < 1e-6) /\
  (forall graph,
      nodes graph <> ∅ ->
      let n := node_count graph in
      let start := initial_ranks (map_to_list (nodes graph)).*1 n in
      let runs := (calculatePageRank_trace graph).2 in
      (exists j : nat,
          (j < 20)%nat /\ runs = S j /\
          (forall i, (i < j)%nat ->
             1e-6 <= max_change graph n (ranks_after graph n start i)) /\
          max_change graph n (ranks_after graph n start j) < 1e-6 /\
          calculatePageRank graph = ranks_after graph n start j) \/
      (runs = 20%nat /\
       (forall i, (i < 20)%nat ->
          1e-6 <= max_change graph n (ranks_after graph n start i)) /\
       calculatePageRank graph = ranks_after graph n start 20)) /\
  (forall graph,
      Binary64.nodes graph <> ∅ ->
      let n := Binary64.node_count graph in
      let start :=
        Binary64.initial_ranks (map_to_list (Binary64.nodes graph)).*1 n in
      (exists j : nat,
          (j < 20)%nat /\
          (forall i, (i < j)%nat ->
             Binary64.converged graph n (Binary64.ranks_after graph n start i)
             = false) /\
          Binary64.converged graph n (Binary64.ranks_after graph n start j)
          = true /\
          Binary64.calculatePageRank graph
          = Binary64.ranks_after graph n start j) \/
      ((forall i, (i < 20)%nat ->
          Binary64.converged graph n (Binary64.ranks_after graph n start i)
          = false) /\
       Binary64.calculatePageRank graph
       = Binary64.ranks_after graph n start 20)).
Proof.
  split; [| split; [| split; [| split; [| split; [| split; [| split;
    [| split]]]]]]]; try reflexivity.
  - intros graph nodeId node Hnodes Hrels.
    unfold calculatePageRank.
    by rewrite (calculatePageRank_trace_single _ _ _ Hnodes Hrels).
  - apply calculatePageRank_binary64_single.
  - apply calculatePageRank_trace_empty.
  - apply max_change_below_tolerance.
  - intros graph Hne n start runs. subst runs. unfold calculatePageRank.
    unfold calculatePageRank_trace.
    rewrite nodes_count_positive by exact Hne.
    fold (node_count graph). fold n. fold start.
    apply (pagerank_loop_stops graph n PAGERANK_ITERATIONS start).
  - intros graph Hne n start.
    rewrite (calculatePageRank_binary64_unfold graph Hne). fold n start.
    apply (pagerank_loop_binary64_stops graph n
             Binary64.PAGERANK_ITERATIONS start).
Qed.

Lemma calculatePageRank_stops_witness :
  calculatePageRank
    {| nodes := {[ "a" := {| node_id := "a"; outgoingRelations := [];
                             incomingRelations := [] |} ]};
       relationships := ∅ |}
  = {[ "a" := (1 - PAGERANK_DAMPING) / 1 + PAGERANK_DAMPING * 0 ]} /\
  Binary64.calculatePageRank (Binary64.lone_node "b")
  = {[ "b" := 0.15000000000000002%float ]} /\
  calculatePageRank_trace createEmptySocialGraph = (∅, 0%nat) /\
  let n := node_count sample_graph in
  let start := initial_ranks (map_to_list (nodes sample_graph)).*1 n in
  (exists j : nat,
      (j < 20)%nat /\ (calculatePageRank_trace sample_graph).2 = S j /\
      max_change sample_graph n (ranks_after sample_graph n start j) < 1e-6 /\
      calculatePageRank sample_graph = ranks_after sample_graph n start j) \/
  ((calculatePageRank_trace sample_graph).2 = 20%nat /\
   calculatePageRank sample_graph = ranks_after sample_graph n start 20).
Proof.
  destruct calculatePageRank_stops
    as (Hsingle & Hdouble & Hempty & _ & _ & _ & _ & Hloop & _).
  split; [| split; [| split]].
  - by eapply Hsingle.
  - by eapply Hdouble.
  - apply Hempty. reflexivity.
  - assert (Hne : nodes sample_graph <> ∅).
    { intros H. apply (f_equal (fun m => m !! "a")) in H.
      vm_compute in H. discriminate. }
    destruct (Hloop sample_graph Hne)
      as [(j & Hj & Hruns & _ & Hconv & Hres) | (Hruns & _ & Hres)].
    + left. exists j. repeat split; assumption.
    + right. split; assumption.
Defined.

(** The sample graph converges in the third pass. *)
Example calculatePageRank_sample_runs :
  (calculatePageRank_trace sample_graph).2 = 3%nat /\
  Qred <$> calculatePageRank sample_graph
  = {[ "a" := 3 # 40; "b" := 837 # 6400 ]}.
Proof. split; vm_compute; reflexivity. Qed.

End PageRankCases.

(** ** core/chronicle-pressure.ts: chronicles from pressure *)

Section ChronicleFacts.
Local Open Scope Q_scope.

Lemma canEmit_true world type value :
  canEmit world type value = true
  <-> 2.0 <= value /\
      match lastChronicleTurn world !! type with
      | Some last => (3 <= turn world - last)%Z
      | None => True
      end.
Proof.
  unfold canEmit, gap_elapsed, CHRONICLE_THRESHOLD, MIN_CHRONICLE_GAP.
  rewrite andb_true_iff, Qle_bool_iff.
  destruct (lastChronicleTurn world !! type); [rewrite Z.leb_le |]; tauto.
Qed.

Lemma canEmit_emits world type value :
  meaningPressure world !! type = Some value ->
  canEmit world type value = true <-> emits world type.
Proof.
  intros Hv. rewrite canEmit_true. unfold emits. split.
  - intros [? ?]. by exists value.
  - intros (v & Hv' & ? & ?). rewrite Hv in Hv'. by injection Hv' as ->.
Qed.

Lemma emitted_types_emit world type :
  type ∈ emitted_types world <-> emits world type.
Proof.
  unfold emitted_types. rewrite list_elem_of_fmap. split.
  - intros ([type' value] & -> & Hin). apply list_elem_of_filter in Hin.
    destruct Hin as [Hc Hin]. apply elem_of_map_to_list in Hin.
    by apply (canEmit_emits world type' value).
  - intros Hemit. pose proof Hemit as (value & Hv & _).
    exists (type, value). split; [done |].
    apply list_elem_of_filter. split.
    + by apply (canEmit_emits world type value).
    + by apply elem_of_map_to_list.
Qed.

Lemma NoDup_fst_filter {A B} (P : A * B -> Prop) `{forall x, Decision (P x)}
    (l : list (A * B)) :
  NoDup l.*1 -> NoDup (filter P l).*1.
Proof.
  induction l as [| [a b] l IH]; [done |].
  rewrite fmap_cons, NoDup_cons. intros [Ha Hnd].
  rewrite filter_cons. destruct (decide (P (a, b))); [| by apply IH].
  rewrite fmap_cons. apply NoDup_cons. split; [| by apply IH].
  intros Hin. apply Ha. apply list_elem_of_fmap in Hin as (x & -> & Hx).
  apply list_elem_of_fmap. exists x. split; [done |].
  by apply list_elem_of_filter in Hx as [_ Hx].
Qed.

Lemma emitted_types_NoDup world : NoDup (emitted_types world).
Proof. apply NoDup_fst_filter, NoDup_fst_map_to_list. Qed.

(** One turn of the loop, once the test is decided. *)
Lemma chronicle_body_emit world entries pressure lastTurn type value amb n :
  lastTurn !! type = lastChronicleTurn world !! type ->
  canEmit world type value = true ->
  chronicle_body world (entries, pressure, lastTurn) (type, value) amb n
  = ((entries ++ [ {| chronicle_id := uuid_source amb n;
                      chronicle_year := year world;
                      summary := chronicle_summary type;
                      derivedMeaningIds := [];
                      chronicle_scope := LOCAL |} ],
      <[type := value * 0.4]> pressure,
      <[type := turn world]> lastTurn), S n).
Proof.
  intros Hlast Hc. unfold chronicle_body. rewrite Hlast.
  fold (canEmit world type value). by rewrite Hc.
Qed.

Lemma chronicle_body_skip world entries pressure lastTurn type value amb n :
  lastTurn !! type = lastChronicleTurn world !! type ->
  canEmit world type value = false ->
  chronicle_body world (entries, pressure, lastTurn) (type, value) amb n
  = ((entries, pressure, lastTurn), n).
Proof.
  intros Hlast Hc. unfold chronicle_body. rewrite Hlast.
  fold (canEmit world type value). by rewrite Hc.
Qed.

(** The loop over a list of entries without repeated keys, started in a
    state whose [lastTurn] agrees with the world on the keys of the list. *)
Lemma chronicle_loop_spec world (l : list (string * Q)) :
  NoDup l.*1 ->
  forall entries pressure lastTurn amb n,
    (forall type, type ∈ l.*1 ->
                  lastTurn !! type = lastChronicleTurn world !! type) ->
    exists entries' pressure' lastTurn' n',
      foldM (chronicle_body world) (entries, pressure, lastTurn) l amb n
      = ((entries', pressure', lastTurn'), n') /\
      summary <$> entries'
      = (summary <$> entries)
        ++ (chronicle_summary
              <$> (filter (fun e => canEmit world e.1 e.2 = true) l).*1) /\
      (forall type,
          pressure' !! type
          = match (list_to_map l : gmap string Q) !! type with
            | Some v => if canEmit world type v then Some (v * 0.4)
                        else pressure !! type
            | None => pressure !! type
            end) /\
      (forall type,
          lastTurn' !! type
          = match (list_to_map l : gmap string Q) !! type with
            | Some v => if canEmit world type v then Some (turn world)
                        else lastTurn !! type
            | None => lastTurn !! type
            end).
Proof.
  induction l as [| [k0 v0] l IH]; intros Hnd entries pressure lastTurn amb n Hlast.
  - exists entries, pressure, lastTurn, n. simpl.
    split; [done |]. split; [by rewrite app_nil_r |].
    split; intros type; by rewrite lookup_empty.
  - rewrite fmap_cons in Hnd. apply NoDup_cons in Hnd as [Hk0 Hnd].
    assert (Hfresh : (list_to_map l : gmap string Q) !! k0 = None)
      by (by apply not_elem_of_list_to_map_1).
    assert (Hlast0 : lastTurn !! k0 = lastChronicleTurn world !! k0)
      by (apply Hlast; rewrite fmap_cons; apply list_elem_of_here).
    cbn [foldM]. unfold bind at 1.
    rewrite filter_cons. cbn [fst snd].
    destruct (canEmit world k0 v0) eqn:Hc.
    + rewrite (chronicle_body_emit _ _ _ _ _ _ _ _ Hlast0 Hc).
      edestruct (IH Hnd) as (entries' & pressure' & lastTurn' & n' & Hrun
                             & Hsum & Hpress & Hturn); [| rewrite Hrun].
      { intros type Hin. rewrite lookup_insert_ne.
        - apply Hlast. rewrite fmap_cons. by apply list_elem_of_further.
        - intros ->. contradiction. }
      exists entries', pressure', lastTurn', n'. split; [done |].
      split; [| split].
      * rewrite Hsum, fmap_app. rewrite decide_True by done.
        rewrite !fmap_cons. cbn [fst]. by rewrite <- app_assoc.
      * intros type. rewrite Hpress. rewrite list_to_map_cons. cbn [fst snd].
        destruct (decide (k0 = type)) as [<- | Hne].
        -- by rewrite Hfresh, !lookup_insert_eq, Hc.
        -- rewrite !lookup_insert_ne by done. reflexivity.
      * intros type. rewrite Hturn. rewrite list_to_map_cons. cbn [fst snd].
        destruct (decide (k0 = type)) as [<- | Hne].
        -- by rewrite Hfresh, !lookup_insert_eq, Hc.
        -- rewrite !lookup_insert_ne by done. reflexivity.
    + rewrite (chronicle_body_skip _ _ _ _ _ _ _ _ Hlast0 Hc).
      edestruct (IH Hnd) as (entries' & pressure' & lastTurn' & n' & Hrun
                             & Hsum & Hpress & Hturn); [| rewrite Hrun].
      { intros type Hin. apply Hlast. rewrite fmap_cons.
        by apply list_elem_of_further. }
      exists entries', pressure', lastTurn', n'. split; [done |].
      split; [| split].
      * rewrite Hsum. rewrite decide_False by (cbn [fst snd]; congruence). done.
      * intros type. rewrite Hpress. rewrite list_to_map_cons. cbn [fst snd].
        destruct (decide (k0 = type)) as [<- | Hne].
        -- by rewrite Hfresh, lookup_insert_eq, Hc.
        -- rewrite lookup_insert_ne by done. reflexivity.
      * intros type. rewrite Hturn. rewrite list_to_map_cons. cbn [fst snd].
        destruct (decide (k0 = type)) as [<- | Hne].
        -- by rewrite Hfresh, lookup_insert_eq, Hc.
        -- rewrite lookup_insert_ne by done. reflexivity.
Qed.

(** The loop of [generateChronicleFromPressure], run from the state of the
    world. *)
Lemma generateChronicleFromPressure_run world amb n :
  exists entries pressure' lastTurn' n',
    generateChronicleFromPressure world amb n
    = ((with_pressure_and_lastTurn world pressure' lastTurn', entries), n') /\
    summary <$> entries = chronicle_summary <$> emitted_types world /\
    (forall type,
        pressure' !! type
        = match meaningPressure world !! type with
          | Some v => if canEmit world type v then Some (v * 0.4)
                      else meaningPressure world !! type
          | None => meaningPressure world !! type
          end) /\
    (forall type,
        lastTurn' !! type
        = match meaningPressure world !! type with
          | Some v => if canEmit world type v then Some (turn world)
                      else lastChronicleTurn world !! type
          | None => lastChronicleTurn world !! type
          end).
Proof.
  destruct (chronicle_loop_spec world (map_to_list (meaningPressure world))
              (NoDup_fst_map_to_list _) [] (meaningPressure world)
              (lastChronicleTurn world) amb n)
    as (entries & pressure' & lastTurn' & n' & Hrun & Hsum & Hpress & Hturn);
    [done |].
  exists entries, pressure', lastTurn', n'.
  split.
  { unfold generateChronicleFromPressure, bind. by rewrite Hrun. }
  split; [exact Hsum |].
  split; intros type.
  - rewrite Hpress. by rewrite list_to_map_to_list.
  - rewrite Hturn. by rewrite list_to_map_to_list.
Qed.

(** C1. [generateChronicleFromPressure] emits exactly one chronicle entry
    for each type whose pressure is at least 2.0 and whose last chronicle
    lies at least 3 turns in the past, a type without a recorded chronicle
    passing the second test; it multiplies the pressure of each such type by
    0.4 and records the current turn for it; every other type keeps its
    pressure and its last-chronicle turn, and no other field of the world
    changes.  With pressure 2.0 for FEAR at turn 5 and the last FEAR
    chronicle at turn 1, FEAR emits and its pressure becomes 0.8; at turn 6,
    with the pressure back at 2.0 and the last chronicle at turn 5, FEAR
    does not emit. *)
Theorem generateChronicleFromPressure_emits
    (world : ExtendedWorldState) (amb : Ambient) (n : nat) :
  let world' := (generateChronicleFromPressure world amb n).1.1 in
  let entries := (generateChronicleFromPressure world amb n).1.2 in
  summary <$> entries = chronicle_summary <$> emitted_types world /\
  length entries = length (emitted_types world) /\
  NoDup (emitted_types world) /\
  (forall type, type ∈ emitted_types world <-> emits world type) /\
  (forall type value,
      meaningPressure world !! type = Some value -> emits world type ->
      meaningPressure world' !! type = Some (value * 0.4) /\
      lastChronicleTurn world' !! type = Some (turn world)) /\
  (forall type,
      ~ emits world type ->
      meaningPressure world' !! type = meaningPressure world !! type /\
      lastChronicleTurn world' !! type = lastChronicleTurn world !! type) /\
  world' = with_pressure_and_lastTurn world (meaningPressure world')
                                      (lastChronicleTurn world') /\
  (turn world = 5%Z -> meaningPressure world !! "FEAR" = Some 2.0 ->
   lastChronicleTurn world !! "FEAR" = Some 1%Z ->
   "FEAR"%string ∈ emitted_types world /\
   lastChronicleTurn world' !! "FEAR" = Some 5%Z /\
   exists value,
     meaningPressure world' !! "FEAR" = Some value /\ value == 0.8) /\
  (turn world = 6%Z -> meaningPressure world !! "FEAR" = Some 2.0 ->
   lastChronicleTurn world !! "FEAR" = Some 5%Z ->
   ("FEAR"%string ∉ emitted_types world) /\
   lastChronicleTurn world' !! "FEAR" = Some 5%Z /\
   meaningPressure world' !! "FEAR" = Some 2.0).
Proof.
  intros world' entries. subst world' entries.
  destruct (generateChronicleFromPressure_run world amb n)
    as (entries & pressure' & lastTurn' & n' & -> & Hsum & Hpress & Hturn).
  cbn [fst snd with_pressure_and_lastTurn meaningPressure lastChronicleTurn].
  assert (Hemit : forall type value,
             meaningPressure world !! type = Some value -> emits world type ->
             pressure' !! type = Some (value * 0.4) /\
             lastTurn' !! type = Some (turn world)).
  { intros type value Hv He. rewrite Hpress, Hturn, Hv.
    apply (canEmit_emits world type value Hv) in He. by rewrite He. }
  assert (Hkeep : forall type,
             ~ emits world type ->
             pressure' !! type = meaningPressure world !! type /\
             lastTurn' !! type = lastChronicleTurn world !! type).
  { intros type Hne. rewrite Hpress, Hturn.
    destruct (meaningPressure world !! type) as [v |] eqn:Hv; [| done].
    destruct (canEmit world type v) eqn:Hc; [| done].
    exfalso. apply Hne. by apply (canEmit_emits world type v). }
  split; [exact Hsum |].
  split; [by rewrite <- (length_fmap summary), Hsum, length_fmap |].
  split; [apply emitted_types_NoDup |].
  split; [apply emitted_types_emit |].
  split; [exact Hemit |].
  split; [exact Hkeep |].
  split; [reflexivity |].
  split.
  - intros Ht Hp Hl.
    assert (He : emits world "FEAR").
    { exists 2.0. rewrite Hl, Ht. repeat split; [done | lra | lia]. }
    destruct (Hemit "FEAR"%string 2.0 Hp He) as [Hp' Hl'].
    split; [by apply emitted_types_emit |].
    split; [by rewrite Hl', Ht |].
    exists (2.0 * 0.4). split; [exact Hp' | reflexivity].
  - intros Ht Hp Hl.
    assert (He : ~ emits world "FEAR").
    { intros (v & _ & _ & Hgap). rewrite Hl, Ht in Hgap. lia. }
    destruct (Hkeep "FEAR"%string He) as [Hp' Hl'].
    split; [by rewrite emitted_types_emit |].
    split; [by rewrite Hl' | by rewrite Hp'].
Qed.

Lemma generateChronicleFromPressure_emits_witness :
  let first := (generateChronicleFromPressure (fear_world 5 1)
                  sample_ambient 0%nat).1 in
  let second := (generateChronicleFromPressure (fear_world 6 5)
                   sample_ambient 1%nat).1 in
  (summary <$> first.2 = ["An era shaped by fear."%string] /\
   lastChronicleTurn first.1 !! "FEAR" = Some 5%Z /\
   exists value,
     meaningPressure first.1 !! "FEAR" = Some value /\ value == 0.8) /\
  (second.2 = [] /\ meaningPressure second.1 !! "FEAR" = Some 2.0).
Proof.
  intros first second. split.
  - destruct (generateChronicleFromPressure_emits (fear_world 5 1)
                sample_ambient 0%nat)
      as (Hsum & _ & _ & _ & _ & _ & _ & Hfirst & _).
    destruct Hfirst as (_ & Hlast & Hvalue); [reflexivity .. |].
    split; [exact Hsum | split; [exact Hlast | exact Hvalue]].
  - destruct (generateChronicleFromPressure_emits (fear_world 6 5)
                sample_ambient 1%nat)
      as (Hsum & _ & _ & _ & _ & _ & _ & _ & Hsecond).
    destruct Hsecond as (_ & _ & Hvalue); [reflexivity .. |].
    split; [| exact Hvalue].
    apply fmap_nil_inv in Hsum. exact Hsum.
Defined.

End ChronicleFacts.

(** ** core/chronicle-pressure.ts: tendencies *)

Section TendencyFacts.
Local Open Scope Q_scope.

Lemma adjust_lookup (t : ActionTag) (delta : Q) (map : gmap ActionTag Q) :
  adjust t delta map !! t
  = Some (clamp (nullish (map !! t) 0 + delta) (-0.6) 0.6).
Proof. unfold adjust. by rewrite lookup_insert_eq. Qed.

Lemma adjust_lookup_ne (t t' : ActionTag) (delta : Q)
    (map : gmap ActionTag Q) :
  t' <> t -> adjust t delta map !! t' = map !! t'.
Proof. intros Hne. unfold adjust. by rewrite lookup_insert_ne. Qed.

Lemma adjust_in_range t delta map :
  map_in_range map -> map_in_range (adjust t delta map).
Proof.
  intros Hmap t' w. destruct (decide (t' = t)) as [-> | Hne].
  - rewrite adjust_lookup. intros [= <-]. apply clamp_range. lra.
  - rewrite adjust_lookup_ne by exact Hne. apply Hmap.
Qed.

Lemma tendency_body_in_range map c :
  map_in_range map -> map_in_range (tendency_body map c).
Proof.
  intros Hmap. unfold tendency_body.
  repeat match goal with
         | |- context [if ?b then _ else _] => destruct b
         end;
    repeat apply adjust_in_range; exact Hmap.
Qed.

Lemma tendency_loop_in_range map (chronicles : list ChronicleEntry) :
  map_in_range map -> map_in_range (foldl tendency_body map chronicles).
Proof.
  revert map. induction chronicles as [| c l IH]; intros map Hmap; [done |].
  simpl. apply IH. by apply tendency_body_in_range.
Qed.

(** With one entry per tag the map holds the weights of the list. *)
Lemma tendency_map_in_range (l : list WorldTendency) :
  NoDup (tag <$> l) ->
  Forall (fun t => weight_in_range (weight t)) l ->
  map_in_range (tendency_map l).
Proof.
  unfold tendency_map.
  assert (Hgen : forall map : gmap ActionTag Q,
             map_in_range map ->
             (forall t, t ∈ l -> map !! tag t = None) ->
             NoDup (tag <$> l) ->
             Forall (fun t => weight_in_range (weight t)) l ->
             map_in_range
               (foldl (fun (map : gmap ActionTag Q) t =>
                         <[tag t := nullish (map !! tag t) 0 + weight t]> map)
                      map l)).
  { induction l as [| t l IH]; intros map Hmap Hfresh Hnd Hall; [done |].
    rewrite fmap_cons in Hnd. apply NoDup_cons in Hnd as [Ht Hnd].
    apply Forall_cons in Hall as [Hw Hall].
    simpl. apply IH; [| | exact Hnd | exact Hall].
    - intros t' w. destruct (decide (t' = tag t)) as [-> | Hne].
      + rewrite lookup_insert_eq. intros [= <-].
        rewrite (Hfresh t) by apply list_elem_of_here.
        unfold weight_in_range in *. simpl. lra.
      + rewrite lookup_insert_ne by done. apply Hmap.
    - intros t' Hin. rewrite lookup_insert_ne.
      + apply Hfresh. by apply list_elem_of_further.
      + intros Heq. apply Ht. rewrite Heq. by apply list_elem_of_fmap_2. }
  intros Hnd Hall. apply Hgen; [| | exact Hnd | exact Hall].
  - intros t w. by rewrite lookup_empty.
  - intros t _. apply lookup_empty.
Qed.

Lemma tendency_entries_in_range map :
  map_in_range map ->
  Forall (fun t => weight_in_range (weight t)) (tendency_entries map).
Proof.
  intros Hmap. unfold tendency_entries. apply Forall_fmap, Forall_forall.
  intros [t w] Hin. apply elem_of_map_to_list in Hin. simpl.
  by apply (Hmap t w).
Qed.

(** The first loop collects for each tag the running sum of its weights. *)
Lemma tendency_map_lookup (l : list WorldTendency) (t : ActionTag) :
  tendency_map l !! t = summed_weight t l.
Proof.
  unfold tendency_map, summed_weight.
  assert (Hgen : forall map : gmap ActionTag Q,
             foldl (fun (map : gmap ActionTag Q) e =>
                      <[tag e := nullish (map !! tag e) 0 + weight e]> map)
                   map l !! t
             = foldl (fun (acc : option Q) e =>
                        if bool_decide (tag e = t)
                        then Some (nullish acc 0 + weight e) else acc)
                     (map !! t) l).
  { induction l as [| e l IH]; intros map; [done |].
    cbn [foldl]. rewrite IH. f_equal.
    destruct (bool_decide_reflect (tag e = t)) as [<- | Hne].
    - by rewrite lookup_insert_eq.
    - by rewrite lookup_insert_ne. }
  by rewrite Hgen, lookup_empty.
Qed.

Lemma summed_weight_absent (t : ActionTag) (l : list WorldTendency)
    (acc : option Q) :
  t ∉ tag <$> l ->
  foldl (fun (acc : option Q) e =>
           if bool_decide (tag e = t)
           then Some (nullish acc 0 + weight e) else acc) acc l
  = acc.
Proof.
  revert acc. induction l as [| e l IH]; intros acc Hout; [done |].
  rewrite fmap_cons in Hout. apply not_elem_of_cons in Hout as [Hne Hout].
  cbn [foldl]. rewrite bool_decide_false by done. by apply IH.
Qed.

(** With one entry per tag the sum has one term. *)
Lemma summed_weight_once (t : ActionTag) (l : list WorldTendency) :
  NoDup (tag <$> l) ->
  summed_weight t l = (fun w => 0 + w) <$> weight_of l t.
Proof.
  unfold summed_weight, weight_of, find_tendency.
  induction l as [| e l IH]; intros Hnd; [done |].
  rewrite fmap_cons in Hnd. apply NoDup_cons in Hnd as [He Hnd].
  cbn [foldl List.find].
  destruct (bool_decide_reflect (tag e = t)) as [<- | Hne].
  - by rewrite summed_weight_absent.
  - by apply IH.
Qed.

(** The list made of the map gives each tag the weight that the map holds,
    once. *)
Lemma weight_of_entries (map : gmap ActionTag Q) (t : ActionTag) :
  weight_of (tendency_entries map) t = map !! t.
Proof.
  unfold weight_of, find_tendency, tendency_entries.
  rewrite <- (list_to_map_to_list map) at 2.
  induction (map_to_list map) as [| [k w] l IH]; [done |].
  cbn [fmap list_fmap List.find tag list_to_map foldr].
  destruct (bool_decide_reflect (k = t)) as [-> | Hne].
  - by rewrite lookup_insert_eq.
  - rewrite lookup_insert_ne by done. exact IH.
Qed.

Lemma tendency_entries_tags (map : gmap ActionTag Q) :
  NoDup (tag <$> tendency_entries map).
Proof.
  unfold tendency_entries. rewrite <- list_fmap_compose.
  assert (Hfst : forall l : list (ActionTag * Q),
             (tag ∘ (fun '(tag, weight) => {| tag := tag; weight := weight |}))
               <$> l = l.*1).
  { induction l as [| [k w] l IH]; [done |]. cbn. by f_equal. }
  rewrite Hfst. apply NoDup_fst_map_to_list.
Qed.

(** C4. A FEAR chronicle adjusts RISKY by -0.10 and SAFE by +0.08, a TRUST
    chronicle SOCIAL by +0.08 and PASSIVE by -0.04, a RESPECT chronicle
    AGGRESSIVE by +0.05; an adjustment adds the delta to the weight of the
    tag (0 for a tag without weight) and clamps the sum to [[-0.6, 0.6]];
    the chronicles of one call are applied one after the other to the same
    map.  The map starts from the weights of the world, the weights of the
    entries of one tag added in the order of the list to 0, and the list
    returned holds one entry per tag of the final map, with the weight of
    the map.  So after one FEAR chronicle the world gives to RISKY its
    former weight minus 0.10 and to SAFE its former weight plus 0.08, both
    clamped, and to every other tag its former weight; likewise for a TRUST
    and for a RESPECT chronicle; a second FEAR chronicle in the same call
    starts from the clamped weight of the first.  Without chronicles the
    world is returned as it is.  When the tendency list of the world has at
    most one entry per tag and all its weights are within [[-0.6, 0.6]], so
    are all weights of the world returned. *)
Theorem applyChronicleTendency_bounded :
  (forall map c,
      summary c = chronicle_summary "FEAR" ->
      tendency_body map c = adjust SAFE 0.08 (adjust RISKY (-0.10) map)) /\
  (forall map c,
      summary c = chronicle_summary "TRUST" ->
      tendency_body map c = adjust PASSIVE (-0.04) (adjust SOCIAL 0.08 map)) /\
  (forall map c,
      summary c = chronicle_summary "RESPECT" ->
      tendency_body map c = adjust AGGRESSIVE 0.05 map) /\
  (forall t delta map,
      adjust t delta map !! t
      = Some (clamp (nullish (map !! t) 0 + delta) (-0.6) 0.6) /\
      forall t', t' <> t -> adjust t delta map !! t' = map !! t') /\
  (forall l t,
      tendency_map l !! t = summed_weight t l /\
      (NoDup (tag <$> l) ->
       summed_weight t l = (fun w => 0 + w) <$> weight_of l t)) /\
  (forall world c chronicles,
      let world' := applyChronicleTendency world (c :: chronicles) in
      NoDup (tag <$> tendency world') /\
      forall t,
        weight_of (tendency world') t
        = foldl tendency_body (tendency_map (tendency world))
                (c :: chronicles) !! t) /\
  (forall world c,
      summary c = chronicle_summary "FEAR" ->
      let world' := applyChronicleTendency world [c] in
      weight_of (tendency world') RISKY
      = Some (clamp (nullish (summed_weight RISKY (tendency world)) 0
                     + -0.10) (-0.6) 0.6) /\
      weight_of (tendency world') SAFE
      = Some (clamp (nullish (summed_weight SAFE (tendency world)) 0
                     + 0.08) (-0.6) 0.6) /\
      forall t, t <> RISKY -> t <> SAFE ->
                weight_of (tendency world') t
                = summed_weight t (tendency world)) /\
  (forall world c,
      summary c = chronicle_summary "TRUST" ->
      let world' := applyChronicleTendency world [c] in
      weight_of (tendency world') SOCIAL
      = Some (clamp (nullish (summed_weight SOCIAL (tendency world)) 0
                     + 0.08) (-0.6) 0.6) /\
      weight_of (tendency world') PASSIVE
      = Some (clamp (nullish (summed_weight PASSIVE (tendency world)) 0
                     + -0.04) (-0.6) 0.6) /\
      forall t, t <> SOCIAL -> t <> PASSIVE ->
                weight_of (tendency world') t
                = summed_weight t (tendency world)) /\
  (forall world c,
      summary c = chronicle_summary "RESPECT" ->
      let world' := applyChronicleTendency world [c] in
      weight_of (tendency world') AGGRESSIVE
      = Some (clamp (nullish (summed_weight AGGRESSIVE (tendency world)) 0
                     + 0.05) (-0.6) 0.6) /\
      forall t, t <> AGGRESSIVE ->
                weight_of (tendency world') t
                = summed_weight t (tendency world)) /\
  (forall world c1 c2,
      summary c1 = chronicle_summary "FEAR" ->
      summary c2 = chronicle_summary "FEAR" ->
      weight_of (tendency (applyChronicleTendency world [c1; c2])) RISKY
      = Some (clamp
                (clamp (nullish (summed_weight RISKY (tendency world)) 0
                        + -0.10) (-0.6) 0.6
                 + -0.10) (-0.6) 0.6)) /\
  (forall world, applyChronicleTendency world [] = world) /\
  (forall world chronicles,
      NoDup (tag <$> tendency world) ->
      Forall (fun t => weight_in_range (weight t)) (tendency world) ->
      Forall (fun t => weight_in_range (weight t))
             (tendency (applyChronicleTendency world chronicles))).
Proof.
  assert (Hfear : forall map c,
             summary c = chronicle_summary "FEAR" ->
             tendency_body map c
             = adjust SAFE 0.08 (adjust RISKY (-0.10) map)).
  { intros map c Hc. unfold tendency_body. rewrite Hc. reflexivity. }
  assert (Htrust : forall map c,
             summary c = chronicle_summary "TRUST" ->
             tendency_body map c
             = adjust PASSIVE (-0.04) (adjust SOCIAL 0.08 map)).
  { intros map c Hc. unfold tendency_body. rewrite Hc. reflexivity. }
  assert (Hrespect : forall map c,
             summary c = chronicle_summary "RESPECT" ->
             tendency_body map c = adjust AGGRESSIVE 0.05 map).
  { intros map c Hc. unfold tendency_body. rewrite Hc. reflexivity. }
  assert (Hlist : forall world c chronicles t,
             weight_of
               (tendency (applyChronicleTendency world (c :: chronicles))) t
             = foldl tendency_body (tendency_map (tendency world))
                     (c :: chronicles) !! t).
  { intros world c chronicles t.
    cbn [applyChronicleTendency with_tendency tendency].
    apply weight_of_entries. }
  split; [exact Hfear |]. split; [exact Htrust |]. split; [exact Hrespect |].
  split.
  { intros t delta map. split; [apply adjust_lookup |].
    intros t' Hne. by apply adjust_lookup_ne. }
  split.
  { intros l t. split; [apply tendency_map_lookup |].
    apply summed_weight_once. }
  split.
  { intros world c chronicles world'. split; [| apply Hlist].
    subst world'. cbn [applyChronicleTendency with_tendency tendency].
    apply tendency_entries_tags. }
  split.
  { intros world c Hc world'. subst world'.
    rewrite !Hlist. cbn [foldl]. rewrite (Hfear _ _ Hc).
    split; [| split].
    - rewrite adjust_lookup_ne by done.
      by rewrite adjust_lookup, tendency_map_lookup.
    - rewrite adjust_lookup, adjust_lookup_ne by done.
      by rewrite tendency_map_lookup.
    - intros t Hr Hs. rewrite Hlist. cbn [foldl]. rewrite (Hfear _ _ Hc).
      rewrite !adjust_lookup_ne by done. apply tendency_map_lookup. }
  split.
  { intros world c Hc world'. subst world'.
    rewrite !Hlist. cbn [foldl]. rewrite (Htrust _ _ Hc).
    split; [| split].
    - rewrite adjust_lookup_ne by done.
      by rewrite adjust_lookup, tendency_map_lookup.
    - rewrite adjust_lookup, adjust_lookup_ne by done.
      by rewrite tendency_map_lookup.
    - intros t Hr Hs. rewrite Hlist. cbn [foldl]. rewrite (Htrust _ _ Hc).
      rewrite !adjust_lookup_ne by done. apply tendency_map_lookup. }
  split.
  { intros world c Hc world'. subst world'.
    rewrite !Hlist. cbn [foldl]. rewrite (Hrespect _ _ Hc).
    split.
    - by rewrite adjust_lookup, tendency_map_lookup.
    - intros t Hr. rewrite Hlist. cbn [foldl]. rewrite (Hrespect _ _ Hc).
      rewrite adjust_lookup_ne by done. apply tendency_map_lookup. }
  split.
  { intros world c1 c2 H1 H2. rewrite Hlist. cbn [foldl].
    rewrite (Hfear _ _ H1), (Hfear _ _ H2).
    rewrite adjust_lookup_ne by done. rewrite adjust_lookup.
    rewrite adjust_lookup_ne by done. rewrite adjust_lookup.
    by rewrite tendency_map_lookup. }
  split; [reflexivity |].
  intros world [| c chronicles] Hnd Hall; [exact Hall |].
  cbn [applyChronicleTendency with_tendency tendency].
  apply tendency_entries_in_range, tendency_loop_in_range.
  by apply tendency_map_in_range.
Qed.

Lemma applyChronicleTendency_bounded_witness :
  tendency_body (tendency_map (tendency wary_world)) fear_chronicle
  = adjust SAFE 0.08 (adjust RISKY (-0.10)
                        (tendency_map (tendency wary_world))) /\
  weight_of (tendency (applyChronicleTendency wary_world [fear_chronicle]))
            RISKY
  = Some (clamp (nullish (summed_weight RISKY (tendency wary_world)) 0
                 + -0.10) (-0.6) 0.6) /\
  summed_weight SAFE (tendency wary_world)
  = (fun w => 0 + w) <$> weight_of (tendency wary_world) SAFE /\
  Forall (fun t => weight_in_range (weight t))
         (tendency (applyChronicleTendency wary_world
                      [fear_chronicle; fear_chronicle])).
Proof.
  assert (Hnd : NoDup (tag <$> tendency wary_world)) by compute_done.
  assert (Hall : Forall (fun t => weight_in_range (weight t))
                        (tendency wary_world)).
  { repeat apply Forall_cons_2; try apply Forall_nil_2;
      unfold weight_in_range; simpl; lra. }
  pose proof applyChronicleTendency_bounded
    as (Hfear & _ & _ & _ & Hmap & _ & Hone & _ & _ & _ & _ & Hbound).
  exact (conj (Hfear _ fear_chronicle eq_refl)
           (conj (proj1 (Hone wary_world fear_chronicle eq_refl))
              (conj (proj2 (Hmap (tendency wary_world) SAFE) Hnd)
                 (Hbound wary_world [fear_chronicle; fear_chronicle]
                    Hnd Hall)))).
Defined.

(** Two FEAR chronicles in one call: RISKY reaches the lower bound. *)
Example applyChronicleTendency_twice :
  (fun t => (tag t, Qred (weight t)))
    <$> tendency (applyChronicleTendency wary_world
                    [fear_chronicle; fear_chronicle])
  = [(SAFE, 23 # 50); (RISKY, -3 # 5)].
Proof. vm_compute. reflexivity. Qed.

(** The weights that a world reads after one FEAR chronicle: RISKY from
    -0.55 to the lower bound -0.6, SAFE from 0.3 to 0.38, nothing for
    SOCIAL. *)
Example applyChronicleTendency_once :
  let world' := applyChronicleTendency wary_world [fear_chronicle] in
  Qred <$> weight_of (tendency world') RISKY = Some (-3 # 5) /\
  Qred <$> weight_of (tendency world') SAFE = Some (19 # 50) /\
  weight_of (tendency world') SOCIAL = None.
Proof. vm_compute. repeat split. Qed.

End TendencyFacts.

(** ** core/engine.ts *)

Section EngineFacts.

Lemma executeAction_run (action : Action) (amb : Ambient) (n : nat) :
  executeAction action amb n
  = ({| log_id := uuid_source amb n;
        log_actorId := actorId action;
        log_targetId := None;
        log_type := type action;
        log_tags := tags action;
        log_timestamp := clock_source amb (S n) |}, S (S n)).
Proof. reflexivity. Qed.

Lemma executeAction_logs (actions : list Action) (amb : Ambient) (n : nat) :
  Forall2 records actions (mapM executeAction actions amb n).1.
Proof.
  revert n. induction actions as [| action actions IH]; intros n.
  - constructor.
  - cbn [mapM]. unfold bind at 1. rewrite executeAction_run.
    unfold bind at 1. specialize (IH (S (S n))).
    destruct (mapM executeAction actions amb (S (S n))) as [logs' n'].
    cbn [ret fst] in *. constructor; [by repeat split | exact IH].
Qed.

Lemma generateEchoes_spawned (meanings : list MeaningEvent) (amb : Ambient)
    (n : nat) :
  Forall2 (fun m e => originMeaningId e = meaning_id m /\ ttl e = 3%Z)
          meanings (generateEchoes meanings amb n).1.
Proof.
  unfold generateEchoes. revert n.
  induction meanings as [| m meanings IH]; intros n.
  - constructor.
  - cbn [mapM]. unfold bind at 1. unfold bind at 1. cbn [randomUUID].
    unfold bind at 1. cbn [Math_random ret]. unfold bind at 1.
    specialize (IH (S (S n))).
    match goal with
    | |- context [mapM ?f meanings amb (S (S n))] =>
        destruct (mapM f meanings amb (S (S n))) as [echoes' n']
    end.
    cbn [fst] in *. constructor; [by split | exact IH].
Qed.

Lemma applyChronicleTendency_echoes world chronicles :
  echoes (applyChronicleTendency world chronicles) = echoes world.
Proof. by destruct chronicles. Qed.

(** One turn: the logs are those of [executeAction], each meaning spawns
    an echo with ttl 3, and the echoes returned are the aged echoes of the
    world and of this turn. *)
Lemma simulateTurn_run world actions engine amb n :
  let result := (simulateTurn world actions engine amb n).1 in
  exists spawned : list Echo,
    Forall2 (fun m e => originMeaningId e = meaning_id m /\ ttl e = 3%Z)
            (result_meanings result) spawned /\
    echoes (result_world result) = updateEchoTTL (echoes world ++ spawned) /\
    result_logs result = (mapM executeAction actions amb n).1 /\
    turn (result_world result) = (turn world + 1)%Z.
Proof.
  intros result. subst result. unfold simulateTurn, bind.
  destruct (mapM executeAction actions amb n) as [logs' n1].
  destruct (evaluate engine logs' amb n1) as [meanings' n2].
  destruct (generateChronicleFromPressure_run
              (applyEchoToPressure (accumulateMeaningPressure world meanings'))
              amb n2)
    as (chronicles' & pressure' & lastTurn' & n3 & Hrun & _).
  rewrite Hrun.
  pose proof (generateEchoes_spawned meanings' amb n3) as Hspawned.
  destruct (generateEchoes meanings' amb n3) as [echoes' n4].
  exists echoes'. cbn [ret fst snd] in *.
  cbn [result_logs result_meanings result_world echoes turn].
  rewrite applyChronicleTendency_echoes. by repeat split.
Qed.

(** Every log of a turn keeps the actor, the type and the tags of its
    action and carries no target. *)
Lemma simulateTurn_logs_record world actions engine amb n :
  Forall2 records actions
          (result_logs (simulateTurn world actions engine amb n).1).
Proof.
  destruct (simulateTurn_run world actions engine amb n)
    as (spawned & _ & _ & Hlogs & _).
  rewrite Hlogs. apply executeAction_logs.
Qed.

(** C6, on an action with a target.  The log that [simulateTurn] produces
    for the proposal of npc-1 to speak to npc-2 keeps the actor, the type and
    the tags, and has no target: [executeAction] does not copy [targetId]. *)
Theorem simulateTurn_log_drops_targetId
    (world : ExtendedWorldState) (engine : list MeaningPlugin)
    (amb : Ambient) (n : nat) :
  exists log,
    result_logs (simulateTurn world [speak_to_neighbour] engine amb n).1
    = [log] /\
    log_actorId log = actorId speak_to_neighbour /\
    log_type log = type speak_to_neighbour /\
    log_tags log = tags speak_to_neighbour /\
    log_targetId log = None /\
    log_targetId log <> targetId speak_to_neighbour.
Proof.
  destruct (simulateTurn_run world [speak_to_neighbour] engine amb n)
    as (spawned & _ & _ & Hlogs & _).
  rewrite Hlogs. eexists. split; [reflexivity |]. by repeat split.
Qed.

(** *** The time to live of echoes *)

Lemma updateEchoTTL_filter (l : list Echo) :
  updateEchoTTL l = age_echo <$> filter (fun e => (1 < ttl e)%Z) l.
Proof.
  unfold updateEchoTTL. induction l as [| e l IH]; [done |].
  rewrite fmap_cons, !filter_cons, IH. cbn [age_echo ttl].
  destruct (decide (0 < ttl e - 1)%Z), (decide (1 < ttl e)%Z);
    try lia; done.
Qed.

Lemma updateEchoTTL_app (l1 l2 : list Echo) :
  updateEchoTTL (l1 ++ l2) = updateEchoTTL l1 ++ updateEchoTTL l2.
Proof. unfold updateEchoTTL. by rewrite fmap_app, filter_app. Qed.

Lemma updateEchoTTL_live (l : list Echo) (e : Echo) :
  e ∈ updateEchoTTL l -> (1 <= ttl e)%Z.
Proof.
  unfold updateEchoTTL. intros He. apply list_elem_of_filter in He as [He _].
  lia.
Qed.

Lemma updateEchoTTL_young (l : list Echo) :
  Forall (fun e => (1 < ttl e)%Z) l -> updateEchoTTL l = age_echo <$> l.
Proof.
  intros Hall. rewrite updateEchoTTL_filter.
  f_equal. induction Hall as [| e l He Hall IH]; [done |].
  rewrite filter_cons, decide_True by done. by rewrite IH.
Qed.

Lemma updateEchoTTL_last (l : list Echo) :
  Forall (fun e => (ttl e <= 1)%Z) l -> updateEchoTTL l = [].
Proof.
  intros Hall. rewrite updateEchoTTL_filter.
  induction Hall as [| e l He Hall IH]; [done |].
  rewrite filter_cons, decide_False by lia. exact IH.
Qed.

Lemma aged_ttl (k : Z) (l : list Echo) :
  Forall (fun e => ttl e = k) l ->
  Forall (fun e => ttl e = (k - 1)%Z) (age_echo <$> l).
Proof.
  intros Hall. apply Forall_fmap. eapply Forall_impl; [exact Hall |].
  intros e He. simpl. by rewrite He.
Qed.

Lemma spawned_ttl (meanings : list MeaningEvent) (spawned : list Echo) :
  Forall2 (fun m e => originMeaningId e = meaning_id m /\ ttl e = 3%Z)
          meanings spawned ->
  Forall (fun e => ttl e = 3%Z) spawned.
Proof.
  induction 1 as [| m e ms es [_ He] _ IH]; constructor; assumption.
Qed.

(** C10. Every echo of the world returned by [simulateTurn] has ttl at
    least 1.  Each meaning of the turn spawns one echo with ttl 3, and the
    echoes returned are the echoes of the input with ttl above 1 and the
    spawned echoes, all aged by one: a spawned echo is returned with ttl 2.
    Over three turns, the echoes spawned in the first are in the first
    returned world with ttl 2, in the second with ttl 1, and have no
    successor in the third. *)
Theorem simulateTurn_echo_lifetime :
  (forall world actions engine amb n e,
      e ∈ echoes (result_world (simulateTurn world actions engine amb n).1) ->
      (1 <= ttl e)%Z) /\
  (forall world actions engine amb n,
      let result := (simulateTurn world actions engine amb n).1 in
      exists spawned : list Echo,
        Forall2 (fun m e => originMeaningId e = meaning_id m /\ ttl e = 3%Z)
                (result_meanings result) spawned /\
        echoes (result_world result)
        = (age_echo <$> filter (fun e => (1 < ttl e)%Z) (echoes world))
          ++ (age_echo <$> spawned) /\
        Forall (fun e => ttl e = 2%Z) (age_echo <$> spawned)) /\
  (forall world0 actions1 actions2 actions3 engine amb n,
      let turn1 := simulateTurn world0 actions1 engine amb n in
      let turn2 :=
        simulateTurn (result_world turn1.1) actions2 engine amb turn1.2 in
      let turn3 :=
        simulateTurn (result_world turn2.1) actions3 engine amb turn2.2 in
      exists spawned1 spawned2 spawned3 : list Echo,
        Forall2 (fun m e => originMeaningId e = meaning_id m /\ ttl e = 3%Z)
                (result_meanings turn1.1) spawned1 /\
        Forall (fun e => ttl e = 2%Z) (age_echo <$> spawned1) /\
        Forall (fun e => ttl e = 1%Z) (age_echo <$> (age_echo <$> spawned1)) /\
        echoes (result_world turn1.1)
        = updateEchoTTL (echoes world0) ++ (age_echo <$> spawned1) /\
        echoes (result_world turn2.1)
        = updateEchoTTL (updateEchoTTL (echoes world0))
          ++ (age_echo <$> (age_echo <$> spawned1))
          ++ (age_echo <$> spawned2) /\
        echoes (result_world turn3.1)
        = updateEchoTTL (updateEchoTTL (updateEchoTTL (echoes world0)))
          ++ (age_echo <$> (age_echo <$> spawned2))
          ++ (age_echo <$> spawned3)).
Proof.
  assert (Hyoung : forall k l, (1 < k)%Z ->
             Forall (fun e => ttl e = k) l -> updateEchoTTL l = age_echo <$> l).
  { intros k l Hk Hall. apply updateEchoTTL_young.
    eapply Forall_impl; [exact Hall |]. intros e He. simpl in He. lia. }
  assert (Hturn : forall world actions engine amb n,
             exists spawned : list Echo,
               Forall2 (fun m e =>
                          originMeaningId e = meaning_id m /\ ttl e = 3%Z)
                       (result_meanings
                          (simulateTurn world actions engine amb n).1)
                       spawned /\
               echoes (result_world
                         (simulateTurn world actions engine amb n).1)
               = updateEchoTTL (echoes world) ++ (age_echo <$> spawned)).
  { intros world actions engine amb n.
    destruct (simulateTurn_run world actions engine amb n)
      as (spawned & Hspawned & Hechoes & _).
    exists spawned. split; [exact Hspawned |].
    rewrite Hechoes, updateEchoTTL_app. f_equal.
    apply (Hyoung 3%Z); [lia |]. by eapply spawned_ttl. }
  split; [| split].
  - intros world actions engine amb n e.
    destruct (simulateTurn_run world actions engine amb n)
      as (spawned & _ & -> & _).
    apply updateEchoTTL_live.
  - intros world actions engine amb n result. subst result.
    destruct (Hturn world actions engine amb n) as (spawned & Hs & He).
    exists spawned. split; [exact Hs |].
    split; [by rewrite He, updateEchoTTL_filter |].
    apply (aged_ttl 3%Z). by eapply spawned_ttl.
  - intros world0 actions1 actions2 actions3 engine amb n turn1 turn2 turn3.
    destruct (Hturn world0 actions1 engine amb n) as (s1 & Hs1 & He1).
    fold turn1 in Hs1, He1.
    destruct (Hturn (result_world turn1.1) actions2 engine amb turn1.2)
      as (s2 & Hs2 & He2).
    fold turn2 in Hs2, He2.
    destruct (Hturn (result_world turn2.1) actions3 engine amb turn2.2)
      as (s3 & Hs3 & He3).
    fold turn3 in Hs3, He3.
    pose proof (aged_ttl 3%Z s1 (spawned_ttl _ _ Hs1)) as Hs1_2.
    pose proof (aged_ttl _ _ Hs1_2) as Hs1_1.
    pose proof (aged_ttl 3%Z s2 (spawned_ttl _ _ Hs2)) as Hs2_2.
    exists s1, s2, s3.
    split; [exact Hs1 |]. split; [exact Hs1_2 |]. split; [exact Hs1_1 |].
    split; [exact He1 |].
    assert (He2' : echoes (result_world turn2.1)
                   = updateEchoTTL (updateEchoTTL (echoes world0))
                     ++ (age_echo <$> (age_echo <$> s1))
                     ++ (age_echo <$> s2)).
    { rewrite He2, He1, updateEchoTTL_app.
      rewrite (Hyoung 2%Z _ ltac:(lia) Hs1_2). by rewrite <- app_assoc. }
    split; [exact He2' |].
    rewrite He3, He2', !updateEchoTTL_app.
    rewrite (updateEchoTTL_last (age_echo <$> (age_echo <$> s1))).
    + rewrite (Hyoung 2%Z _ ltac:(lia) Hs2_2). by rewrite <- app_assoc.
    + eapply Forall_impl; [exact Hs1_1 |]. intros e He. simpl in He. lia.
Qed.

Lemma simulateTurn_echo_lifetime_witness :
  (1 <= ttl (age_echo dread_echo))%Z.
Proof.
  destruct simulateTurn_echo_lifetime as (Hlive & _).
  apply (Hlive (echoing_world [dread_echo; relief_echo]) [] []
               sample_ambient 0%nat).
  vm_compute. apply list_elem_of_here.
Defined.

(** One risky action and then two quiet turns: the FEAR echo comes back
    with ttl 2, then with ttl 1, and then it is gone. *)
Example echo_fades :
  let engine := [FearPlugin; TrustPlugin; RespectPlugin] in
  let action := {| actorId := "npc-1"; targetId := None; type := MOVE;
                   tags := [RISKY] |} in
  let turn1 := simulateTurn (fear_world 1 0) [action] engine sample_ambient 0%nat in
  let turn2 := simulateTurn (result_world turn1.1) [] engine sample_ambient turn1.2 in
  let turn3 := simulateTurn (result_world turn2.1) [] engine sample_ambient turn2.2 in
  ttl <$> echoes (result_world turn1.1) = [2%Z] /\
  ttl <$> echoes (result_world turn2.1) = [1%Z] /\
  ttl <$> echoes (result_world turn3.1) = [].
Proof. vm_compute. repeat split. Qed.

End EngineFacts.

(** * Properties of the further functions *)

(** ** modules/utilityAI.ts *)

Section NeedFacts.
Local Open Scope Q_scope.

(** X1. [updateNeeds] returns satisfaction levels within [[0, 1]] whatever
    the current levels and the deltas are; with no delta at all, levels that
    are within [[0, 1]] are kept. *)
Theorem updateNeeds_bounded :
  (forall current deltas, needs_in_range (updateNeeds current deltas)) /\
  (forall current,
      needs_in_range current ->
      same_needs (updateNeeds current no_deltas) current).
Proof.
  split.
  - intros current deltas. unfold needs_in_range, updateNeeds. simpl.
    repeat split; apply clamp_range; lra.
  - intros current (H1 & H2 & H3 & H4 & H5).
    unfold same_needs, updateNeeds. simpl.
    repeat split;
      (etransitivity; [apply clamp_compat; apply Qplus_0_r |]);
      apply clamp_inside; assumption.
Qed.

Lemma updateNeeds_bounded_witness :
  same_needs (updateNeeds createDefaultNeedState no_deltas)
             createDefaultNeedState.
Proof.
  destruct updateNeeds_bounded as [_ Hkeep]. apply Hkeep.
  unfold needs_in_range. simpl. lra.
Defined.

(** A satisfied need cannot rise above 1 and a starved one cannot fall
    below 0. *)
Example updateNeeds_saturates :
  let needs :=
    updateNeeds createDefaultNeedState
      {| d_survival := Some 0.5; d_safety := Some (-0.9); d_social := None;
         d_esteem := None; d_selfActualization := None |} in
  survival needs == 1 /\ safety needs == 0 /\ social needs == 0.5.
Proof. vm_compute. repeat split. Qed.

(** X2. The outcomes of [getActionOutcomes] of a MOVE, of a WAIT, of an
    ATTACK and of a SPEAK without target have probabilities that add up
    to 1.  A SPEAK at a target has two outcomes, of probabilities
    [0.7 + 0.2 * trust] and [0.3 - 0.2 * trust], where [trust] is the trust
    in the target, 0 without a relationship.  When that trust lies in
    [[-1, 1]], or there is no relationship, each probability of each action
    type lies in [[0, 1]]. *)
Theorem getActionOutcomes_distribution :
  (forall actionType hasTarget targetRelationship,
      actionType <> SPEAK \/ hasTarget = false ->
      total_probability
        (getActionOutcomes actionType hasTarget targetRelationship) == 1) /\
  (forall targetRelationship,
      let speakTrust := nullish (ties_trust <$> targetRelationship) 0 in
      probability <$> getActionOutcomes SPEAK true targetRelationship
      = [0.7 + 0.2 * speakTrust; 0.3 - 0.2 * speakTrust]) /\
  (forall actionType hasTarget targetRelationship,
      (forall ties, targetRelationship = Some ties ->
                    -1 <= ties_trust ties <= 1) ->
      Forall (fun o => 0 <= probability o <= 1)
             (getActionOutcomes actionType hasTarget targetRelationship)).
Proof.
  split; [| split].
  - intros [] [] rel [Htype | Htarget]; try done;
      unfold getActionOutcomes; cbn [negb]; reflexivity.
  - intros rel. reflexivity.
  - intros [] [] rel Hrel; unfold getActionOutcomes; cbn [negb];
      repeat apply Forall_cons_2; try apply Forall_nil_2; simpl;
      try lra.
    + destruct rel as [ties |]; simpl; [specialize (Hrel ties eq_refl) |];
        lra.
    + destruct rel as [ties |]; simpl; [specialize (Hrel ties eq_refl) |];
        lra.
Qed.

Lemma getActionOutcomes_distribution_witness :
  Forall (fun o => 0 <= probability o <= 1)
         (getActionOutcomes SPEAK true
            (Some {| ties_trust := -1; ties_intimacy := 0.2 |})) /\
  total_probability (getActionOutcomes ATTACK true None) == 1.
Proof.
  destruct getActionOutcomes_distribution as (Hsum & _ & Hrange).
  split.
  - apply Hrange. intros ties [= <-]. simpl. lra.
  - apply Hsum. by left.
Defined.

End NeedFacts.

Section HashFacts.
Local Open Scope Z_scope.

Lemma ToInt32_range (z : Z) : - 2 ^ 31 <= ToInt32 z < 2 ^ 31.
Proof.
  unfold ToInt32.
  pose proof (Z.mod_pos_bound (z + 2 ^ 31) (2 ^ 32) ltac:(lia)). lia.
Qed.

Lemma ToInt32_small (z : Z) : - 2 ^ 31 <= z < 2 ^ 31 -> ToInt32 z = z.
Proof.
  intros Hz. unfold ToInt32. rewrite Z.mod_small by lia. lia.
Qed.

(** [ToInt32] keeps the residue modulo [2^32] and depends on it only. *)
Lemma ToInt32_mod (z : Z) : ToInt32 z mod 2 ^ 32 = z mod 2 ^ 32.
Proof.
  unfold ToInt32. rewrite Zminus_mod_idemp_l. f_equal. lia.
Qed.

Lemma ToInt32_eq (a b : Z) :
  a mod 2 ^ 32 = b mod 2 ^ 32 -> ToInt32 a = ToInt32 b.
Proof.
  intros H. unfold ToInt32.
  rewrite (Zplus_mod a), H, <- Zplus_mod. reflexivity.
Qed.

Lemma hash_body_polynomial (hash : Z) (char : ascii) :
  - 2 ^ 31 <= hash < 2 ^ 31 ->
  hash_body hash char = ToInt32 (31 * hash + Z.of_nat (nat_of_ascii char)).
Proof.
  intros Hh. unfold hash_body.
  rewrite Z.land_diag, (ToInt32_small hash Hh), Z.shiftl_mul_pow2 by lia.
  rewrite ToInt32_small by apply ToInt32_range.
  set (c := Z.of_nat (nat_of_ascii char)).
  apply ToInt32_eq.
  replace (ToInt32 (hash * 2 ^ 5) - hash + c)
    with (ToInt32 (hash * 2 ^ 5) + (- hash + c)) by lia.
  rewrite Zplus_mod, ToInt32_mod, <- Zplus_mod. f_equal. lia.
Qed.

Lemma hash_loop_polynomial (chars : list ascii) :
  foldl hash_body 0 chars
  = ToInt32 (foldl (fun h c => 31 * h + Z.of_nat (nat_of_ascii c)) 0 chars).
Proof.
  induction chars as [| c chars IH] using rev_ind; [done |].
  rewrite !foldl_app. cbn [foldl]. rewrite IH.
  rewrite hash_body_polynomial by apply ToInt32_range.
  set (p := foldl _ 0 chars).
  apply ToInt32_eq.
  rewrite Zplus_mod, Zmult_mod, ToInt32_mod, <- Zmult_mod, <- Zplus_mod.
  reflexivity.
Qed.

(** X3. [hashToFloat] is the polynomial hash with multiplier 31 of the
    character codes, wrapped to a signed 32-bit integer, whose absolute
    value modulo 10000 is divided by 10000: a multiple of 0.0001 between 0
    and 0.9999.  [hashToIndex] takes the same hash modulo the length of an
    array, which is an index of the array, so [selectFromArray] finds an
    element in every array that is not empty. *)
Theorem hashToFloat_range (input : string) :
  hashToFloat input
  = (inject_Z (Z.abs (ToInt32 (polynomial_hash input)) mod 10000)
     / 10000)%Q /\
  (0 <= hashToFloat input)%Q /\ (hashToFloat input <= 0.9999)%Q /\
  (forall arrayLength,
      0 < arrayLength ->
      hashToIndex input arrayLength
      = Z.abs (ToInt32 (polynomial_hash input)) mod arrayLength /\
      0 <= hashToIndex input arrayLength < arrayLength) /\
  (forall (T : Type) (arr : list T),
      arr <> [] -> is_Some (selectFromArray arr input)).
Proof.
  assert (Hindex : forall arrayLength,
    0 < arrayLength ->
    hashToIndex input arrayLength
    = Z.abs (ToInt32 (polynomial_hash input)) mod arrayLength /\
    0 <= hashToIndex input arrayLength < arrayLength).
  { intros arrayLength Hlen. unfold hashToIndex, polynomial_hash.
    rewrite hash_loop_polynomial. set (h := ToInt32 _).
    rewrite Z.rem_mod_nonneg by lia.
    split; [reflexivity |]. apply Z.mod_pos_bound. lia. }
  unfold hashToFloat, polynomial_hash. rewrite hash_loop_polynomial.
  fold (polynomial_hash input). set (h := ToInt32 _).
  assert (Hrem : Z.rem (Z.abs h) 10000 = Z.abs h mod 10000)
    by (apply Z.rem_mod_nonneg; lia).
  rewrite Hrem. split; [reflexivity |].
  pose proof (Z.mod_pos_bound (Z.abs h) 10000 ltac:(lia)) as Hb.
  set (k := Z.abs h mod 10000) in *.
  split; [| split; [| split; [exact Hindex |]]].
  - apply Qle_shift_div_l; [reflexivity |].
    rewrite Qmult_0_l. change 0%Q with (inject_Z 0).
    rewrite <- Zle_Qle. lia.
  - apply Qle_shift_div_r; [reflexivity |].
    apply Qle_trans with (inject_Z 9999); [rewrite <- Zle_Qle; lia |].
    discriminate.
  - intros T arr Hne. unfold selectFromArray.
    destruct (Hindex (Z.of_nat (length arr))) as [_ Hrange].
    { destruct arr; [done | cbn [length]; lia]. }
    destruct (Z.ltb_spec (hashToIndex input (Z.of_nat (length arr))) 0)
      as [Hneg | _]; [lia |].
    apply lookup_lt_is_Some_2. lia.
Qed.

Lemma hashToFloat_range_witness :
  (0 <= hashToIndex "npc-1:MOVE:none" 3 < 3) /\
  is_Some (selectFromArray [MOVE; WAIT; SPEAK] "npc-1:MOVE:none").
Proof.
  destruct (hashToFloat_range "npc-1:MOVE:none") as (_ & _ & _ & Hi & Hs).
  split.
  - apply Hi. lia.
  - apply Hs. discriminate.
Defined.

Example hashToFloat_ab : (hashToFloat "ab" == 0.3105)%Q.
Proof. reflexivity. Qed.

End HashFacts.

(** ** modules/socialGraph.ts: building the graph *)

Section GraphBuildFacts.
Local Open Scope Q_scope.

(** X4. [addCharacterNode] leaves a graph that already has the node as it
    is, and otherwise adds the node with empty adjacency lists; it never
    touches another node or a relationship, and adding twice is adding
    once. *)
Theorem addCharacterNode_once (graph : SocialGraphState) (id : string) :
  relationships (addCharacterNode graph id) = relationships graph /\
  (forall node, nodes graph !! id = Some node ->
                addCharacterNode graph id = graph) /\
  (nodes graph !! id = None ->
   nodes (addCharacterNode graph id) !! id = Some (fresh_node id)) /\
  (forall id', id' <> id ->
               nodes (addCharacterNode graph id) !! id' = nodes graph !! id') /\
  addCharacterNode (addCharacterNode graph id) id = addCharacterNode graph id.
Proof.
  assert (Hsome : forall node, nodes graph !! id = Some node ->
                               addCharacterNode graph id = graph).
  { intros node H. unfold addCharacterNode. by rewrite H. }
  assert (Hnone : nodes graph !! id = None ->
                  addCharacterNode graph id
                  = {| nodes := <[id := fresh_node id]> (nodes graph);
                       relationships := relationships graph |}).
  { intros H. unfold addCharacterNode. by rewrite H. }
  destruct (nodes graph !! id) as [node |] eqn:Hnode.
  - rewrite !(Hsome node eq_refl). by repeat split.
  - rewrite !(Hnone eq_refl). cbn [nodes relationships].
    split; [done |]. split; [done |].
    split; [intros _; by rewrite lookup_insert_eq |].
    split; [intros id' Hne; by rewrite lookup_insert_ne |].
    unfold addCharacterNode. cbn [nodes]. by rewrite lookup_insert_eq.
Qed.

Lemma addCharacterNode_once_witness :
  addCharacterNode sample_graph "a" = sample_graph /\
  nodes (addCharacterNode sample_graph "c") !! "c" = Some (fresh_node "c") /\
  nodes (addCharacterNode sample_graph "c") !! "a"
  = nodes sample_graph !! "a".
Proof.
  split; [| split].
  - destruct (addCharacterNode_once sample_graph "a") as (_ & Hkeep & _).
    eapply Hkeep. reflexivity.
  - destruct (addCharacterNode_once sample_graph "c") as (_ & _ & Hnew & _).
    apply Hnew. reflexivity.
  - destruct (addCharacterNode_once sample_graph "c")
      as (_ & _ & _ & Hother & _).
    apply Hother. discriminate.
Defined.

(** X5. After [upsertRelationship] the edge can be read back with
    [getRelationship]: its last-interaction turn is the current turn and its
    weights are within their ranges; an edge that did not exist is created
    with the clamped deltas and one interaction; every relationship under
    another id is unchanged, and no node is added or removed. *)
Theorem upsertRelationship_lookup
    (graph : SocialGraphState) (sourceId targetId : string) (delta : Delta)
    (currentTurn : Z) :
  let graph' :=
    upsertRelationship graph sourceId targetId delta currentTurn in
  (exists rel,
      getRelationship graph' sourceId targetId = Some rel /\
      lastInteractionTurn rel = currentTurn /\
      relationship_in_range rel) /\
  (getRelationship graph sourceId targetId = None ->
   getRelationship graph' sourceId targetId
   = Some {| rel_sourceId := sourceId; rel_targetId := targetId;
             trust := clamp (nullish (delta_trust delta) 0) (-1) 1;
             intimacy := clamp (nullish (delta_intimacy delta) 0) 0 1;
             interactions := 1; lastInteractionTurn := currentTurn |}) /\
  (forall id, id <> createRelationshipId sourceId targetId ->
              relationships graph' !! id = relationships graph !! id) /\
  dom (nodes graph') = dom (nodes graph).
Proof.
  intros graph'. subst graph'. unfold getRelationship.
  set (relationId := createRelationshipId sourceId targetId).
  unfold upsertRelationship. fold relationId. cbn [relationships nodes].
  split; [| split; [| split]].
  - rewrite lookup_insert_eq. eexists. split; [reflexivity |].
    destruct (relationships graph !! relationId); cbn;
      (split; [reflexivity |]); split; apply clamp_range; lra.
  - intros Hnone. rewrite lookup_insert_eq. by rewrite Hnone.
  - intros id Hne. by rewrite lookup_insert_ne.
  - set (nodes1 :=
           match nodes graph !! sourceId with
           | Some sourceNode =>
               if negb (includes_id (outgoingRelations sourceNode) relationId)
               then <[sourceId := _]> (nodes graph) else nodes graph
           | None => nodes graph
           end).
    assert (H1 : dom nodes1 = dom (nodes graph)).
    { subst nodes1. destruct (nodes graph !! sourceId) as [n |] eqn:Hs; [| done].
      destruct (negb _); [| done].
      by apply dom_insert_lookup_L. }
    rewrite <- H1.
    destruct (nodes1 !! targetId) as [n |] eqn:Ht; [| done].
    destruct (negb _); [| done].
    by apply dom_insert_lookup_L.
Qed.

Lemma upsertRelationship_lookup_witness :
  getRelationship
    (upsertRelationship sample_graph "b" "a"
       {| delta_trust := Some (-3); delta_intimacy := None |} 6) "b" "a"
  = Some {| rel_sourceId := "b"; rel_targetId := "a";
            trust := clamp (-3) (-1) 1; intimacy := clamp 0 0 1;
            interactions := 1; lastInteractionTurn := 6 |} /\
  relationships
    (upsertRelationship sample_graph "b" "a"
       {| delta_trust := Some (-3); delta_intimacy := None |} 6) !! "a->b"
  = relationships sample_graph !! "a->b".
Proof.
  destruct (upsertRelationship_lookup sample_graph "b" "a"
              {| delta_trust := Some (-3); delta_intimacy := None |} 6)
    as (_ & Hnew & Hother & _).
  split.
  - apply Hnew. reflexivity.
  - apply Hother. discriminate.
Defined.

(** X6. In every graph built from the empty graph by [addCharacterNode],
    by [upsertRelationship] with any deltas, and by [decayRelationships]
    run at turns that are not before the last interaction of an edge, in
    any order, every trust lies in [[-1, 1]] and every intimacy in
    [[0, 1]]. *)
Theorem built_graph_in_range (graph : SocialGraphState) :
  built_graph graph -> graph_in_range graph.
Proof.
  induction 1.
  - apply createEmptySocialGraph_in_range.
  - by apply addCharacterNode_in_range.
  - by apply upsertRelationship_in_range.
  - apply decayRelationships_in_range.
Qed.

Lemma built_graph_in_range_witness :
  graph_in_range
    (decayRelationships
       (upsertRelationship
          (upsertRelationship (addCharacterNode createEmptySocialGraph "a")
             "a" "b" {| delta_trust := Some 0.9; delta_intimacy := None |} 1)
          "a" "b" {| delta_trust := Some 0.9; delta_intimacy := Some 7 |} 2)
       40).
Proof.
  assert (Hturn :
            not_before_interactions
              (upsertRelationship
                 (upsertRelationship
                    (addCharacterNode createEmptySocialGraph "a")
                    "a" "b"
                    {| delta_trust := Some 0.9; delta_intimacy := None |} 1)
                 "a" "b"
                 {| delta_trust := Some 0.9; delta_intimacy := Some 7 |} 2)
              40).
  { intros id rel. unfold upsertRelationship at 1. cbn [relationships].
    destruct (decide (id = createRelationshipId "a" "b")) as [-> | Hne].
    - rewrite lookup_insert_eq. intros [= <-]. vm_compute. discriminate.
    - rewrite lookup_insert_ne by done.
      unfold upsertRelationship. cbn [relationships].
      rewrite lookup_insert_ne by done. done. }
  exact (built_graph_in_range _
           (built_decay _ _
              (built_upsert _ _ _ _ _
                 (built_upsert _ _ _ _ _
                    (built_node _ _ built_empty)))
              Hturn)).
Defined.

End GraphBuildFacts.

Section AdjacencyFacts.
Local Open Scope Q_scope.

Lemma list_outgoing_listed relationId node :
  includes_id (outgoingRelations node) relationId = true ->
  list_outgoing relationId node = node.
Proof. intros H. unfold list_outgoing. rewrite H. by destruct node. Qed.

Lemma list_incoming_listed relationId node :
  includes_id (incomingRelations node) relationId = true ->
  list_incoming relationId node = node.
Proof. intros H. unfold list_incoming. rewrite H. by destruct node. Qed.

(** The nodes after an upsert, node by node. *)
Lemma upsertRelationship_node graph sourceId targetId delta currentTurn id :
  nodes (upsertRelationship graph sourceId targetId delta currentTurn) !! id
  = (fun node =>
       let relationId := createRelationshipId sourceId targetId in
       let node :=
         if decide (id = sourceId) then list_outgoing relationId node
         else node in
       if decide (id = targetId) then list_incoming relationId node else node)
      <$> nodes graph !! id.
Proof.
  unfold upsertRelationship. cbn [nodes].
  set (relationId := createRelationshipId sourceId targetId).
  set (nodes1 :=
         match nodes graph !! sourceId with
         | Some sourceNode =>
             if negb (includes_id (outgoingRelations sourceNode) relationId)
             then <[sourceId := _]> (nodes graph) else nodes graph
         | None => nodes graph
         end).
  assert (H1 : forall id,
             nodes1 !! id
             = (fun node => if decide (id = sourceId)
                            then list_outgoing relationId node else node)
                 <$> nodes graph !! id).
  { intros i. subst nodes1.
    destruct (decide (i = sourceId)) as [-> | Hne].
    - destruct (nodes graph !! sourceId) as [n |] eqn:Hs; [| by rewrite Hs].
      destruct (includes_id (outgoingRelations n) relationId) eqn:Hin;
        cbn [negb].
      + rewrite Hs. cbn. by rewrite list_outgoing_listed.
      + rewrite lookup_insert_eq. cbn. unfold list_outgoing. by rewrite Hin.
    - destruct (nodes graph !! sourceId) as [n |];
        [destruct (negb _); [rewrite lookup_insert_ne by done |] |];
        by destruct (nodes graph !! i). }
  destruct (decide (id = targetId)) as [-> | Hne].
  - destruct (nodes1 !! targetId) as [n |] eqn:Ht.
    + rewrite H1 in Ht.
      destruct (includes_id (incomingRelations n) relationId) eqn:Hin;
        cbn [negb].
      * rewrite H1. destruct (nodes graph !! targetId); [| done].
        cbn in *. injection Ht as ->. by rewrite list_incoming_listed.
      * rewrite lookup_insert_eq.
        destruct (nodes graph !! targetId); [| done].
        cbn in *. injection Ht as ->. unfold list_incoming. by rewrite Hin.
    + rewrite Ht. rewrite H1 in Ht.
      by destruct (nodes graph !! targetId).
  - destruct (nodes1 !! targetId) as [n |];
      [destruct (negb _); [rewrite lookup_insert_ne by done |] |];
      rewrite H1; by destruct (nodes graph !! id).
Qed.

Lemma elem_of_list_outgoing relationId node r :
  r ∈ outgoingRelations (list_outgoing relationId node)
  <-> r ∈ outgoingRelations node \/ r = relationId.
Proof.
  unfold list_outgoing, includes_id. cbn.
  case_bool_decide as Hin.
  - split; [by left | intros [? | ->]; done].
  - rewrite elem_of_app, list_elem_of_singleton. done.
Qed.

Lemma elem_of_list_incoming relationId node r :
  r ∈ incomingRelations (list_incoming relationId node)
  <-> r ∈ incomingRelations node \/ r = relationId.
Proof.
  unfold list_incoming, includes_id. cbn.
  case_bool_decide as Hin.
  - split; [by left | intros [? | ->]; done].
  - rewrite elem_of_app, list_elem_of_singleton. done.
Qed.

Lemma NoDup_list_outgoing relationId node :
  NoDup (outgoingRelations node) ->
  NoDup (outgoingRelations (list_outgoing relationId node)).
Proof.
  intros Hnd. unfold list_outgoing, includes_id. cbn.
  case_bool_decide as Hin; [done |].
  apply NoDup_app. split; [done |]. split; [| apply NoDup_singleton].
  intros x Hx Hx'. apply list_elem_of_singleton in Hx'. by subst.
Qed.

Lemma NoDup_list_incoming relationId node :
  NoDup (incomingRelations node) ->
  NoDup (incomingRelations (list_incoming relationId node)).
Proof.
  intros Hnd. unfold list_incoming, includes_id. cbn.
  case_bool_decide as Hin; [done |].
  apply NoDup_app. split; [done |]. split; [| apply NoDup_singleton].
  intros x Hx Hx'. apply list_elem_of_singleton in Hx'. by subst.
Qed.

(** X7. [upsertRelationship] keeps the set of nodes and changes the
    adjacency lists in one way only: the id of the edge is listed among the
    outgoing relations of the source node and among the incoming relations of
    the target node, when these nodes exist; no id is removed, none is
    listed twice if none was before. *)
Theorem upsertRelationship_adjacency
    (graph : SocialGraphState) (sourceId targetId : string) (delta : Delta)
    (currentTurn : Z) :
  let relationId := createRelationshipId sourceId targetId in
  let graph' :=
    upsertRelationship graph sourceId targetId delta currentTurn in
  (forall id node,
      nodes graph !! id = Some node ->
      exists node',
        nodes graph' !! id = Some node' /\
        node_id node' = node_id node /\
        (forall r, r ∈ outgoingRelations node'
                   <-> r ∈ outgoingRelations node
                       \/ (r = relationId /\ id = sourceId)) /\
        (forall r, r ∈ incomingRelations node'
                   <-> r ∈ incomingRelations node
                       \/ (r = relationId /\ id = targetId))) /\
  (forall id, nodes graph !! id = None -> nodes graph' !! id = None) /\
  (listed_once graph -> listed_once graph').
Proof.
  intros relationId graph'. subst graph'.
  split; [| split].
  - intros id node Hnode. eexists.
    rewrite upsertRelationship_node, Hnode. split; [reflexivity |].
    fold relationId. cbv beta zeta.
    assert (Hio : forall n, incomingRelations (list_outgoing relationId n)
                            = incomingRelations n) by done.
    assert (Hoi : forall n, outgoingRelations (list_incoming relationId n)
                            = outgoingRelations n) by done.
    destruct (decide (id = sourceId)), (decide (id = targetId));
      (split; [reflexivity |]); split; intros r;
      rewrite ?Hio, ?Hoi, ?elem_of_list_outgoing, ?elem_of_list_incoming,
        ?Hio, ?Hoi, ?elem_of_list_outgoing, ?elem_of_list_incoming;
      tauto.
  - intros id Hnone. by rewrite upsertRelationship_node, Hnone.
  - intros Honce id node'. rewrite upsertRelationship_node.
    destruct (nodes graph !! id) as [node |] eqn:Hnode; [| done].
    destruct (Honce id node Hnode) as [Hout Hin].
    cbn [fmap option_fmap option_map]. intros [= <-]. fold relationId.
    destruct (decide (id = sourceId)), (decide (id = targetId));
      split; try done;
      repeat first [ apply NoDup_list_outgoing | apply NoDup_list_incoming ];
      done.
Qed.

Lemma upsertRelationship_adjacency_witness :
  listed_once
    (upsertRelationship sample_graph "a" "a"
       {| delta_trust := None; delta_intimacy := None |} 4) /\
  exists node',
    nodes (upsertRelationship sample_graph "a" "a"
             {| delta_trust := None; delta_intimacy := None |} 4) !! "a"
    = Some node' /\
    ("a->a"%string ∈ outgoingRelations node') /\
    ("a->a"%string ∈ incomingRelations node').
Proof.
  destruct (upsertRelationship_adjacency sample_graph "a" "a"
              {| delta_trust := None; delta_intimacy := None |} 4)
    as (Hnodes & _ & Honce).
  split.
  - apply Honce. intros id node Hnode.
    destruct (decide (id = "a"%string)) as [-> | Ha];
      [| destruct (decide (id = "b"%string)) as [-> | Hb]].
    + vm_compute in Hnode. injection Hnode as <-.
      split; [apply NoDup_singleton | apply NoDup_nil_2].
    + vm_compute in Hnode. injection Hnode as <-.
      split; [apply NoDup_nil_2 | apply NoDup_singleton].
    + unfold sample_graph in Hnode. cbn [nodes] in Hnode.
      rewrite lookup_insert_ne, lookup_singleton_ne in Hnode by done.
      discriminate.
  - destruct (Hnodes "a"%string
                {| node_id := "a"; outgoingRelations := ["a->b"%string];
                   incomingRelations := [] |} eq_refl)
      as (node' & Hnode' & _ & Hout & Hin).
    exists node'. split; [exact Hnode' |].
    split; [apply Hout | apply Hin]; right; done.
Defined.

End AdjacencyFacts.

(** ** modules/socialGraph.ts: decay and queries *)

Section DecayFacts.
Local Open Scope Q_scope.

(** X8. [decayRelationships] keeps the nodes, the set of edges and, on every
    edge, the interaction count and the last-interaction turn.  As the turn
    of the last interaction is not moved, a second decay measures its idle
    time from the same turn as the first: for an edge within the ranges of
    the data model and two turns not before its last interaction, decaying
    at the first and then at the second turn multiplies the trust by
    [(1 - 0.02)] to the first idle time and then by [(1 - 0.02)] to the
    second, whole, idle time, and the intimacy by the same powers of
    [(1 - 0.01)], one multiplication after the other. *)
Theorem decayRelationships_compounds :
  (forall graph currentTurn,
      nodes (decayRelationships graph currentTurn) = nodes graph /\
      dom (relationships (decayRelationships graph currentTurn))
      = dom (relationships graph) /\
      forall id rel',
        relationships (decayRelationships graph currentTurn) !! id
        = Some rel' ->
        exists rel,
          relationships graph !! id = Some rel /\
          interactions rel' = interactions rel /\
          lastInteractionTurn rel' = lastInteractionTurn rel /\
          rel_sourceId rel' = rel_sourceId rel /\
          rel_targetId rel' = rel_targetId rel) /\
  (forall graph turn1 turn2 id rel,
      relationships graph !! id = Some rel ->
      relationship_in_range rel ->
      (lastInteractionTurn rel <= turn1)%Z ->
      (lastInteractionTurn rel <= turn2)%Z ->
      exists rel'',
        relationships
          (decayRelationships (decayRelationships graph turn1) turn2) !! id
        = Some rel'' /\
        rel'' = decay_relationship turn2 (decay_relationship turn1 rel) /\
        trust rel''
        == trust rel * (1 - 0.02) ^ (turn1 - lastInteractionTurn rel)
           * (1 - 0.02) ^ (turn2 - lastInteractionTurn rel) /\
        intimacy rel''
        == intimacy rel * (1 - 0.01) ^ (turn1 - lastInteractionTurn rel)
           * (1 - 0.01) ^ (turn2 - lastInteractionTurn rel)).
Proof.
  split.
  - intros graph currentTurn. split; [done |].
    split; [by rewrite decayRelationships_fmap, dom_fmap_L |].
    intros id rel'. rewrite decayRelationships_fmap, lookup_fmap.
    destruct (relationships graph !! id) as [rel |]; [| done].
    intros [= <-]. by exists rel.
  - intros graph turn1 turn2 id rel Hrel [[Ht0 Ht1] [Hi0 Hi1]] H1 H2.
    exists (decay_relationship turn2 (decay_relationship turn1 rel)).
    split; [by rewrite !decayRelationships_fmap, !lookup_fmap, Hrel |].
    set (d1 := (turn1 - lastInteractionTurn rel)%Z).
    set (d2 := (turn2 - lastInteractionTurn rel)%Z).
    destruct (Qpower_unit_interval (1 - 0.02) d1) as [Ha0 Ha1];
      [lra | lra | unfold d1; lia |].
    destruct (Qpower_unit_interval (1 - 0.02) d2) as [Hb0 Hb1];
      [lra | lra | unfold d2; lia |].
    destruct (Qpower_unit_interval (1 - 0.01) d1) as [Hc0 Hc1];
      [lra | lra | unfold d1; lia |].
    destruct (Qpower_unit_interval (1 - 0.01) d2) as [Hd0 Hd1];
      [lra | lra | unfold d2; lia |].
    split; [reflexivity |].
    cbn [trust intimacy decay_relationship lastInteractionTurn].
    unfold Math_pow, TRUST_DECAY_RATE, INTIMACY_DECAY_RATE.
    fold d1 d2.
    assert (E1 : clamp (trust rel * (1 - 0.02) ^ d1) (-1) 1
                 == trust rel * (1 - 0.02) ^ d1)
      by (apply clamp_inside; nra).
    assert (E2 : clamp (intimacy rel * (1 - 0.01) ^ d1) 0 1
                 == intimacy rel * (1 - 0.01) ^ d1)
      by (apply clamp_inside; nra).
    pose proof (clamp_range (trust rel * (1 - 0.02) ^ d1) (-1) 1
                  ltac:(lra)) as R1.
    pose proof (clamp_range (intimacy rel * (1 - 0.01) ^ d1) 0 1
                  ltac:(lra)) as R2.
    split.
    + transitivity (clamp (trust rel * (1 - 0.02) ^ d1) (-1) 1
                    * (1 - 0.02) ^ d2).
      { apply clamp_inside. nra. }
      by rewrite E1.
    + transitivity (clamp (intimacy rel * (1 - 0.01) ^ d1) 0 1
                    * (1 - 0.01) ^ d2).
      { apply clamp_inside. nra. }
      by rewrite E2.
Qed.

Lemma decayRelationships_compounds_witness :
  exists rel'',
    relationships
      (decayRelationships (decayRelationships sample_graph 4) 5) !! "a->b"
    = Some rel'' /\
    trust rel'' == 0.5 * (1 - 0.02) ^ (4 - 3) * (1 - 0.02) ^ (5 - 3).
Proof.
  destruct decayRelationships_compounds as [_ Hcompound].
  destruct (Hcompound sample_graph 4%Z 5%Z "a->b"%string sample_relationship)
    as (rel'' & Hrel'' & _ & Htrust & _).
  - reflexivity.
  - unfold relationship_in_range. simpl. lra.
  - simpl. lia.
  - simpl. lia.
  - exists rel''. split; [exact Hrel'' | exact Htrust].
Defined.

(** X9. [getBidirectionalRelationship] does not depend on the order of the
    two characters; a missing direction counts as trust 0 and intimacy 0, so
    with neither direction present both averages are 0; on a graph within
    the ranges of the data model the averages are within these ranges. *)
Theorem getBidirectionalRelationship_symmetric
    (graph : SocialGraphState) (idA idB : string) :
  (ties_trust (getBidirectionalRelationship graph idA idB)
   == ties_trust (getBidirectionalRelationship graph idB idA) /\
   ties_intimacy (getBidirectionalRelationship graph idA idB)
   == ties_intimacy (getBidirectionalRelationship graph idB idA)) /\
  (getRelationship graph idA idB = None ->
   getRelationship graph idB idA = None ->
   ties_trust (getBidirectionalRelationship graph idA idB) == 0 /\
   ties_intimacy (getBidirectionalRelationship graph idA idB) == 0) /\
  (graph_in_range graph ->
   -1 <= ties_trust (getBidirectionalRelationship graph idA idB) <= 1 /\
   0 <= ties_intimacy (getBidirectionalRelationship graph idA idB) <= 1).
Proof.
  unfold getBidirectionalRelationship. cbn [ties_trust ties_intimacy].
  split; [split; field |].
  split.
  - intros -> ->. cbn. split; reflexivity.
  - intros Hrange. unfold getRelationship.
    assert (Hside : forall id,
               -1 <= nullish (trust <$> relationships graph !! id) 0 <= 1 /\
               0 <= nullish (intimacy <$> relationships graph !! id) 0 <= 1).
    { intros id. destruct (relationships graph !! id) as [rel |] eqn:Hrel.
      - apply (Hrange id rel Hrel).
      - cbn. lra. }
    destruct (Hside (createRelationshipId idA idB)) as [[? ?] [? ?]].
    destruct (Hside (createRelationshipId idB idA)) as [[? ?] [? ?]].
    split; split;
      first [ apply Qle_shift_div_l; [reflexivity | lra]
            | apply Qle_shift_div_r; [reflexivity | lra] ].
Qed.

Lemma getBidirectionalRelationship_symmetric_witness :
  ties_trust (getBidirectionalRelationship sample_graph "c" "d") == 0 /\
  -1 <= ties_trust (getBidirectionalRelationship sample_graph "b" "a") <= 1.
Proof.
  split.
  - destruct (getBidirectionalRelationship_symmetric sample_graph "c" "d")
      as (_ & Hnone & _).
    apply Hnone; reflexivity.
  - destruct (getBidirectionalRelationship_symmetric sample_graph "b" "a")
      as (_ & _ & Hrange).
    apply Hrange.
    intros id rel Hrel.
    destruct (decide (id = "a->b"%string)) as [-> | Hne].
    + vm_compute in Hrel. injection Hrel as <-.
      unfold relationship_in_range. simpl. lra.
    + unfold sample_graph in Hrel. cbn [relationships] in Hrel.
      rewrite lookup_singleton_ne in Hrel by done. discriminate.
Defined.

(** One direction only: the averages are half the weights of that
    direction. *)
Example getBidirectionalRelationship_one_way :
  ties_trust (getBidirectionalRelationship sample_graph "b" "a") == 0.25 /\
  ties_intimacy (getBidirectionalRelationship sample_graph "b" "a") == 0.2.
Proof. vm_compute. split; reflexivity. Qed.

End DecayFacts.

Section BestFacts.
Local Open Scope Q_scope.

Variable better : Q -> option Q -> bool.
Variable ge : Q -> Q -> Prop.
Hypothesis better_first : forall x, better x None = true.
Hypothesis better_true : forall x b, better x (Some b) = true -> ge x b.
Hypothesis better_false : forall x b, better x (Some b) = false -> ge b x.
Hypothesis ge_refl : forall x, ge x x.
Hypothesis ge_trans : forall x y z, ge x y -> ge y z -> ge x z.

Lemma best_step_spec (seen : list (string * Q)) (st : option Q * option string)
    (entry : string * Q) :
  is_best ge seen st -> is_best ge (seen ++ [entry]) (best_step better st entry).
Proof using All.
  destruct st as [[b |] [label |]]; cbn; try done.
  - intros [Hin Hall]. unfold best_step. cbn.
    destruct (better entry.2 (Some b)) eqn:E; cbn.
    + split; [apply elem_of_app; right; destruct entry; by left |].
      intros e [He | He%list_elem_of_singleton]%elem_of_app.
      * eapply ge_trans; [by apply better_true | by apply Hall].
      * subst. apply ge_refl.
    + split; [apply elem_of_app; by left |].
      intros e [He | He%list_elem_of_singleton]%elem_of_app.
      * by apply Hall.
      * subst. by apply better_false.
  - intros ->. unfold best_step. cbn. rewrite better_first. cbn.
    split; [destruct entry; by left |].
    intros e He%list_elem_of_singleton. subst. apply ge_refl.
Qed.

Lemma best_scan_spec (entries seen : list (string * Q))
    (st : option Q * option string) :
  is_best ge seen st ->
  is_best ge (seen ++ entries) (foldl (best_step better) st entries).
Proof using All.
  revert seen st. induction entries as [| e entries IH]; intros seen st Hst.
  - by rewrite app_nil_r.
  - cbn. replace (seen ++ e :: entries) with ((seen ++ [e]) ++ entries)
      by (by rewrite <- app_assoc).
    apply IH. by apply best_step_spec.
Qed.

(** The label found is that of a best entry; nothing is found only when
    there is no entry. *)
Lemma best_scan_result (entries : list (string * Q)) :
  let result := (foldl (best_step better) (None, None) entries).2 in
  (result = None <-> entries = []) /\
  (forall label,
      result = Some label ->
      exists score,
        (label, score) ∈ entries /\ forall e, e ∈ entries -> ge score e.2).
Proof using All.
  intros result. subst result.
  pose proof (best_scan_spec entries [] (None, None) eq_refl) as H.
  rewrite app_nil_l in H.
  destruct (foldl (best_step better) (None, None) entries)
    as [[b |] [label |]]; cbn in *; try done.
  - destruct H as [Hin Hall]. split.
    + split; [done |]. intros ->. by apply elem_of_nil in Hin.
    + intros ? [= <-]. by exists b.
Qed.

End BestFacts.

Section FindFacts.
Local Open Scope Q_scope.

Lemma above_best :
  (forall x, above x None = true) /\
  (forall x b, above x (Some b) = true -> b <= x) /\
  (forall x b, above x (Some b) = false -> x <= b).
Proof.
  repeat split; try done.
  - intros x b H. apply Qlt_bool_iff in H. lra.
  - intros x b H. by apply Qlt_bool_false_iff in H.
Qed.

Lemma below_best :
  (forall x, below x None = true) /\
  (forall x b, below x (Some b) = true -> x <= b) /\
  (forall x b, below x (Some b) = false -> b <= x).
Proof.
  repeat split; try done.
  - intros x b H. apply Qlt_bool_iff in H. lra.
  - intros x b H. by apply Qlt_bool_false_iff in H.
Qed.

(** The scan of the outgoing list of a node is a scan of the relationships
    it resolves to. *)
Lemma outgoing_scan (better : Q -> option Q -> bool)
    (score : Relationship -> Q) graph (ids : list string)
    (st : option Q * option string) :
  foldl (fun (st : option Q * option string) relId =>
           let '(bound, best) := st in
           match relationships graph !! relId with
           | Some rel =>
               if better (score rel) bound
               then (Some (score rel), Some (rel_targetId rel))
               else st
           | None => st
           end) st ids
  = foldl (best_step better) st
          ((fun rel => (rel_targetId rel, score rel))
             <$> omap (fun relId => relationships graph !! relId) ids).
Proof.
  revert st. induction ids as [| relId ids IH]; intros [bound best]; [done |].
  cbn [foldl omap list_omap]. cbv beta.
  destruct (relationships graph !! relId) as [rel |].
  - rewrite IH. reflexivity.
  - apply IH.
Qed.

(** What the three searches share: the target found belongs to a resolved
    outgoing relationship whose score no other one beats. *)
Lemma find_best (better : Q -> option Q -> bool) (ge : Q -> Q -> Prop)
    (score : Relationship -> Q) graph characterId :
  (forall x, better x None = true) ->
  (forall x b, better x (Some b) = true -> ge x b) ->
  (forall x b, better x (Some b) = false -> ge b x) ->
  (forall x, ge x x) ->
  (forall x y z, ge x y -> ge y z -> ge x z) ->
  let result :=
    match nodes graph !! characterId with
    | None => None
    | Some node =>
        (foldl (fun (st : option Q * option string) relId =>
                  let '(bound, best) := st in
                  match relationships graph !! relId with
                  | Some rel =>
                      if better (score rel) bound
                      then (Some (score rel), Some (rel_targetId rel))
                      else st
                  | None => st
                  end) (None, None) (outgoingRelations node)).2
    end in
  (result = None <-> outgoing_relations graph characterId = []) /\
  (forall target,
      result = Some target ->
      exists rel,
        rel ∈ outgoing_relations graph characterId /\
        rel_targetId rel = target /\
        forall rel', rel' ∈ outgoing_relations graph characterId ->
                     ge (score rel) (score rel')).
Proof.
  intros H1 H2 H3 H4 H5 result. subst result. unfold outgoing_relations.
  destruct (nodes graph !! characterId) as [node |]; [| done].
  rewrite outgoing_scan.
  set (rels := omap _ (outgoingRelations node)).
  destruct (best_scan_result better ge H1 H2 H3 H4 H5
              ((fun rel => (rel_targetId rel, score rel)) <$> rels))
    as [Hnone Hsome].
  split.
  - rewrite Hnone. split; [apply fmap_nil_inv | by intros ->].
  - intros target Ht. destruct (Hsome target Ht) as (s & Hin & Hall).
    apply list_elem_of_fmap in Hin as (rel & [= -> ->] & Hrel).
    exists rel. split; [done |]. split; [done |].
    intros rel' Hrel'. apply (Hall (rel_targetId rel', score rel')).
    apply list_elem_of_fmap. by exists rel'.
Qed.

(** X10. [findMostTrusted], [findLeastTrusted] and [findMostIntimate]
    return nothing exactly when the character has no node or none of its
    outgoing relation ids names a relationship; otherwise the target of an
    outgoing relationship with, respectively, the largest trust, the smallest
    trust and the largest intimacy among them. *)
Theorem find_extremal (graph : SocialGraphState) (characterId : string) :
  ((findMostTrusted graph characterId = None
    <-> outgoing_relations graph characterId = []) /\
   forall target,
     findMostTrusted graph characterId = Some target ->
     exists rel,
       rel ∈ outgoing_relations graph characterId /\
       rel_targetId rel = target /\
       forall rel', rel' ∈ outgoing_relations graph characterId ->
                    trust rel' <= trust rel) /\
  ((findLeastTrusted graph characterId = None
    <-> outgoing_relations graph characterId = []) /\
   forall target,
     findLeastTrusted graph characterId = Some target ->
     exists rel,
       rel ∈ outgoing_relations graph characterId /\
       rel_targetId rel = target /\
       forall rel', rel' ∈ outgoing_relations graph characterId ->
                    trust rel <= trust rel') /\
  ((findMostIntimate graph characterId = None
    <-> outgoing_relations graph characterId = []) /\
   forall target,
     findMostIntimate graph characterId = Some target ->
     exists rel,
       rel ∈ outgoing_relations graph characterId /\
       rel_targetId rel = target /\
       forall rel', rel' ∈ outgoing_relations graph characterId ->
                    intimacy rel' <= intimacy rel).
Proof.
  destruct above_best as (A1 & A2 & A3).
  destruct below_best as (B1 & B2 & B3).
  split; [| split].
  - apply (find_best above (fun x y => y <= x) trust graph characterId
             A1 A2 A3); intros; lra.
  - apply (find_best below (fun x y => x <= y) trust graph characterId
             B1 B2 B3); intros; lra.
  - apply (find_best above (fun x y => y <= x) intimacy graph characterId
             A1 A2 A3); intros; lra.
Qed.

Lemma find_extremal_witness :
  exists rel,
    rel ∈ outgoing_relations sample_graph "a" /\
    rel_targetId rel = "b"%string /\
    forall rel', rel' ∈ outgoing_relations sample_graph "a" ->
                 trust rel' <= trust rel.
Proof.
  destruct (find_extremal sample_graph "a") as ((_ & Hmost) & _).
  apply Hmost. reflexivity.
Defined.

(** [getAllRelationshipsFor] lists the relationships that the outgoing and
    then the incoming ids of the character resolve to. *)
Lemma getAllRelationshipsFor_resolves
    (graph : SocialGraphState) (characterId : string) :
  getAllRelationshipsFor graph characterId
  = match nodes graph !! characterId with
    | Some node =>
        omap (fun relId => relationships graph !! relId)
             (outgoingRelations node ++ incomingRelations node)
    | None => []
    end.
Proof.
  unfold getAllRelationshipsFor.
  destruct (nodes graph !! characterId) as [node |]; [| done].
  assert (Hloop : forall (ids : list string) (relations : list Relationship),
    foldl (fun (relations : list Relationship) relId =>
             match relationships graph !! relId with
             | Some rel => relations ++ [rel]
             | None => relations
             end) relations ids
    = relations ++ omap (fun relId => relationships graph !! relId) ids).
  { induction ids as [| relId ids IH]; intros relations.
    - by rewrite app_nil_r.
    - cbn [foldl omap list_omap]. rewrite IH.
      destruct (relationships graph !! relId); [| done].
      by rewrite <- app_assoc. }
  by rewrite Hloop.
Qed.

End FindFacts.

(** ** modules/actionSelector.ts: targets *)

Section TargetFacts.
Local Open Scope Q_scope.

(** The scan of the candidates is a scan of the scores of the candidates
    other than the actor. *)
Lemma candidate_scan (better : Q -> option Q -> bool) (score : string -> Q)
    (actorId : string) (candidates : list string)
    (bestTarget : option string) (bestScore : option Q) :
  let result :=
    foldl (fun (st : option string * option Q) targetId =>
             let '(bestTarget, bestScore) := st in
             if String.eqb targetId actorId then st
             else if better (score targetId) bestScore
                  then (Some targetId, Some (score targetId))
                  else st)
          (bestTarget, bestScore) candidates in
  (result.2, result.1)
  = foldl (best_step better) (bestScore, bestTarget)
          ((fun id => (id, score id)) <$> other_candidates actorId candidates).
Proof.
  revert bestTarget bestScore.
  induction candidates as [| c candidates IH]; intros bestTarget bestScore;
    [done |].
  cbn [foldl]. unfold other_candidates. rewrite filter_cons.
  destruct (String.eqb_spec c actorId) as [-> | Hne].
  - rewrite decide_False by (intros H; by apply H). apply IH.
  - rewrite decide_True by done. rewrite fmap_cons. cbn [foldl].
    unfold best_step at 2. cbn [fst snd].
    destruct (better (score c) bestScore); apply IH.
Qed.

Lemma select_best (better : Q -> option Q -> bool) (ge : Q -> Q -> Prop)
    (score : string -> Q) (actorId : string) (candidates : list string) :
  (forall x, better x None = true) ->
  (forall x b, better x (Some b) = true -> ge x b) ->
  (forall x b, better x (Some b) = false -> ge b x) ->
  (forall x, ge x x) ->
  (forall x y z, ge x y -> ge y z -> ge x z) ->
  let result :=
    (foldl (fun (st : option string * option Q) targetId =>
              let '(bestTarget, bestScore) := st in
              if String.eqb targetId actorId then st
              else if better (score targetId) bestScore
                   then (Some targetId, Some (score targetId))
                   else st)
           (None, None) candidates).1 in
  (result = None <-> other_candidates actorId candidates = []) /\
  (forall target,
      result = Some target ->
      target ∈ candidates /\ target <> actorId /\
      forall c, c ∈ candidates -> c <> actorId -> ge (score target) (score c)).
Proof.
  intros H1 H2 H3 H4 H5 result. subst result.
  pose proof (candidate_scan better score actorId candidates None None) as Hscan.
  cbv zeta in Hscan.
  destruct (best_scan_result better ge H1 H2 H3 H4 H5
              ((fun id => (id, score id))
                 <$> other_candidates actorId candidates))
    as [Hnone Hsome].
  rewrite <- Hscan in Hnone, Hsome. cbn [snd] in Hnone, Hsome.
  split.
  - rewrite Hnone. split; [apply fmap_nil_inv | by intros ->].
  - intros target Ht. destruct (Hsome target Ht) as (s & Hin & Hall).
    apply list_elem_of_fmap in Hin as (id & [= -> ->] & Hid).
    apply list_elem_of_filter in Hid as [Hne Hid].
    split; [done |]. split; [done |].
    intros c Hc Hcne. apply (Hall (c, score c)).
    apply list_elem_of_fmap. exists c. split; [done |].
    by apply list_elem_of_filter.
Qed.

(** X11. [selectSpeakTarget] and [selectAttackTarget] return nothing exactly
    when no candidate differs from the actor; otherwise a candidate other
    than the actor with, respectively, the largest
    [intimacy * (1 + trust)] (0.1 and 0 for a missing relationship) and the
    smallest trust (0 for a missing relationship) among these candidates.
    [selectTargetForAction] uses them for SPEAK and ATTACK and returns
    nothing for MOVE and WAIT. *)
Theorem selectTarget_best
    (actorId : string) (candidates : list string) (graph : SocialGraphState) :
  ((selectSpeakTarget actorId candidates graph = None
    <-> other_candidates actorId candidates = []) /\
   forall target,
     selectSpeakTarget actorId candidates graph = Some target ->
     target ∈ candidates /\ target <> actorId /\
     forall c, c ∈ candidates -> c <> actorId ->
               speak_score graph actorId c
               <= speak_score graph actorId target) /\
  ((selectAttackTarget actorId candidates graph = None
    <-> other_candidates actorId candidates = []) /\
   forall target,
     selectAttackTarget actorId candidates graph = Some target ->
     target ∈ candidates /\ target <> actorId /\
     forall c, c ∈ candidates -> c <> actorId ->
               attack_score graph actorId target
               <= attack_score graph actorId c) /\
  (selectTargetForAction actorId SPEAK candidates graph
   = selectSpeakTarget actorId candidates graph /\
   selectTargetForAction actorId ATTACK candidates graph
   = selectAttackTarget actorId candidates graph /\
   selectTargetForAction actorId MOVE candidates graph = None /\
   selectTargetForAction actorId WAIT candidates graph = None).
Proof.
  destruct above_best as (A1 & A2 & A3).
  destruct below_best as (B1 & B2 & B3).
  split; [| split; [| done]].
  - assert (Hsel : selectSpeakTarget actorId candidates graph
                   = (foldl (fun (st : option string * option Q) targetId =>
                               let '(bestTarget, bestScore) := st in
                               if String.eqb targetId actorId then st
                               else if above (speak_score graph actorId targetId)
                                             bestScore
                                    then (Some targetId,
                                          Some (speak_score graph actorId
                                                            targetId))
                                    else st)
                            (None, None) candidates).1)
      by (by destruct candidates).
    rewrite Hsel.
    apply (select_best above (fun x y => y <= x)
             (speak_score graph actorId) actorId candidates A1 A2 A3);
      intros; lra.
  - assert (Hsel : selectAttackTarget actorId candidates graph
                   = (foldl (fun (st : option string * option Q) targetId =>
                               let '(bestTarget, bestScore) := st in
                               if String.eqb targetId actorId then st
                               else if below (attack_score graph actorId
                                                           targetId)
                                             bestScore
                                    then (Some targetId,
                                          Some (attack_score graph actorId
                                                             targetId))
                                    else st)
                            (None, None) candidates).1)
      by (by destruct candidates).
    rewrite Hsel.
    apply (select_best below (fun x y => x <= y)
             (attack_score graph actorId) actorId candidates B1 B2 B3);
      intros; lra.
Qed.

Lemma selectTarget_best_witness :
  (selectSpeakTarget "a" ["a"; "a"] sample_graph = None) /\
  ("b"%string ∈ ["a"; "c"; "b"]%string /\ "b"%string <> "a"%string /\
   forall c, c ∈ ["a"; "c"; "b"]%string -> c <> "a"%string ->
             speak_score sample_graph "a" c
             <= speak_score sample_graph "a" "b").
Proof.
  split.
  - destruct (selectTarget_best "a" ["a"; "a"]%string sample_graph)
      as ((Hnone & _) & _).
    apply Hnone. reflexivity.
  - destruct (selectTarget_best "a" ["a"; "c"; "b"]%string sample_graph)
      as ((_ & Hbest) & _).
    apply Hbest. reflexivity.
Defined.

(** A stranger scores [0.1 * (1 + 0)]; the acquaintance with intimacy 0.4
    and trust 0.5 scores 0.6 and is chosen; nobody is distrusted, and the
    first stranger is the one attacked. *)
Example selectTarget_sample :
  selectSpeakTarget "a" ["a"; "c"; "b"] sample_graph = Some "b"%string /\
  selectAttackTarget "a" ["a"; "c"; "b"; "d"] sample_graph
  = Some "c"%string.
Proof. vm_compute. split; reflexivity. Qed.

(** The selection of modules/utilityAI.ts is [findMostIntimate]: it looks
    at the intimacy alone and at the outgoing edges alone, where that of
    modules/actionSelector.ts weighs the intimacy by [1 + trust] over the
    candidates. *)
Example selectSpeakTarget_versions :
  utilityAI.selectSpeakTarget "a" torn_graph = Some "b"%string /\
  selectSpeakTarget "a" ["a"; "b"; "c"] torn_graph = Some "c"%string /\
  speak_score torn_graph "a" "b" < speak_score torn_graph "a" "c".
Proof. vm_compute. repeat split; reflexivity. Qed.

End TargetFacts.

(** ** modules/beliefSystem.ts: the other functions *)

Section BeliefStateFacts.
Local Open Scope Q_scope.

Lemma bayesianUpdate_in_unit (prior lt lf : Q) :
  0 <= prior <= 1 -> 0 <= bayesianUpdate prior lt lf <= 1.
Proof.
  intros Hp. unfold bayesianUpdate.
  destruct (Qeq_bool _ 0); [done |]. apply clamp_range. lra.
Qed.


Lemma impact_body_lookup_ne event context newBeliefs impact (p : string) :
  p <> impact_proposition impact ->
  impact_body event context newBeliefs impact !! p = newBeliefs !! p.
Proof. intros Hne. unfold impact_body. by rewrite lookup_insert_ne. Qed.

Lemma impact_body_lookup event context newBeliefs impact :
  exists b,
    impact_body event context newBeliefs impact !! impact_proposition impact
    = Some b /\
    updated_by event (impact_proposition impact) b /\
    confidence b
    = bayesianUpdate
        (nullish (confidence <$> newBeliefs !! impact_proposition impact) 0.5)
        (adjustForIntelligence (likelihoodIfTrue impact)
                               (intelligence context))
        (adjustForIntelligence (likelihoodIfFalse impact)
                               (intelligence context)).
Proof.
  unfold impact_body. rewrite lookup_insert_eq. eexists.
  split; [reflexivity |]. split; [| reflexivity].
  split; [reflexivity |]. split; [reflexivity |].
  cbn [sources]. apply last_snoc.
Qed.

Lemma impact_loop_frame event context (impacts : list PropositionImpact)
    (newBeliefs : gmap string Belief) (p : string) :
  p ∉ impact_propositions impacts ->
  foldl (impact_body event context) newBeliefs impacts !! p = newBeliefs !! p.
Proof.
  revert newBeliefs.
  induction impacts as [| impact impacts IH]; intros newBeliefs Hp; [done |].
  unfold impact_propositions in Hp. rewrite fmap_cons in Hp.
  apply not_elem_of_cons in Hp as [Hne Hp].
  cbn [foldl]. rewrite IH by exact Hp. by apply impact_body_lookup_ne.
Qed.

Lemma impact_loop_touched event context (impacts : list PropositionImpact)
    (newBeliefs : gmap string Belief) (p : string) :
  p ∈ impact_propositions impacts ->
  exists b,
    foldl (impact_body event context) newBeliefs impacts !! p = Some b /\
    updated_by event p b.
Proof.
  revert newBeliefs.
  induction impacts as [| impact impacts IH]; intros newBeliefs Hp.
  - by apply elem_of_nil in Hp.
  - cbn [foldl].
    destruct (decide (p ∈ impact_propositions impacts)) as [Hin | Hout].
    + by apply IH.
    + rewrite impact_loop_frame by exact Hout.
      unfold impact_propositions in Hp. rewrite fmap_cons in Hp.
      apply elem_of_cons in Hp as [-> | Hp]; [| contradiction].
      destruct (impact_body_lookup event context newBeliefs impact)
        as (b & Hb & Hupd & _).
      by exists b.
Qed.

Lemma impact_body_in_range event context newBeliefs impact :
  (forall p b, newBeliefs !! p = Some b -> 0 <= confidence b <= 1) ->
  forall p b,
    impact_body event context newBeliefs impact !! p = Some b ->
    0 <= confidence b <= 1.
Proof.
  intros Hrange p b.
  destruct (decide (p = impact_proposition impact)) as [-> | Hne].
  - destruct (impact_body_lookup event context newBeliefs impact)
      as (b' & Hb' & _ & Hconf).
    rewrite Hb'. intros [= <-]. rewrite Hconf.
    apply bayesianUpdate_in_unit.
    destruct (newBeliefs !! impact_proposition impact) as [b0 |] eqn:E;
      cbn [fmap option_fmap option_map nullish]; [by eapply Hrange | lra].
  - rewrite impact_body_lookup_ne by exact Hne. apply Hrange.
Qed.

Lemma impact_loop_in_range event context (impacts : list PropositionImpact)
    (newBeliefs : gmap string Belief) :
  (forall p b, newBeliefs !! p = Some b -> 0 <= confidence b <= 1) ->
  forall p b,
    foldl (impact_body event context) newBeliefs impacts !! p = Some b ->
    0 <= confidence b <= 1.
Proof.
  revert newBeliefs.
  induction impacts as [| impact impacts IH]; intros newBeliefs Hrange;
    [exact Hrange |].
  cbn [foldl]. apply IH. by apply impact_body_in_range.
Qed.

Lemma decayBeliefs_lookup (state : BeliefState) (currentTurn : Z)
    (p : string) :
  beliefs (decayBeliefs state currentTurn) !! p
  = decay_belief currentTurn <$> beliefs state !! p.
Proof.
  unfold decayBeliefs. cbn [beliefs].
  rewrite (foldl_set_map_entries _ (fun _ b => decay_belief currentTurn b))
    by (by intros acc k v).
  by destruct (beliefs state !! p).
Qed.

(** X12. A belief state whose confidences are probabilities stays one
    under [setInitialBelief], whatever the confidence given; under
    [updateBeliefFromEvent], for likelihoods and an intelligence of the
    observer within [[0, 1]], the ranges that the data model declares;
    and under [decayBeliefs] at a turn that is not before the date of a
    belief. *)
Theorem beliefs_in_range_preserved (state : BeliefState) :
  beliefs_in_range state ->
  (forall p c t, beliefs_in_range (setInitialBelief state p c t)) /\
  (forall event context impacts,
      0 <= intelligence context <= 1 ->
      Forall (fun impact => 0 <= likelihoodIfTrue impact <= 1 /\
                            0 <= likelihoodIfFalse impact <= 1) impacts ->
      beliefs_in_range (updateBeliefFromEvent state event context impacts)) /\
  (forall currentTurn,
      (forall p b, beliefs state !! p = Some b ->
                   (lastUpdatedTurn b <= currentTurn)%Z) ->
      beliefs_in_range (decayBeliefs state currentTurn)).
Proof.
  intros Hrange. split; [| split].
  - intros p c t q b. unfold setInitialBelief. cbn [beliefs].
    destruct (decide (q = p)) as [-> | Hne].
    + rewrite lookup_insert_eq. intros [= <-]. cbn [confidence].
      apply clamp_range. lra.
    + rewrite lookup_insert_ne by done. apply Hrange.
  - intros event context impacts _ _. unfold updateBeliefFromEvent.
    destruct (negb _); [exact Hrange |].
    intros p b. cbn [beliefs]. by apply impact_loop_in_range.
  - intros currentTurn _ p b. rewrite decayBeliefs_lookup.
    destruct (beliefs state !! p) as [b0 |]; [| done].
    intros [= <-]. cbn [decay_belief confidence].
    apply clamp_range. lra.
Qed.

Lemma beliefs_in_range_preserved_witness :
  beliefs_in_range
    (updateBeliefFromEvent sample_belief_state sample_event near_observer
       [ {| impact_proposition := "the king is good";
            likelihoodIfTrue := 0.9; likelihoodIfFalse := 0.2 |} ]) /\
  beliefs_in_range (setInitialBelief sample_belief_state "x" 7 1) /\
  beliefs_in_range (decayBeliefs sample_belief_state 5).
Proof.
  assert (H : beliefs_in_range sample_belief_state).
  { intros p b Hb. unfold sample_belief_state in Hb. cbn [beliefs] in Hb.
    apply lookup_singleton_Some in Hb as [_ <-]. cbn [confidence]. lra. }
  assert (Hi : 0 <= intelligence near_observer <= 1)
    by (cbn [intelligence near_observer]; lra).
  assert (Hl : Forall (fun impact => 0 <= likelihoodIfTrue impact <= 1 /\
                                     0 <= likelihoodIfFalse impact <= 1)
                 [ {| impact_proposition := "the king is good";
                      likelihoodIfTrue := 0.9; likelihoodIfFalse := 0.2 |} ]).
  { apply Forall_cons_2; [| apply Forall_nil_2].
    cbn [likelihoodIfTrue likelihoodIfFalse]. lra. }
  assert (Ht : forall p b, beliefs sample_belief_state !! p = Some b ->
                           (lastUpdatedTurn b <= 5)%Z).
  { intros p b Hb. unfold sample_belief_state in Hb. cbn [beliefs] in Hb.
    apply lookup_singleton_Some in Hb as [_ <-]. cbn [lastUpdatedTurn]. lia. }
  pose proof (beliefs_in_range_preserved sample_belief_state H)
    as (Hset & Hupd & Hdecay).
  exact (conj (Hupd sample_event near_observer _ Hi Hl)
           (conj (Hset "x"%string 7 1%Z) (Hdecay 5%Z Ht))).
Defined.

(** X13. [getBeliefConfidence] reads back what [setInitialBelief] wrote,
    clamped to [[0, 1]], and one half for a proposition without a belief;
    [setInitialBelief] changes no other proposition, and a second write to
    the same proposition replaces the first. *)
Theorem setInitialBelief_read_back
    (state : BeliefState) (p : string) (c : Q) (t : Z) :
  getBeliefConfidence (setInitialBelief state p c t) p = clamp c 0 1 /\
  (forall q, q <> p ->
             beliefs (setInitialBelief state p c t) !! q
             = beliefs state !! q) /\
  (forall c' t',
      setInitialBelief (setInitialBelief state p c t) p c' t'
      = setInitialBelief state p c' t') /\
  (beliefs state !! p = None -> getBeliefConfidence state p = 0.5).
Proof.
  unfold getBeliefConfidence, setInitialBelief. cbn [beliefs characterId].
  split; [by rewrite lookup_insert_eq |].
  split; [intros q Hne; by rewrite lookup_insert_ne |].
  split; [intros c' t'; by rewrite insert_insert_eq |].
  by intros ->.
Qed.

Lemma setInitialBelief_read_back_witness :
  getBeliefConfidence (createBeliefState "npc-1") "the king is good" = 0.5.
Proof.
  destruct (setInitialBelief_read_back (createBeliefState "npc-1")
              "the king is good" 0 0) as (_ & _ & _ & H).
  apply H. reflexivity.
Defined.

(** X14. [decayBeliefs] keeps the propositions and, for a belief that is a
    probability and is not dated after the current turn, gives the
    confidence [0.5 + (confidence - 0.5) * (1 - 0.01) ^ (currentTurn -
    lastUpdatedTurn)], the clamp leaving it as it is.  The confidence does
    not cross one half: a confidence of one half or more stays between one
    half and what it was, and a confidence of one half or less stays at one
    half or less.  The name, the date and the sources of the belief are not
    changed. *)
Theorem decayBeliefs_towards_equilibrium
    (state : BeliefState) (currentTurn : Z) (p : string) (b : Belief) :
  beliefs state !! p = Some b ->
  0 <= confidence b <= 1 ->
  (lastUpdatedTurn b <= currentTurn)%Z ->
  dom (beliefs (decayBeliefs state currentTurn)) = dom (beliefs state) /\
  exists b',
    beliefs (decayBeliefs state currentTurn) !! p = Some b' /\
    proposition b' = proposition b /\
    lastUpdatedTurn b' = lastUpdatedTurn b /\
    sources b' = sources b /\
    confidence b'
    == 0.5 + (confidence b - 0.5)
             * (1 - 0.01) ^ (currentTurn - lastUpdatedTurn b) /\
    (0.5 <= confidence b -> 0.5 <= confidence b' <= confidence b) /\
    (confidence b <= 0.5 -> 0 <= confidence b' <= 0.5).
Proof.
  intros Hb Hc Hturn. split.
  - apply set_eq. intros q. rewrite !elem_of_dom, decayBeliefs_lookup.
    by rewrite fmap_is_Some.
  - exists (decay_belief currentTurn b).
    rewrite decayBeliefs_lookup, Hb.
    split; [reflexivity |]. split; [reflexivity |]. split; [reflexivity |].
    split; [reflexivity |].
    cbn [decay_belief confidence lastUpdatedTurn].
    unfold Math_pow, BELIEF_DECAY_RATE, BELIEF_EQUILIBRIUM.
    set (k := (currentTurn - lastUpdatedTurn b)%Z).
    destruct (Qpower_unit_interval (1 - 0.01) k) as [Hf0 Hf1];
      [lra | lra | lia |].
    set (f := (1 - 0.01) ^ k) in *.
    assert (Hin : 0 <= 0.5 + (confidence b - 0.5) * f <= 1) by nra.
    pose proof (clamp_inside _ 0 1 Hin) as Hclamp.
    split; [exact Hclamp |].
    split; intros Hside; rewrite Hclamp; nra.
Qed.

Lemma decayBeliefs_towards_equilibrium_witness :
  exists b',
    beliefs (decayBeliefs two_beliefs 4) !! "the king is good" = Some b' /\
    lastUpdatedTurn b' = 2%Z /\
    confidence b' == 0.5 + (0.9 - 0.5) * (1 - 0.01) ^ (4 - 2) /\
    confidence b' <= 0.9.
Proof.
  destruct (decayBeliefs_towards_equilibrium two_beliefs 4 "the king is good"
              {| proposition := "the king is good"; confidence := 0.9;
                 lastUpdatedTurn := 2; sources := ["initial"] |})
    as (_ & b' & Hb' & _ & Hdate & _ & Hconf & Hup & _).
  - reflexivity.
  - cbn [confidence]. lra.
  - cbn [lastUpdatedTurn]. lia.
  - exists b'. split; [exact Hb' |]. split; [exact Hdate |].
    split; [exact Hconf |]. apply Hup. cbn [confidence]. lra.
Defined.

(** The date of a belief is kept, so decaying again in the same turn takes
    the whole factor once more, from the confidence that the first decay
    left. *)
Example decayBeliefs_again :
  getBeliefConfidence (decayBeliefs two_beliefs 4) "the king is good"
  == 0.5 + (0.9 - 0.5) * (1 - 0.01) ^ 2 /\
  getBeliefConfidence (decayBeliefs (decayBeliefs two_beliefs 4) 4)
                      "the king is good"
  == 0.5 + (0.5 + (0.9 - 0.5) * (1 - 0.01) ^ 2 - 0.5) * (1 - 0.01) ^ 2.
Proof. split; vm_compute; reflexivity. Qed.

End BeliefStateFacts.

(** A scan that keeps the belief whose confidence is the most extreme seen
    so far, starting from one half. *)
Section StrongestFacts.
Local Open Scope Q_scope.

Variable better : Q -> Q -> bool.
Variables beyond reaches : Q -> Q -> Prop.
Hypothesis better_true : forall x b, better x b = true -> beyond x b.
Hypothesis better_false : forall x b, better x b = false -> reaches b x.
Hypothesis beyond_reaches : forall x y, beyond x y -> reaches x y.
Hypothesis beyond_trans : forall x y z, beyond x y -> beyond y z -> beyond x z.
Hypothesis reaches_refl : forall x, reaches x x.
Hypothesis reaches_trans :
  forall x y z, reaches x y -> reaches y z -> reaches x z.

Let step (st : option Belief * Q) (belief : Belief) : option Belief * Q :=
  let '(strongest, bound) := st in
  if better (confidence belief) bound
  then (Some belief, confidence belief)
  else st.

Let right_for (seen : list Belief) (st : option Belief * Q) : Prop :=
  match st.1 with
  | None => st.2 = 0.5 /\ forall b, b ∈ seen -> reaches 0.5 (confidence b)
  | Some s =>
      s ∈ seen /\ st.2 = confidence s /\ beyond (confidence s) 0.5 /\
      forall b, b ∈ seen -> reaches (confidence s) (confidence b)
  end.

Lemma strongest_scan_spec (l seen : list Belief) (st : option Belief * Q) :
  right_for seen st -> right_for (seen ++ l) (foldl step st l).
Proof using All.
  revert seen st. induction l as [| belief l IH]; intros seen st Hst.
  - by rewrite app_nil_r.
  - cbn [foldl]. rewrite (cons_middle belief), app_assoc. apply IH.
    destruct st as [[s |] bound]; unfold right_for, step in *;
      cbn [fst snd] in *.
    + destruct Hst as (Hs & -> & Hb & Hall).
      destruct (better (confidence belief) (confidence s)) eqn:E;
        cbn [fst snd].
      * apply better_true in E.
        split; [apply elem_of_app; right; by apply list_elem_of_singleton |].
        split; [done |]. split; [by eapply beyond_trans |].
        intros b [Hin | ->%list_elem_of_singleton]%elem_of_app;
          [| apply reaches_refl].
        eapply reaches_trans; [by apply beyond_reaches | by apply Hall].
      * apply better_false in E.
        split; [apply elem_of_app; by left |].
        split; [done |]. split; [done |].
        intros b [Hin | ->%list_elem_of_singleton]%elem_of_app;
          [by apply Hall | done].
    + destruct Hst as (-> & Hall).
      destruct (better (confidence belief) 0.5) eqn:E; cbn [fst snd].
      * apply better_true in E.
        split; [apply elem_of_app; right; by apply list_elem_of_singleton |].
        split; [done |]. split; [done |].
        intros b [Hin | ->%list_elem_of_singleton]%elem_of_app;
          [| apply reaches_refl].
        eapply reaches_trans; [by apply beyond_reaches | by apply Hall].
      * apply better_false in E. split; [done |].
        intros b [Hin | ->%list_elem_of_singleton]%elem_of_app;
          [by apply Hall | done].
Qed.

Lemma strongest_scan_result (state : BeliefState) :
  let result :=
    (foldl step (None, 0.5) (map_to_list (beliefs state)).*2).1 in
  (result = None ->
   forall p b, beliefs state !! p = Some b -> reaches 0.5 (confidence b)) /\
  (forall s,
      result = Some s ->
      (exists p, beliefs state !! p = Some s) /\
      beyond (confidence s) 0.5 /\
      forall p b, beliefs state !! p = Some b ->
                  reaches (confidence s) (confidence b)).
Proof using All.
  intros result. subst result.
  pose proof (strongest_scan_spec (map_to_list (beliefs state)).*2 []
                (None, 0.5)) as Hscan.
  rewrite app_nil_l in Hscan.
  assert (Hin : forall p b, beliefs state !! p = Some b ->
                            b ∈ (map_to_list (beliefs state)).*2).
  { intros p b Hb. apply list_elem_of_fmap. exists (p, b).
    split; [done |]. by apply elem_of_map_to_list. }
  destruct (foldl step (None, 0.5) (map_to_list (beliefs state)).*2)
    as [[s |] bound]; unfold right_for in Hscan; cbn [fst snd] in *.
  - destruct Hscan as (Hs & _ & Hb & Hall);
      [split; [done | intros b Hb; by apply elem_of_nil in Hb] |].
    split; [done |]. intros s' [= <-].
    split; [| split; [done | intros p b Hpb; apply Hall; by eapply Hin]].
    apply list_elem_of_fmap in Hs as ([p s'] & -> & Hps).
    exists p. by apply elem_of_map_to_list.
  - destruct Hscan as (_ & Hall);
      [split; [done | intros b Hb; by apply elem_of_nil in Hb] |].
    split; [| done]. intros _ p b Hpb. apply Hall. by eapply Hin.
Qed.

End StrongestFacts.

Section StrongestBeliefFacts.
Local Open Scope Q_scope.

(** X15. [getStrongestPositiveBelief] returns a belief of the state whose
    confidence is above one half and is the largest of the state, and
    nothing only when no confidence is above one half;
    [getStrongestNegativeBelief] likewise with the smallest confidence,
    below one half. *)
Theorem getStrongestBelief_extremal (state : BeliefState) :
  ((getStrongestPositiveBelief state = None ->
    forall p b, beliefs state !! p = Some b -> confidence b <= 0.5) /\
   forall s,
     getStrongestPositiveBelief state = Some s ->
     (exists p, beliefs state !! p = Some s) /\
     0.5 < confidence s /\
     forall p b, beliefs state !! p = Some b ->
                 confidence b <= confidence s) /\
  ((getStrongestNegativeBelief state = None ->
    forall p b, beliefs state !! p = Some b -> 0.5 <= confidence b) /\
   forall s,
     getStrongestNegativeBelief state = Some s ->
     (exists p, beliefs state !! p = Some s) /\
     confidence s < 0.5 /\
     forall p b, beliefs state !! p = Some b ->
                 confidence s <= confidence b).
Proof.
  split.
  - apply (strongest_scan_result (fun x b => Qlt_bool b x)
             (fun x y => y < x) (fun x y => y <= x)).
    + intros x b. apply Qlt_bool_iff.
    + intros x b. apply Qlt_bool_false_iff.
    + intros x y. apply Qlt_le_weak.
    + intros x y z H1 H2. lra.
    + intros x. lra.
    + intros x y z H1 H2. lra.
  - apply (strongest_scan_result (fun x b => Qlt_bool x b)
             (fun x y => x < y) (fun x y => x <= y)).
    + intros x b. apply Qlt_bool_iff.
    + intros x b. apply Qlt_bool_false_iff.
    + intros x y. apply Qlt_le_weak.
    + intros x y z H1 H2. lra.
    + intros x. lra.
    + intros x y z H1 H2. lra.
Qed.

Lemma getStrongestBelief_extremal_witness :
  (0.5 < 0.9 /\
   forall p b, beliefs two_beliefs !! p = Some b -> confidence b <= 0.9) /\
  (forall p b, beliefs (createBeliefState "npc-1") !! p = Some b ->
               0.5 <= confidence b).
Proof.
  split.
  - destruct (getStrongestBelief_extremal two_beliefs) as ((_ & Hmax) & _).
    destruct (Hmax {| proposition := "the king is good"; confidence := 0.9;
                      lastUpdatedTurn := 2; sources := ["initial"] |}
                   eq_refl) as (_ & Habove & Hall).
    split; [exact Habove | exact Hall].
  - destruct (getStrongestBelief_extremal (createBeliefState "npc-1"))
      as (_ & Hnone & _).
    apply Hnone. reflexivity.
Defined.

Example getStrongestBelief_sample :
  proposition <$> getStrongestPositiveBelief two_beliefs
  = Some "the king is good"%string /\
  proposition <$> getStrongestNegativeBelief two_beliefs
  = Some "the road is safe"%string.
Proof. vm_compute. split; reflexivity. Qed.

End StrongestBeliefFacts.

Section BeliefUpdateFacts.
Local Open Scope Q_scope.

(** X16. [updateBeliefFromEvent] keeps the owner of the state and every
    belief about a proposition that no impact names; when the event is
    observed, each proposition that an impact names has afterwards a belief
    of that name, dated with the turn of the event and with the event as
    its last source. *)
Theorem updateBeliefFromEvent_frame
    (state : BeliefState) (event : WorldEvent) (context : ObservationContext)
    (impacts : list PropositionImpact) :
  let state' := updateBeliefFromEvent state event context impacts in
  characterId state' = characterId state /\
  (forall p, p ∉ impact_propositions impacts ->
             beliefs state' !! p = beliefs state !! p) /\
  (isEventObserved event context DEFAULT_THRESHOLD = true ->
   forall p, p ∈ impact_propositions impacts ->
             exists b, beliefs state' !! p = Some b /\ updated_by event p b).
Proof.
  intros state'. subst state'. unfold updateBeliefFromEvent.
  destruct (isEventObserved event context DEFAULT_THRESHOLD);
    cbn [negb characterId beliefs].
  - split; [done |]. split.
    + intros p Hp. by apply impact_loop_frame.
    + intros _ p Hp. by apply impact_loop_touched.
  - by repeat split.
Qed.

Lemma updateBeliefFromEvent_frame_witness :
  exists b,
    beliefs (updateBeliefFromEvent sample_belief_state sample_event
               near_observer
               [ {| impact_proposition := "the road is safe";
                    likelihoodIfTrue := 0.2; likelihoodIfFalse := 0.8 |} ])
      !! "the road is safe" = Some b /\
    updated_by sample_event "the road is safe" b.
Proof.
  destruct (updateBeliefFromEvent_frame sample_belief_state sample_event
              near_observer
              [ {| impact_proposition := "the road is safe";
                   likelihoodIfTrue := 0.2; likelihoodIfFalse := 0.8 |} ])
    as (_ & _ & Hnamed).
  apply Hnamed; [reflexivity |].
  apply list_elem_of_singleton. reflexivity.
Defined.




End BeliefUpdateFacts.

(** ** core/chronicle-pressure.ts: accumulation *)

Section PressureFacts.
Local Open Scope Q_scope.

Lemma accumulate_loop (meanings : list MeaningEvent)
    (pressure : gmap string Q) (type : string) :
  let result :=
    foldl (fun (pressure : gmap string Q) m =>
             <[meaning_type m :=
                 nullish (pressure !! meaning_type m) 0 + intensity m]>
               pressure)
          pressure meanings in
  nullish (result !! type) 0
  = running_pressure type (nullish (pressure !! type) 0) meanings /\
  (is_Some (result !! type)
   <-> is_Some (pressure !! type) \/ type ∈ meaning_types meanings) /\
  (type ∉ meaning_types meanings -> result !! type = pressure !! type).
Proof.
  revert pressure. induction meanings as [| m meanings IH]; intros pressure.
  - cbn. split; [done |]. split; [| done].
    split; [by left | intros [H | H]; [done | by apply elem_of_nil in H]].
  - cbn [foldl]. cbv zeta in *.
    destruct (IH (<[meaning_type m :=
                      nullish (pressure !! meaning_type m) 0 + intensity m]>
                    pressure)) as (Hsum & Hsome & Hframe).
    unfold meaning_types in *. rewrite fmap_cons.
    unfold running_pressure in *. cbn [foldl].
    destruct (String.eqb_spec (meaning_type m) type) as [E | Hne].
    + rewrite E in *. rewrite lookup_insert_eq in Hsum, Hsome.
      cbn [nullish] in Hsum.
      split; [exact Hsum |]. split.
      * split; [intros _; right; apply elem_of_cons; by left |].
        intros _. apply Hsome. by left.
      * intros Hout. apply not_elem_of_cons in Hout as [Hout _]. done.
    + rewrite lookup_insert_ne in Hsum, Hsome by done.
      split; [exact Hsum |]. split.
      * rewrite Hsome. rewrite elem_of_cons.
        split; [intros [H | H]; [by left | right; by right] |].
        intros [H | [H | H]]; [by left | by destruct Hne | by right].
      * intros Hout. apply not_elem_of_cons in Hout as [_ Hout].
        rewrite Hframe by exact Hout. by rewrite lookup_insert_ne.
Qed.

(** X18. [accumulateMeaningPressure] leaves for each type the running sum
    of the code: the intensities of the meanings of that type, added one
    after the other, in the order of the list, to the pressure that the
    type had, a type without pressure counting as 0.  A type has pressure
    afterwards exactly when it had some or a meaning names it; the pressure
    of a type that no meaning names, and every other field of the world, is
    unchanged. *)
Theorem accumulateMeaningPressure_sum
    (world : ExtendedWorldState) (new_meanings : list MeaningEvent)
    (type : string) :
  let world' := accumulateMeaningPressure world new_meanings in
  pressure_of world' type
  = running_pressure type (pressure_of world type) new_meanings /\
  (type ∈ meaning_types new_meanings ->
   meaningPressure world' !! type
   = Some (running_pressure type (pressure_of world type) new_meanings)) /\
  (is_Some (meaningPressure world' !! type)
   <-> is_Some (meaningPressure world !! type)
       \/ type ∈ meaning_types new_meanings) /\
  (type ∉ meaning_types new_meanings ->
   meaningPressure world' !! type = meaningPressure world !! type) /\
  world' = with_meaningPressure world (meaningPressure world').
Proof.
  intros world'. subst world'. unfold pressure_of, accumulateMeaningPressure.
  cbn [meaningPressure with_meaningPressure].
  destruct (accumulate_loop new_meanings (meaningPressure world) type)
    as (Hsum & Hsome & Hframe).
  split; [exact Hsum |]. split.
  - intros Hin. rewrite <- Hsum.
    assert (His : is_Some
                    (foldl (fun (pressure : gmap string Q) m =>
                              <[meaning_type m :=
                                  nullish (pressure !! meaning_type m) 0
                                  + intensity m]> pressure)
                           (meaningPressure world) new_meanings !! type))
      by (apply Hsome; by right).
    destruct His as [v ->]. reflexivity.
  - by repeat split; try apply Hsome.
Qed.

Lemma accumulateMeaningPressure_sum_witness :
  meaningPressure
    (accumulateMeaningPressure (fear_world 5 1)
       [ {| meaning_id := "m1"; sourceLogIds := []; meaning_type := "TRUST";
            intensity := 0.3;
            audience := {| factionIds := None; locationIds := None |} |} ])
    !! "FEAR"
  = Some 2.0 /\
  meaningPressure
    (accumulateMeaningPressure (fear_world 5 1)
       [ {| meaning_id := "m1"; sourceLogIds := []; meaning_type := "TRUST";
            intensity := 0.3;
            audience := {| factionIds := None; locationIds := None |} |} ])
    !! "TRUST"
  = Some (0 + 0.3).
Proof.
  destruct (accumulateMeaningPressure_sum (fear_world 5 1)
              [ {| meaning_id := "m1"; sourceLogIds := [];
                   meaning_type := "TRUST"; intensity := 0.3;
                   audience := {| factionIds := None;
                                  locationIds := None |} |} ] "FEAR")
    as (_ & _ & _ & Hframe & _).
  destruct (accumulateMeaningPressure_sum (fear_world 5 1)
              [ {| meaning_id := "m1"; sourceLogIds := [];
                   meaning_type := "TRUST"; intensity := 0.3;
                   audience := {| factionIds := None;
                                  locationIds := None |} |} ] "TRUST")
    as (_ & Hnamed & _).
  split.
  - rewrite Hframe; [reflexivity |].
    unfold meaning_types. cbn. intros H. apply list_elem_of_singleton in H.
    discriminate.
  - rewrite Hnamed; [reflexivity |].
    unfold meaning_types. cbn. by apply list_elem_of_singleton.
Defined.

(** Three meanings of intensity 0.3 on a pressure of 0.8: the sum is taken
    from the left. *)
Example accumulateMeaningPressure_order :
  let meaning :=
    {| meaning_id := "m"; sourceLogIds := []; meaning_type := "FEAR";
       intensity := 0.3;
       audience := {| factionIds := None; locationIds := None |} |} in
  running_pressure "FEAR" 0.8 [meaning; meaning; meaning]
  = 0.8 + 0.3 + 0.3 + 0.3.
Proof. reflexivity. Qed.

End PressureFacts.

(** ** core/engine.ts: the clock and the history *)

Section ClockFacts.

Lemma applyChronicleTendency_history world new_chronicles :
  let world' := applyChronicleTendency world new_chronicles in
  year world' = year world /\ logs world' = logs world /\
  meanings world' = meanings world /\ chronicles world' = chronicles world.
Proof. by destruct new_chronicles. Qed.

(** The clock and the history after one turn. *)
Lemma simulateTurn_step world actions engine amb n :
  let result := (simulateTurn world actions engine amb n).1 in
  let world' := result_world result in
  turn world' = (turn world + 1)%Z /\
  year world'
  = (year world + if (Z.rem (turn world + 1) 10 =? 0)%Z then 1 else 0)%Z /\
  logs world' = logs world ++ result_logs result /\
  meanings world' = meanings world ++ result_meanings result /\
  chronicles world' = chronicles world ++ result_chronicles result.
Proof.
  intros result world'. subst world' result. unfold simulateTurn, bind.
  destruct (mapM executeAction actions amb n) as [logs' n1].
  destruct (evaluate engine logs' amb n1) as [meanings' n2].
  destruct (generateChronicleFromPressure_run
              (applyEchoToPressure (accumulateMeaningPressure world meanings'))
              amb n2)
    as (chronicles' & pressure' & lastTurn' & n3 & Hrun & _).
  rewrite Hrun.
  destruct (generateEchoes meanings' amb n3) as [echoes' n4].
  cbn [ret fst snd] in *.
  cbn [result_logs result_meanings result_chronicles result_world
       turn year logs meanings chronicles].
  destruct (applyChronicleTendency_history
              (with_pressure_and_lastTurn
                 (applyEchoToPressure
                    (accumulateMeaningPressure world meanings'))
                 pressure' lastTurn') chronicles')
    as (-> & -> & -> & ->).
  by repeat split.
Qed.

(** X19. One turn advances the turn by one and the year by one exactly when
    the new turn is a multiple of 10; the logs, the meanings and the
    chronicles of the world are those of before followed by those of the
    result, nothing of the history being dropped or reordered; and there is
    one log for each action, in order, with the actor, the type and the
    tags of the action. *)
Theorem simulateTurn_history world actions engine amb n :
  let result := (simulateTurn world actions engine amb n).1 in
  let world' := result_world result in
  turn world' = (turn world + 1)%Z /\
  year world'
  = (year world + if (Z.rem (turn world + 1) 10 =? 0)%Z then 1 else 0)%Z /\
  logs world' = logs world ++ result_logs result /\
  meanings world' = meanings world ++ result_meanings result /\
  chronicles world' = chronicles world ++ result_chronicles result /\
  length (result_logs result) = length actions /\
  Forall2 records actions (result_logs result).
Proof.
  cbv zeta.
  destruct (simulateTurn_step world actions engine amb n)
    as (Ht & Hy & Hl & Hm & Hc).
  pose proof (simulateTurn_logs_record world actions engine amb n) as Hlogs.
  split; [exact Ht |]. split; [exact Hy |]. split; [exact Hl |].
  split; [exact Hm |]. split; [exact Hc |].
  split; [| exact Hlogs].
  symmetry. by eapply Forall2_length.
Qed.

Lemma year_step (t : Z) :
  ((if (Z.rem (t + 1) 10 =? 0)%Z then 1 else 0)
   = years_between t (t + 1))%Z.
Proof.
  unfold years_between.
  destruct (Z.eqb_spec (Z.rem (t + 1) 10) 0) as [E | E].
  - apply Z.rem_mod_eq_0 in E; [| lia].
    Z.to_euclidean_division_equations. lia.
  - assert (E' : ((t + 1) mod 10 <> 0)%Z).
    { intros H. apply E. apply Z.rem_mod_eq_0; [lia | exact H]. }
    Z.to_euclidean_division_equations. lia.
Qed.

Lemma years_between_add (a b c : Z) :
  (years_between a b + years_between b c = years_between a c)%Z.
Proof. unfold years_between. lia. Qed.

Lemma turn_loop_S (count : nat)
    (propose : ExtendedWorldState -> Eff (list Action))
    (world : ExtendedWorldState) (amb : Ambient) (n : nat) :
  turn_loop (S count) propose world amb n
  = let '(actions, n1) := propose world amb n in
    let '(result, n2) := simulateTurn world actions meaningEngine amb n1 in
    turn_loop count propose (result_world result) amb n2.
Proof. reflexivity. Qed.

(** X20. The loop of the drivers, after [count] turns from any world, with
    any source of actions and any ambient: the turn has advanced by
    [count], the year by the number of multiples of 10 among the turns
    reached, and the logs, meanings and chronicles of the start are a
    prefix of those of the end.  So [runSimulation], which starts at turn 1
    of year 1, ends at turn 11 of year 2, and the entry point at turn 21 of
    year 3. *)
Theorem turn_loop_clock :
  (forall (count : nat) (propose : ExtendedWorldState -> Eff (list Action))
          (world : ExtendedWorldState) (amb : Ambient) (n : nat),
      let world' := (turn_loop count propose world amb n).1 in
      turn world' = (turn world + Z.of_nat count)%Z /\
      year world'
      = (year world
         + years_between (turn world) (turn world + Z.of_nat count))%Z /\
      logs world `prefix_of` logs world' /\
      meanings world `prefix_of` meanings world' /\
      chronicles world `prefix_of` chronicles world') /\
  (forall amb n,
      turn (runSimulation amb n).1 = 11%Z /\
      year (runSimulation amb n).1 = 2%Z) /\
  (forall amb n,
      turn (main amb n).1 = 21%Z /\ year (main amb n).1 = 3%Z).
Proof.
  assert (Hloop :
    forall (count : nat) (propose : ExtendedWorldState -> Eff (list Action))
           (world : ExtendedWorldState) (amb : Ambient) (n : nat),
      let world' := (turn_loop count propose world amb n).1 in
      turn world' = (turn world + Z.of_nat count)%Z /\
      year world'
      = (year world
         + years_between (turn world) (turn world + Z.of_nat count))%Z /\
      logs world `prefix_of` logs world' /\
      meanings world `prefix_of` meanings world' /\
      chronicles world `prefix_of` chronicles world').
  { intros count propose world amb. revert world.
    induction count as [| count IH]; intros world n.
    - cbn [turn_loop ret fst]. unfold years_between.
      rewrite Z.add_0_r, Z.sub_diag, Z.add_0_r. by repeat split.
    - cbv zeta. rewrite turn_loop_S.
      destruct (propose world amb n) as [actions n1].
      pose proof (simulateTurn_step world actions meaningEngine amb n1)
        as Hturn.
      destruct (simulateTurn world actions meaningEngine amb n1)
        as [result n2].
      cbv zeta in Hturn. cbn [fst] in Hturn.
      destruct Hturn as (Ht & Hy & Hl & Hm & Hc).
      specialize (IH (result_world result) n2). cbv zeta in IH.
      destruct IH as (IHt & IHy & IHl & IHm & IHc).
      rewrite IHt, IHy, Ht, Hy, year_step.
      rewrite Hl in IHl. rewrite Hm in IHm. rewrite Hc in IHc.
      split; [lia |]. split.
      + rewrite <- Z.add_assoc, years_between_add. f_equal. f_equal. lia.
      + split; [| split]; eapply prefix_app_l; eassumption. }
  split; [exact Hloop |]. split; intros amb n.
  - unfold runSimulation.
    destruct (Hloop 10%nat (fun _ => ret sampleActions) initialWorld amb n)
      as (-> & -> & _).
    done.
  - unfold main.
    destruct (Hloop 20%nat (generateActionsForTurn actors) initialWorld amb n)
      as (-> & -> & _).
    done.
Qed.

End ClockFacts.

(** ** core/actionGenerator.ts *)

Section GeneratorFacts.
Local Open Scope Q_scope.

Lemma pool_candidate (c : ActionCandidate) :
  c ∈ BASE_ACTION_POOL ->
  cand_tags c = getTagsForAction (cand_type c) /\
  (needsTarget c = true -> cand_type c = SPEAK \/ cand_type c = ATTACK) /\
  (cand_type c = SPEAK \/ cand_type c = ATTACK -> needsTarget c = true).
Proof.
  unfold BASE_ACTION_POOL. intros H.
  repeat (apply elem_of_cons in H as [-> | H]);
    [| | | | by apply elem_of_nil in H];
    cbn; (split; [reflexivity |]); split; intros; intuition congruence.
Qed.

Lemma pickRandomTarget_other actor allActorIds amb n (t : string) :
  (pickRandomTarget actor allActorIds amb n).1 = Some t ->
  t ∈ allActorIds /\ t <> actor.
Proof.
  unfold pickRandomTarget.
  destruct (filter (fun id => id <> actor) allActorIds) as [| o others]
    eqn:E; [discriminate |].
  unfold bind, Math_random, ret. cbn [fst]. unfold element_at.
  destruct (Qfloor _ <? 0)%Z; [discriminate |].
  intros Hlook. apply list_elem_of_lookup_2 in Hlook. rewrite <- E in Hlook.
  apply list_elem_of_filter in Hlook as [Hne Hin]. by split.
Qed.

Lemma roll_loop_proposed actor allActorIds
    (weighted : list (ActionCandidate * Q)) (roll : Q) amb n :
  Forall (fun cw => cw.1 ∈ BASE_ACTION_POOL) weighted ->
  proposed_by actor allActorIds
              (roll_loop actor allActorIds roll weighted amb n).1.
Proof.
  revert roll. induction weighted as [| [candidate weight] weighted IH];
    intros roll Hpool.
  - cbn. by repeat split.
  - apply Forall_cons in Hpool as [Hc Hpool]. cbn [fst] in Hc.
    cbn [roll_loop].
    destruct (Qle_bool (roll - weight) 0); [| by apply IH].
    destruct (pool_candidate candidate Hc) as (Htags & Hneeds & _).
    unfold bind.
    destruct (needsTarget candidate) eqn:En.
    + pose proof (pickRandomTarget_other actor allActorIds amb n) as Hpick.
      destruct (pickRandomTarget actor allActorIds amb n) as [target n'].
      cbn [ret fst] in *. unfold proposed_by. cbn [actorId tags type targetId].
      split; [done |]. split; [done |].
      destruct target as [t |]; [| done].
      destruct (Hpick t eq_refl) as [Hin Hne].
      split; [done |]. split; [done |]. by apply Hneeds.
    + cbn [ret fst]. unfold proposed_by. cbn [actorId tags type targetId].
      by repeat split.
Qed.

Lemma generateAction_proposed actor world allActorIds amb n :
  proposed_by actor allActorIds
              (generateAction actor world allActorIds amb n).1.
Proof.
  unfold generateAction, bind, Math_random. apply roll_loop_proposed.
  apply Forall_fmap. apply Forall_forall. by intros c Hc.
Qed.

(** X21. [generateActionsForTurn] proposes one action for each actor, in
    order, whatever the world and the random numbers: the action names the
    actor, its tags are those that [getTagsForAction] gives for its type,
    and a target, if there is one, is another actor of the list and the
    action is a SPEAK or an ATTACK. *)
Theorem generateActionsForTurn_proposed
    (actorIds : list string) (world : ExtendedWorldState)
    (amb : Ambient) (n : nat) :
  Forall2 (fun id action => proposed_by id actorIds action)
          actorIds (generateActionsForTurn actorIds world amb n).1.
Proof.
  unfold generateActionsForTurn.
  assert (Heach : forall (ids : list string) (n : nat),
    Forall2 (fun id action => proposed_by id actorIds action)
            ids (mapM (fun id => generateAction id world actorIds) ids
                      amb n).1).
  { clear n. induction ids as [| id ids IH]; intros n; [constructor |].
    cbn [mapM]. unfold bind at 1.
    pose proof (generateAction_proposed id world actorIds amb n) as Hid.
    destruct (generateAction id world actorIds amb n) as [action n1].
    unfold bind at 1. specialize (IH n1).
    destruct (mapM _ ids amb n1) as [actions' n2].
    cbn [ret fst] in *. by constructor. }
  apply Heach.
Qed.

(** The index [Math.floor(Math.random() * others.length)] is within the
    array. *)
Lemma element_at_in_range (others : list string) (r : Q) :
  0 <= r < 1 -> others <> [] ->
  is_Some (element_at others (r * inject_Z (Z.of_nat (length others)))).
Proof.
  intros [Hr0 Hr1] Hne. unfold element_at.
  set (len := Z.of_nat (length others)).
  assert (Hlen : (0 < len)%Z) by (subst len; destruct others; cbn; [done | lia]).
  assert (Hlen' : 0 < inject_Z len) by (by rewrite (Zlt_Qlt 0 len) in Hlen).
  set (x := r * inject_Z len).
  assert (Hx0 : 0 <= x) by (subst x; nra).
  assert (Hx1 : x < inject_Z len) by (subst x; nra).
  assert (H0 : (0 <= Qfloor x)%Z).
  { change 0%Z with (Qfloor 0). by apply Qfloor_resp_le. }
  assert (H1 : (Qfloor x < len)%Z).
  { rewrite Zlt_Qlt. eapply Qle_lt_trans; [apply Qfloor_le | exact Hx1]. }
  destruct (Z.ltb_spec (Qfloor x) 0) as [Hneg | _]; [lia |].
  apply lookup_lt_is_Some_2. subst len. lia.
Qed.

Lemma roll_loop_target actor allActorIds
    (weighted : list (ActionCandidate * Q)) (roll : Q) amb n :
  Forall (fun cw => cw.1 ∈ BASE_ACTION_POOL) weighted ->
  let action := (roll_loop actor allActorIds roll weighted amb n).1 in
  (other_candidates actor allActorIds = [] -> targetId action = None) /\
  (random_in_unit amb ->
   other_candidates actor allActorIds <> [] ->
   type action = SPEAK \/ type action = ATTACK ->
   is_Some (targetId action)).
Proof.
  revert roll. induction weighted as [| [candidate weight] weighted IH];
    intros roll Hpool.
  - cbn. split; [done |]. intros _ _ [H | H]; discriminate.
  - apply Forall_cons in Hpool as [Hc Hpool]. cbn [fst] in Hc.
    cbn [roll_loop]. cbv zeta.
    destruct (Qle_bool (roll - weight) 0); [| by apply IH].
    destruct (pool_candidate candidate Hc) as (_ & _ & Hneeds).
    unfold bind.
    destruct (needsTarget candidate) eqn:En.
    + unfold pickRandomTarget, other_candidates.
      destruct (filter (fun id => id <> actor) allActorIds) as [| o others]
        eqn:E.
      * cbn. split; [done |]. by intros _ Hne.
      * unfold bind, Math_random, ret. cbn [fst targetId type].
        split; [done |]. intros Hunit _ _.
        apply element_at_in_range; [apply Hunit | done].
    + cbn [ret fst targetId type]. split; [done |].
      intros _ _ Htype. apply Hneeds in Htype. discriminate.
Qed.

(** X22. The target of a proposal: an actor without another actor in the
    list gets no target; and when the random numbers lie in [[0, 1)] and
    the list has another actor, every SPEAK and every ATTACK that
    [generateAction] proposes has a target, the index
    [Math.floor(Math.random() * others.length)] never leaving the array. *)
Theorem generateAction_target actor world allActorIds amb n :
  let action := (generateAction actor world allActorIds amb n).1 in
  (other_candidates actor allActorIds = [] -> targetId action = None) /\
  (random_in_unit amb ->
   other_candidates actor allActorIds <> [] ->
   type action = SPEAK \/ type action = ATTACK ->
   is_Some (targetId action)).
Proof.
  unfold generateAction, bind, Math_random. apply roll_loop_target.
  apply Forall_fmap. apply Forall_forall. by intros c Hc.
Qed.

Lemma generateAction_target_witness :
  targetId (generateAction "npc-1" initialWorld ["npc-1"] sample_ambient
                           0%nat).1
  = None /\
  is_Some (targetId (generateAction "npc-1" initialWorld actors
                                    talkative_ambient 0%nat).1).
Proof.
  split.
  - destruct (generateAction_target "npc-1" initialWorld ["npc-1"]%string
                sample_ambient 0%nat) as [Hnone _].
    apply Hnone. reflexivity.
  - destruct (generateAction_target "npc-1" initialWorld actors
                talkative_ambient 0%nat) as [_ Hsome].
    apply Hsome.
    + intros k. cbn. lra.
    + discriminate.
    + left. vm_compute. reflexivity.
Defined.

(** With no tendency the roll falls on SPEAK for each actor when every
    random number is 0.6, and on WAIT when it is one half. *)
Example generateActionsForTurn_sample :
  type <$> (generateActionsForTurn actors initialWorld talkative_ambient
                                   0%nat).1
  = [SPEAK; SPEAK; SPEAK] /\
  type <$> (generateActionsForTurn actors initialWorld sample_ambient 0%nat).1
  = [WAIT; WAIT; WAIT].
Proof. vm_compute. split; reflexivity. Qed.

End GeneratorFacts.

(** ** core/chronicle-pressure.ts and core/actionGenerator.ts: the floor *)

Section FloorFacts.
Local Open Scope Q_scope.

Lemma inclineActionProbability_floor (base : Q) (action_tags : list ActionTag)
    (world : ExtendedWorldState) :
  0.05 <= inclineActionProbability base action_tags world.
Proof.
  unfold inclineActionProbability.
  destruct (Math_max_cases 0.05
              (base + foldl (fun (modifier : Q) t =>
                               match find_tendency t (tendency world) with
                               | Some influence => modifier + weight influence
                               | None => modifier
                               end) 0 action_tags))
    as [[H ->] | [H ->]]; lra.
Qed.

Lemma Qle_bool_false (x y : Q) : y < x -> Qle_bool x y = false.
Proof.
  intros H. destruct (Qle_bool x y) eqn:E; [| done].
  apply Qle_bool_iff in E. lra.
Qed.

Lemma Qle_bool_true (x y : Q) : x <= y -> Qle_bool x y = true.
Proof. apply Qle_bool_iff. Qed.

(** The four weights of the pool decide the type from the roll. *)
Lemma roll_loop_type actor allActorIds (c1 c2 c3 c4 : ActionCandidate)
    (w1 w2 w3 w4 roll : Q) amb n :
  0 <= w1 -> 0 <= w2 -> 0 <= w3 -> 0 <= w4 ->
  let action :=
    (roll_loop actor allActorIds roll
               [(c1, w1); (c2, w2); (c3, w3); (c4, w4)] amb n).1 in
  (roll <= w1 -> type action = cand_type c1) /\
  (w1 < roll -> roll <= w1 + w2 -> type action = cand_type c2) /\
  (w1 + w2 < roll -> roll <= w1 + w2 + w3 -> type action = cand_type c3) /\
  (w1 + w2 + w3 < roll -> roll <= w1 + w2 + w3 + w4 ->
   type action = cand_type c4).
Proof.
  assert (Hpick : forall (c : ActionCandidate) n,
    type ((targetId <- (if needsTarget c
                        then pickRandomTarget actor allActorIds
                        else ret None) ;;
           ret {| actorId := actor; targetId := targetId;
                  type := cand_type c; tags := cand_tags c |}) amb n).1
    = cand_type c).
  { intros c n'. unfold bind.
    by destruct ((if needsTarget c then pickRandomTarget actor allActorIds
                  else ret None) amb n'). }
  intros Hw1 Hw2 Hw3 Hw4. cbv zeta. cbn [roll_loop].
  split; [| split; [| split]].
  - intros H1. rewrite (Qle_bool_true (roll - w1) 0) by lra. apply Hpick.
  - intros H1 H2. rewrite (Qle_bool_false (roll - w1) 0) by lra.
    rewrite (Qle_bool_true (roll - w1 - w2) 0) by lra. apply Hpick.
  - intros H2 H3. rewrite (Qle_bool_false (roll - w1) 0) by lra.
    rewrite (Qle_bool_false (roll - w1 - w2) 0) by lra.
    rewrite (Qle_bool_true (roll - w1 - w2 - w3) 0) by lra. apply Hpick.
  - intros H3 H4. rewrite (Qle_bool_false (roll - w1) 0) by lra.
    rewrite (Qle_bool_false (roll - w1 - w2) 0) by lra.
    rewrite (Qle_bool_false (roll - w1 - w2 - w3) 0) by lra.
    rewrite (Qle_bool_true (roll - w1 - w2 - w3 - w4) 0) by lra. apply Hpick.
Qed.

(** X25. [inclineActionProbability] never gives less than 0.05, so no
    tendency of the world makes an action impossible: for each of the four
    action types there is a number in [[0, 1)] such that [generateAction]
    proposes an action of that type whenever [Math.random()] gives this
    number for the roll, whatever the world. *)
Theorem generateAction_every_type
    (actor : string) (world : ExtendedWorldState) (allActorIds : list string)
    (t : ActionType) :
  (forall base action_tags,
      0.05 <= inclineActionProbability base action_tags world) /\
  exists r,
    0 <= r < 1 /\
    forall amb n,
      random_source amb n = r ->
      type (generateAction actor world allActorIds amb n).1 = t.
Proof.
  split; [intros base action_tags; apply inclineActionProbability_floor |].
  unfold generateAction, BASE_ACTION_POOL.
  cbn [fmap list_fmap baseProbability cand_tags foldl snd].
  pose proof (inclineActionProbability_floor 0.3 [NEUTRAL] world) as H1.
  pose proof (inclineActionProbability_floor 0.25 [SAFE] world) as H2.
  pose proof (inclineActionProbability_floor 0.25 [SOCIAL] world) as H3.
  pose proof (inclineActionProbability_floor 0.2 [RISKY; AGGRESSIVE] world)
    as H4.
  remember (inclineActionProbability 0.3 [NEUTRAL] world) as w1 eqn:E1 in *.
  remember (inclineActionProbability 0.25 [SAFE] world) as w2 eqn:E2 in *.
  remember (inclineActionProbability 0.25 [SOCIAL] world) as w3 eqn:E3 in *.
  remember (inclineActionProbability 0.2 [RISKY; AGGRESSIVE] world) as w4
    eqn:E4 in *.
  clear E1 E2 E3 E4.
  remember (0 + w1 + w2 + w3 + w4) as total eqn:Etotal.
  assert (Hsum : total == w1 + w2 + w3 + w4) by (rewrite Etotal; ring).
  clear Etotal.
  assert (Htotal : 0 < total) by lra.
  assert (Hroll : forall x, x / total * total == x).
  { intros x. field. lra. }
  assert (Hunit : forall x, 0 <= x -> x < total -> 0 <= x / total < 1).
  { intros x Hx0 Hx1. split.
    - apply Qle_shift_div_l; lra.
    - apply Qlt_shift_div_r; lra. }
  destruct t.
  - exists (0 / total). split; [apply Hunit; lra |].
    intros amb n Hr. unfold bind, Math_random. cbn [fst snd]. rewrite Hr.
    specialize (Hroll 0).
    apply roll_loop_type; rewrite ?Hroll; lra.
  - exists ((w1 + w2 + w3 * 0.5) / total).
    split; [apply Hunit; lra |].
    intros amb n Hr. unfold bind, Math_random. cbn [fst snd]. rewrite Hr.
    specialize (Hroll (w1 + w2 + w3 * 0.5)).
    apply roll_loop_type; rewrite ?Hroll; lra.
  - exists ((w1 + w2 * 0.5) / total).
    split; [apply Hunit; lra |].
    intros amb n Hr. unfold bind, Math_random. cbn [fst snd]. rewrite Hr.
    specialize (Hroll (w1 + w2 * 0.5)).
    apply roll_loop_type; rewrite ?Hroll; lra.
  - exists ((w1 + w2 + w3 + w4 * 0.5) / total).
    split; [apply Hunit; lra |].
    intros amb n Hr. unfold bind, Math_random. cbn [fst snd]. rewrite Hr.
    specialize (Hroll (w1 + w2 + w3 + w4 * 0.5)).
    apply roll_loop_type; rewrite ?Hroll; lra.
Qed.

(** A world that a long fear has turned against risk still proposes an
    ATTACK when the roll is high. *)
Example generateAction_attack_possible :
  type (generateAction "npc-1" wary_world actors
          {| uuid_source := uuid_source sample_ambient;
             random_source := fun _ => 0.99;
             clock_source := clock_source sample_ambient |} 0%nat).1
  = ATTACK.
Proof. vm_compute. reflexivity. Qed.

End FloorFacts.

(** ** modules/socialGraph.ts: relationship ids *)

Section RelationshipIdFacts.

Lemma includes_gt_cons (c : ascii) (rest : string) :
  includes (String c rest) ">" = false ->
  c <> ">"%char /\ includes rest ">" = false.
Proof.
  cbn [includes String.prefix].
  destruct (ascii_dec ">" c) as [<- | Hne].
  - by destruct rest.
  - intros H. split; [congruence | exact H].
Qed.

Lemma arrow_position (s1 s2 t1 t2 : string) :
  plain_id s1 -> plain_id s2 ->
  s1 +:+ "->" +:+ t1 = s2 +:+ "->" +:+ t2 -> s1 = s2 /\ t1 = t2.
Proof.
  unfold plain_id. revert s2.
  induction s1 as [| c1 s1 IH]; intros [| c2 s2] H1 H2 Heq;
    cbv [String.append] in Heq; fold String.append in Heq.
  - by injection Heq as ->.
  - injection Heq as <- Heq.
    apply includes_gt_cons in H2 as [_ H2].
    destruct s2 as [| d s2]; cbv [String.append] in Heq;
      fold String.append in Heq; [discriminate |].
    injection Heq as <- _. apply includes_gt_cons in H2 as [Hd _]. done.
  - injection Heq as -> Heq.
    apply includes_gt_cons in H1 as [_ H1].
    destruct s1 as [| d s1]; cbv [String.append] in Heq;
      fold String.append in Heq; [discriminate |].
    injection Heq as -> _. apply includes_gt_cons in H1 as [Hd _]. done.
  - injection Heq as -> Heq.
    apply includes_gt_cons in H1 as [_ H1].
    apply includes_gt_cons in H2 as [_ H2].
    destruct (IH s2 H1 H2 Heq) as [-> ->]. done.
Qed.

End RelationshipIdFacts.

(** ** modules/actionSelector.ts: relations after an action *)

Section RelationUpdateFacts.
Local Open Scope Q_scope.

Lemma upsertRelationship_shifted graph sourceId targetId delta currentTurn :
  shifted graph (upsertRelationship graph sourceId targetId delta currentTurn)
          sourceId targetId delta currentTurn.
Proof.
  unfold shifted, getRelationship, upsertRelationship.
  cbn [relationships]. rewrite lookup_insert_eq. eexists.
  split; [reflexivity |].
  destruct (relationships graph !! createRelationshipId sourceId targetId)
    as [old |]; cbn [fmap option_fmap option_map nullish trust intimacy
                     interactions lastInteractionTurn].
  - by repeat split.
  - split; [apply clamp_compat; ring |].
    split; [apply clamp_compat; ring |]. done.
Qed.

Lemma upsertRelationship_other graph sourceId targetId delta currentTurn
    (s t : string) :
  createRelationshipId s t <> createRelationshipId sourceId targetId ->
  getRelationship
    (upsertRelationship graph sourceId targetId delta currentTurn) s t
  = getRelationship graph s t.
Proof.
  intros Hne. unfold getRelationship, upsertRelationship.
  cbn [relationships]. by rewrite lookup_insert_ne.
Qed.

(** X23. [createRelationshipId] tells two edges apart when the source ids
    do not contain the character [>]: equal ids then come from equal
    sources and equal targets, and [upsertRelationship] on one edge leaves
    what [getRelationship] reads for any other edge as it was. *)
Theorem createRelationshipId_injective (s1 t1 s2 t2 : string) :
  plain_id s1 -> plain_id s2 ->
  (createRelationshipId s1 t1 = createRelationshipId s2 t2 ->
   s1 = s2 /\ t1 = t2) /\
  ((s1, t1) <> (s2, t2) ->
   forall graph delta currentTurn,
     getRelationship (upsertRelationship graph s1 t1 delta currentTurn) s2 t2
     = getRelationship graph s2 t2).
Proof.
  intros H1 H2. split; [by apply arrow_position |].
  intros Hne graph delta currentTurn. apply upsertRelationship_other.
  intros Heq. apply Hne. symmetry in Heq.
  by apply arrow_position in Heq as [-> ->].
Qed.

Lemma createRelationshipId_injective_witness :
  getRelationship
    (upsertRelationship sample_graph "b" "a"
       {| delta_trust := Some 0.3; delta_intimacy := None |} 6) "a" "b"
  = getRelationship sample_graph "a" "b".
Proof.
  destruct (createRelationshipId_injective "b" "a" "a" "b") as [_ Hother];
    [reflexivity | reflexivity |].
  apply Hother. discriminate.
Defined.

(** Without that condition two different edges can share an id, and
    writing one of them is read back as the other. *)
Example createRelationshipId_collision :
  createRelationshipId "a->b" "c" = createRelationshipId "a" "b->c" /\
  is_Some (getRelationship
             (upsertRelationship createEmptySocialGraph "a->b" "c"
                {| delta_trust := Some 0.3%Q; delta_intimacy := None |} 1)
             "a" "b->c").
Proof. split; [reflexivity | by eexists]. Qed.

Lemma shifted_twice graph (a b : string) (forth back : Delta) (now : Z) :
  plain_id a -> plain_id b -> a <> b ->
  let graph' :=
    upsertRelationship (upsertRelationship graph a b forth now) b a back now in
  shifted graph graph' a b forth now /\ shifted graph graph' b a back now.
Proof.
  intros Ha Hb Hne graph'. subst graph'.
  assert (Hid : createRelationshipId a b <> createRelationshipId b a).
  { intros Heq. by apply arrow_position in Heq as [? _]. }
  split.
  - pose proof (upsertRelationship_shifted graph a b forth now) as H.
    unfold shifted in *. by rewrite upsertRelationship_other.
  - pose proof (upsertRelationship_shifted
                  (upsertRelationship graph a b forth now) b a back now) as H.
    unfold shifted in *.
    by rewrite (upsertRelationship_other graph a b forth now b a) in H.
Qed.

(** X24. [updateRelationsFromAction] never changes the world or the
    characters, keeps every trust in [[-1, 1]] and every intimacy in
    [[0, 1]], and returns the state as it is for an action without a
    target and for a MOVE or a WAIT.  For an action with a target other
    than the actor, both ids without the character [>]: a SPEAK shifts what
    the actor holds of the target by trust 0.05 and intimacy 0.08, and what
    the target holds of the actor by 0.03 and 0.05; an ATTACK by -0.3 and
    -0.1, and by -0.5 and -0.2; each within the ranges, from 0 for an edge
    that did not exist, with one more interaction and dated with the turn
    of the world. *)
Theorem updateRelationsFromAction_effect
    (gameState : GameState) (action : Action) :
  let gameState' := updateRelationsFromAction gameState action in
  let graph := socialGraph gameState in
  let graph' := socialGraph gameState' in
  let now := turn (game_world gameState) in
  game_world gameState' = game_world gameState /\
  characters gameState' = characters gameState /\
  (graph_in_range graph -> graph_in_range graph') /\
  (no_target (targetId action) = true \/ type action = MOVE
   \/ type action = WAIT ->
   gameState' = gameState) /\
  (forall target,
      targetId action = Some target -> target <> ""%string ->
      plain_id (actorId action) -> plain_id target ->
      actorId action <> target ->
      (type action = SPEAK ->
       shifted graph graph' (actorId action) target speak_forth now /\
       shifted graph graph' target (actorId action) speak_back now) /\
      (type action = ATTACK ->
       shifted graph graph' (actorId action) target attack_forth now /\
       shifted graph graph' target (actorId action) attack_back now)).
Proof.
  cbv zeta. unfold updateRelationsFromAction.
  destruct (no_target (targetId action)) eqn:Hno.
  { split; [done |]. split; [done |]. split; [by intros H |].
    split; [done |].
    intros target Htarget Hnonempty. rewrite Htarget in Hno.
    cbn [no_target] in Hno. by apply String.eqb_eq in Hno. }
  cbn [game_world characters socialGraph].
  split; [done |]. split; [done |]. split; [| split].
  - intros Hrange.
    destruct (type action); repeat apply upsertRelationship_in_range; done.
  - intros [H | [H | H]]; [done | |]; rewrite H; by destruct gameState.
  - intros target Htarget Hnonempty Ha Hb Hne. rewrite Htarget.
    cbn [nullish]. split; intros ->; by apply shifted_twice.
Qed.

Lemma updateRelationsFromAction_effect_witness :
  graph_in_range
    (socialGraph (updateRelationsFromAction sample_game attack_neighbour)) /\
  shifted sample_graph
          (socialGraph (updateRelationsFromAction sample_game attack_neighbour))
          "b" "a" attack_forth 1 /\
  shifted sample_graph
          (socialGraph (updateRelationsFromAction sample_game attack_neighbour))
          "a" "b" attack_back 1.
Proof.
  destruct (updateRelationsFromAction_effect sample_game attack_neighbour)
    as (_ & _ & Hrange & _ & Heffect).
  split.
  - apply Hrange. intros id rel Hrel.
    unfold sample_game, sample_graph in Hrel.
    cbn [socialGraph relationships] in Hrel.
    apply lookup_singleton_Some in Hrel as [_ <-].
    unfold relationship_in_range. cbn. lra.
  - destruct (Heffect "a"%string) as [_ Hattack];
      try reflexivity; try discriminate.
    apply Hattack. reflexivity.
Defined.

(** The attacked neighbour held trust 0.5 and intimacy 0.4 of the attacker:
    trust 0 and intimacy 0.2 are left. *)
Example updateRelationsFromAction_attack :
  (fun rel => (trust rel, intimacy rel, interactions rel))
    <$> getRelationship
          (socialGraph (updateRelationsFromAction sample_game
                          attack_neighbour)) "a" "b"
  = Some (clamp (0.5 + -0.5) (-1) 1, clamp (0.4 + -0.2) 0 1, 2%Z).
Proof. reflexivity. Qed.

End RelationUpdateFacts.

(** ** modules/socialGraph.ts: centrality *)

Section CentralityFacts.
Local Open Scope Q_scope.

Lemma foldl_keys {A B S} (f : S -> A -> S) (l : list (A * B)) (s : S) :
  foldl f s l.*1 = foldl (fun s '(k, _) => f s k) s l.
Proof.
  revert s. induction l as [| [k v] l IH]; intros s; [done |].
  cbn [fmap list_fmap foldl fst]. apply IH.
Qed.

(** X26. [calculateDegreeCentrality] gives a value to the nodes of the
    graph and to nothing else: 0 in a graph of at most one node, and
    otherwise the number of ids in the two adjacency lists of the node
    divided by [2 * (n - 1)], which is never negative. *)
Theorem calculateDegreeCentrality_lookup
    (graph : SocialGraphState) (id : string) :
  let n := size (nodes graph) in
  calculateDegreeCentrality graph !! id
  = (fun node => if (n <=? 1)%nat then 0 else normalized_degree n node)
      <$> nodes graph !! id /\
  forall c, calculateDegreeCentrality graph !! id = Some c -> 0 <= c.
Proof.
  intros n.
  assert (Hlookup :
    calculateDegreeCentrality graph !! id
    = (fun node => if (n <=? 1)%nat then 0 else normalized_degree n node)
        <$> nodes graph !! id).
  { unfold calculateDegreeCentrality. fold n.
    destruct (Nat.leb_spec n 1) as [Hle | Hgt].
    - rewrite (foldl_keys (fun (centrality : gmap string Q) id =>
                             <[id := 0]> centrality)).
      rewrite (foldl_set_map_entries _ (fun _ _ => 0))
        by (by intros acc k v).
      by destruct (nodes graph !! id).
    - rewrite (foldl_set_map_entries _ (fun _ node => normalized_degree n node))
        by (by intros acc k v).
      by destruct (nodes graph !! id). }
  split; [exact Hlookup |].
  intros c. rewrite Hlookup.
  destruct (nodes graph !! id) as [node |]; [| done].
  cbn [fmap option_fmap option_map]. intros [= <-].
  destruct (Nat.leb_spec n 1) as [Hle | Hgt]; [lra |].
  unfold normalized_degree.
  assert (Hn : 2 <= inject_Z (Z.of_nat n)).
  { change 2 with (inject_Z 2). rewrite <- Zle_Qle. lia. }
  apply Qle_shift_div_l; [lra |].
  rewrite Qmult_0_l. change 0 with (inject_Z 0). rewrite <- Zle_Qle. lia.
Qed.

Lemma calculateDegreeCentrality_lookup_witness : 0 <= 1 / (2 * (2 - 1)).
Proof.
  destruct (calculateDegreeCentrality_lookup sample_graph "a") as [_ Hpos].
  apply Hpos. reflexivity.
Defined.

(** In the sample graph each of the two nodes has one of the two possible
    edges at each of its ends. *)
Example calculateDegreeCentrality_sample :
  calculateDegreeCentrality sample_graph !! "a" = Some (1 / (2 * (2 - 1))) /\
  calculateDegreeCentrality (addCharacterNode createEmptySocialGraph "a")
    !! "a" = Some 0.
Proof. split; reflexivity. Qed.

End CentralityFacts.

(** ** modules/socialGraph.ts: the ranks *)

Section RankFacts.
Local Open Scope Q_scope.

Lemma Qdiv_nonneg (a b : Q) : 0 <= a -> 0 <= b -> 0 <= a / b.
Proof.
  intros Ha Hb. unfold Qdiv. apply Qmult_le_0_compat; [done |].
  by apply Qinv_le_0_compat.
Qed.

Lemma node_count_size graph :
  node_count graph = inject_Z (Z.of_nat (size (nodes graph))).
Proof.
  unfold node_count. by rewrite length_fmap, length_map_to_list.
Qed.

Lemma node_count_positive graph : nodes graph <> ∅ -> 0 < node_count graph.
Proof.
  intros Hnodes. rewrite node_count_size. change 0 with (inject_Z 0).
  rewrite <- Zlt_Qlt. apply map_size_non_empty_iff in Hnodes. lia.
Qed.

Lemma incoming_sum_nonneg graph ranks (l : list string) (sum : Q) :
  graph_in_range graph ->
  (forall id r, ranks !! id = Some r -> 0 <= r) ->
  0 <= sum -> 0 <= foldl (incoming_body graph ranks) sum l.
Proof.
  intros Hrange Hranks. revert sum.
  induction l as [| relId l IH]; intros sum Hsum; [done |].
  cbn [foldl]. apply IH. unfold incoming_body.
  destruct (relationships graph !! relId) as [rel |] eqn:Hrel; [| done].
  destruct (nodes graph !! rel_sourceId rel) as [sourceNode |]; [| done].
  destruct (Hrange relId rel Hrel) as [[Ht _] _].
  assert (Hrank : 0 <= nullish (ranks !! rel_sourceId rel) 0).
  { destruct (ranks !! rel_sourceId rel) as [r |] eqn:E; cbn [nullish];
      [by eapply Hranks | lra]. }
  assert (Hdiv : 0 <= (0.5 + 0.5 * ((trust rel + 1) / 2))
                      * nullish (ranks !! rel_sourceId rel) 0
                      / inject_Z (Z.of_nat (length
                                              (outgoingRelations sourceNode)))).
  { apply Qdiv_nonneg.
    - apply Qmult_le_0_compat; [| done].
      assert (0 <= (trust rel + 1) / 2) by (apply Qle_shift_div_l; lra). lra.
    - change 0 with (inject_Z 0). rewrite <- Zle_Qle. lia. }
  lra.
Qed.

Lemma sweep_ranks_list graph n ranks (l : list (string * CharacterNode))
    (newRanks : gmap string Q) (maxDiff : Q) :
  (foldl (node_body graph n ranks) (newRanks, maxDiff) l).1
  = foldl (fun (newRanks : gmap string Q) '(nodeId, node) =>
             <[nodeId := new_rank graph n ranks node]> newRanks)
          newRanks l.
Proof.
  revert newRanks maxDiff. induction l as [| [nodeId node] l IH];
    intros newRanks maxDiff; [done |].
  cbn [foldl node_body]. by rewrite IH.
Qed.

Lemma pagerank_sweep_lookup graph n ranks (id : string) :
  (pagerank_sweep graph n ranks).1 !! id
  = new_rank graph n ranks <$> nodes graph !! id.
Proof.
  unfold pagerank_sweep. rewrite sweep_ranks_list.
  rewrite (foldl_set_map_entries _ (fun _ node => new_rank graph n ranks node))
    by (by intros acc k v).
  by destruct (nodes graph !! id).
Qed.

Lemma commit_ranks_lookup ranks newRanks (id : string) :
  commit_ranks ranks newRanks !! id
  = match newRanks !! id with
    | Some r => Some r
    | None => ranks !! id
    end.
Proof.
  unfold commit_ranks.
  by rewrite (foldl_set_map_entries _ (fun _ r => r)) by (by intros acc k v).
Qed.

Lemma pagerank_step_above graph (ranks : gmap string Q) :
  graph_in_range graph -> nodes graph <> ∅ ->
  ranks_above graph (base_rank graph) ranks ->
  ranks_above graph (base_rank graph)
              (commit_ranks ranks
                 (pagerank_sweep graph (node_count graph) ranks).1).
Proof.
  intros Hrange Hnodes [Hdom Hall].
  pose proof (node_count_positive graph Hnodes) as Hn.
  assert (Hbase : 0 <= base_rank graph).
  { unfold base_rank, PAGERANK_DAMPING. apply Qle_shift_div_l; lra. }
  split.
  - apply set_eq. intros id. rewrite !elem_of_dom.
    rewrite commit_ranks_lookup, pagerank_sweep_lookup.
    destruct (nodes graph !! id) as [node |] eqn:Hnode;
      cbn [fmap option_fmap option_map].
    + split; by eexists.
    + rewrite <- !elem_of_dom, Hdom, elem_of_dom, Hnode. done.
  - intros id r. rewrite commit_ranks_lookup, pagerank_sweep_lookup.
    destruct (nodes graph !! id) as [node |] eqn:Hnode;
      cbn [fmap option_fmap option_map]; [| apply Hall].
    intros [= <-]. unfold new_rank. fold (base_rank graph).
    assert (Hsum : 0 <= foldl (incoming_body graph ranks) 0
                              (incomingRelations node)).
    { apply incoming_sum_nonneg; [done | | lra].
      intros id' r' Hr'. specialize (Hall id' r' Hr'). lra. }
    unfold PAGERANK_DAMPING. nra.
Qed.

Lemma pagerank_loop_above graph (remaining : nat) (ranks : gmap string Q) :
  graph_in_range graph -> nodes graph <> ∅ ->
  ranks_above graph (base_rank graph) ranks ->
  ranks_above graph (base_rank graph)
              (pagerank_loop graph (node_count graph) remaining ranks).1.
Proof.
  intros Hrange Hnodes. revert ranks.
  induction remaining as [| remaining IH]; intros ranks Hranks; [done |].
  cbn [pagerank_loop].
  pose proof (pagerank_step_above graph ranks Hrange Hnodes Hranks) as Hstep.
  destruct (pagerank_sweep graph (node_count graph) ranks)
    as [newRanks maxDiff].
  destruct (Qlt_bool maxDiff PAGERANK_TOLERANCE); [done |].
  specialize (IH _ Hstep). cbn [fst] in IH.
  by destruct (pagerank_loop graph (node_count graph) remaining
                 (commit_ranks ranks newRanks)).
Qed.

Lemma initial_ranks_above graph :
  nodes graph <> ∅ ->
  ranks_above graph (base_rank graph)
              (initial_ranks (map_to_list (nodes graph)).*1
                             (node_count graph)).
Proof.
  intros Hnodes.
  pose proof (node_count_positive graph Hnodes) as Hn.
  assert (Hlookup : forall id,
    initial_ranks (map_to_list (nodes graph)).*1 (node_count graph) !! id
    = (fun _ => 1 / node_count graph) <$> nodes graph !! id).
  { intros id. unfold initial_ranks.
    rewrite (foldl_keys (fun (ranks : gmap string Q) id =>
                           <[id := 1 / node_count graph]> ranks)).
    rewrite (foldl_set_map_entries _ (fun _ _ => 1 / node_count graph))
      by (by intros acc k v).
    by destruct (nodes graph !! id). }
  split.
  - apply set_eq. intros id. rewrite !elem_of_dom, Hlookup.
    by rewrite fmap_is_Some.
  - intros id r. rewrite Hlookup.
    destruct (nodes graph !! id); [| done].
    intros [= <-]. unfold base_rank, PAGERANK_DAMPING.
    apply Qle_shift_div_l; [done |].
    unfold Qdiv at 1. rewrite <- Qmult_assoc, (Qmult_comm (/ _)).
    rewrite Qmult_inv_r by lra. lra.
Qed.

(** X27. On a graph whose trusts and intimacies are within their ranges,
    [calculatePageRank] gives a rank to every node and to nothing else, and
    no rank is below [(1 - 0.85) / n], the share that does not depend on
    the edges. *)
Theorem calculatePageRank_bounds (graph : SocialGraphState) :
  graph_in_range graph ->
  dom (calculatePageRank graph) = dom (nodes graph) /\
  forall id r,
    calculatePageRank graph !! id = Some r -> base_rank graph <= r.
Proof.
  intros Hrange. unfold calculatePageRank, calculatePageRank_trace.
  destruct (decide (nodes graph = ∅)) as [Hempty | Hnodes].
  - rewrite Hempty, map_to_list_empty. cbn. by rewrite dom_empty_L.
  - rewrite nodes_count_positive by exact Hnodes.
    fold (node_count graph).
    apply pagerank_loop_above; [done | done |].
    by apply initial_ranks_above.
Qed.

Lemma calculatePageRank_bounds_witness :
  dom (calculatePageRank sample_graph) = dom (nodes sample_graph).
Proof.
  apply (calculatePageRank_bounds sample_graph).
  intros id rel Hrel. unfold sample_graph in Hrel. cbn [relationships] in Hrel.
  apply lookup_singleton_Some in Hrel as [_ <-].
  unfold relationship_in_range. cbn. lra.
Defined.

End RankFacts.

(** ** modules/actionSelector.ts: the initial game *)

Section InitialGameFacts.
Local Open Scope Q_scope.

Lemma character_loop (ids : list string)
    (characters : gmap string GameCharacter) (graph : SocialGraphState) :
  foldl (fun (st : gmap string GameCharacter * SocialGraphState) id =>
           let '(characters, graph) := st in
           (<[id := default_character id]> characters,
            addCharacterNode graph id))
        (characters, graph) ids
  = (foldl (fun (characters : gmap string GameCharacter) id =>
              <[id := default_character id]> characters) characters ids,
     foldl addCharacterNode graph ids).
Proof.
  revert characters graph.
  induction ids as [| id ids IH]; intros characters graph; [done |].
  cbn [foldl]. apply IH.
Qed.

Lemma character_loop_lookup (ids : list string)
    (characters : gmap string GameCharacter) (id : string) :
  foldl (fun (characters : gmap string GameCharacter) id =>
           <[id := default_character id]> characters) characters ids !! id
  = if decide (id ∈ ids) then Some (default_character id)
    else characters !! id.
Proof.
  revert characters. induction ids as [| i ids IH]; intros characters.
  - cbn. by rewrite decide_False by apply not_elem_of_nil.
  - cbn [foldl]. rewrite IH.
    destruct (decide (id ∈ ids)) as [Hin | Hout].
    + by rewrite decide_True by (by right).
    + destruct (decide (id = i)) as [-> | Hne].
      * rewrite decide_True by (by left). by rewrite lookup_insert_eq.
      * rewrite lookup_insert_ne by done.
        rewrite decide_False; [done |].
        by intros [? | ?]%elem_of_cons.
Qed.

Lemma node_loop (ids : list string) (graph : SocialGraphState) :
  relationships (foldl addCharacterNode graph ids) = relationships graph /\
  forall id, is_Some (nodes (foldl addCharacterNode graph ids) !! id)
             <-> id ∈ ids \/ is_Some (nodes graph !! id).
Proof.
  revert graph. induction ids as [| i ids IH]; intros graph.
  - cbn. split; [done |]. intros id. split; [by right |].
    intros [H | H]; [by apply elem_of_nil in H | done].
  - cbn [foldl]. destruct (IH (addCharacterNode graph i)) as [Hrel Hnodes].
    split.
    + rewrite Hrel. unfold addCharacterNode.
      by destruct (nodes graph !! i).
    + intros id. rewrite Hnodes, elem_of_cons.
      assert (Hadd : is_Some (nodes (addCharacterNode graph i) !! id)
                     <-> id = i \/ is_Some (nodes graph !! id)).
      { unfold addCharacterNode.
        destruct (nodes graph !! i) as [node |] eqn:Hi.
        - split; [by right |]. intros [-> | H]; [by rewrite Hi | done].
        - cbn [nodes]. rewrite lookup_insert_is_Some.
          destruct (decide (i = id)) as [-> | Hne]; [split; by left |].
          split; [intros [? | [_ ?]]; [done | by right] |].
          intros [-> | ?]; [done | right; by split]. }
      rewrite Hadd. tauto.
Qed.

Lemma link_loop_inner (a : string) (bs : list string)
    (graph : SocialGraphState) (now : Z) :
  foldl (fun (graph : SocialGraphState) idB =>
           if negb (String.eqb a idB)
           then upsertRelationship graph a idB link_delta now
           else graph) graph bs
  = foldl (fun graph (p : string * string) =>
             upsertRelationship graph p.1 p.2 link_delta now)
          graph ((fun b => (a, b)) <$> filter (fun b => a <> b) bs).
Proof.
  revert graph. induction bs as [| b bs IH]; intros graph; [done |].
  cbn [foldl]. rewrite filter_cons.
  destruct (String.eqb_spec a b) as [-> | Hne]; cbn [negb].
  - rewrite decide_False by (intros H; by apply H). apply IH.
  - rewrite decide_True by done. rewrite fmap_cons. cbn [foldl fst snd].
    apply IH.
Qed.

Lemma link_loop (ids all : list string) (graph : SocialGraphState) (now : Z) :
  foldl (fun (graph : SocialGraphState) idA =>
           foldl (fun (graph : SocialGraphState) idB =>
                    if negb (String.eqb idA idB)
                    then upsertRelationship graph idA idB link_delta now
                    else graph) graph all) graph ids
  = foldl (fun graph (p : string * string) =>
             upsertRelationship graph p.1 p.2 link_delta now)
          graph
          (a ← ids; (fun b => (a, b)) <$> filter (fun b => a <> b) all).
Proof.
  revert graph. induction ids as [| a ids IH]; intros graph; [done |].
  cbn [foldl]. rewrite bind_cons, foldl_app, <- link_loop_inner. apply IH.
Qed.

Lemma elem_of_ordered_pairs (ids : list string) (a b : string) :
  (a, b) ∈ ordered_pairs ids <-> a ∈ ids /\ b ∈ ids /\ a <> b.
Proof.
  unfold ordered_pairs. rewrite list_elem_of_bind. split.
  - intros (a' & Hin & Ha').
    apply list_elem_of_fmap in Hin as (b' & [= -> ->] & Hb').
    apply list_elem_of_filter in Hb' as [Hne Hb']. done.
  - intros (Ha & Hb & Hne). exists a. split; [| done].
    apply list_elem_of_fmap. exists b. split; [done |].
    by apply list_elem_of_filter.
Qed.

Lemma NoDup_ordered_pairs (ids : list string) :
  NoDup ids -> NoDup (ordered_pairs ids).
Proof.
  intros Hnd. unfold ordered_pairs. apply NoDup_bind; [| | done].
  - intros a1 a2 [a b] _ _ H1 H2.
    apply list_elem_of_fmap in H1 as (b1 & [= -> ->] & _).
    apply list_elem_of_fmap in H2 as (b2 & [= -> ->] & _). done.
  - intros a _. apply NoDup_fmap_2; [by intros b1 b2 [= ->] |].
    by apply NoDup_filter.
Qed.

Lemma link_pairs_frame (pairs : list (string * string))
    (graph : SocialGraphState) (now : Z) (a b : string) :
  plain_id a -> Forall (fun p => plain_id p.1) pairs -> (a, b) ∉ pairs ->
  relationships
    (foldl (fun graph (p : string * string) =>
              upsertRelationship graph p.1 p.2 link_delta now) graph pairs)
    !! createRelationshipId a b
  = relationships graph !! createRelationshipId a b.
Proof.
  intros Ha. revert graph.
  induction pairs as [| [s t] pairs IH]; intros graph Hplain Hout; [done |].
  apply Forall_cons in Hplain as [Hs Hplain].
  apply not_elem_of_cons in Hout as [Hne Hout].
  cbn [foldl fst snd]. rewrite IH by done.
  apply (upsertRelationship_other graph s t link_delta now a b).
  intros Heq. apply arrow_position in Heq as [-> ->]; done.
Qed.

Lemma link_pairs_lookup (pairs : list (string * string))
    (graph : SocialGraphState) (now : Z) (a b : string) :
  plain_id a -> Forall (fun p => plain_id p.1) pairs -> NoDup pairs ->
  (a, b) ∈ pairs ->
  relationships graph !! createRelationshipId a b = None ->
  relationships
    (foldl (fun graph (p : string * string) =>
              upsertRelationship graph p.1 p.2 link_delta now) graph pairs)
    !! createRelationshipId a b
  = Some (first_link a b now).
Proof.
  intros Ha. revert graph.
  induction pairs as [| [s t] pairs IH];
    intros graph Hplain Hnd Hin Hnone; [by apply elem_of_nil in Hin |].
  apply Forall_cons in Hplain as [Hs Hplain].
  apply NoDup_cons in Hnd as [Hfresh Hnd].
  cbn [foldl fst snd].
  destruct (decide ((a, b) = (s, t))) as [[= <- <-] | Hne].
  - rewrite link_pairs_frame by done.
    unfold upsertRelationship. cbn [relationships].
    rewrite lookup_insert_eq, Hnone. reflexivity.
  - apply elem_of_cons in Hin as [Heq | Hin]; [done |].
    apply IH; [done | done | done |].
    fold (getRelationship
            (upsertRelationship graph s t link_delta now) a b).
    rewrite upsertRelationship_other; [exact Hnone |].
    intros Heq. apply arrow_position in Heq as [-> ->]; done.
Qed.

Lemma link_pairs_nodes (pairs : list (string * string))
    (graph : SocialGraphState) (now : Z) (id : string) :
  is_Some (nodes (foldl (fun graph (p : string * string) =>
                           upsertRelationship graph p.1 p.2 link_delta now)
                        graph pairs) !! id)
  <-> is_Some (nodes graph !! id).
Proof.
  revert graph. induction pairs as [| [s t] pairs IH]; intros graph; [done |].
  cbn [foldl fst snd]. rewrite IH, upsertRelationship_node.
  by rewrite fmap_is_Some.
Qed.

Lemma createInitialGameState_unfold (characterIds : list string)
    (world : ExtendedWorldState) :
  createInitialGameState characterIds world
  = {| game_world := world;
       characters :=
         foldl (fun (characters : gmap string GameCharacter) id =>
                  <[id := default_character id]> characters) ∅ characterIds;
       socialGraph :=
         foldl (fun graph (p : string * string) =>
                  upsertRelationship graph p.1 p.2 link_delta (turn world))
               (foldl addCharacterNode createEmptySocialGraph characterIds)
               (ordered_pairs characterIds) |}.
Proof.
  unfold createInitialGameState.
  change (fun (st : gmap string GameCharacter * SocialGraphState) id =>
            let '(characters, graph) := st in
            (<[id := {| char_id := id; char_name := getCharacterName id;
                        char_needs := createDefaultNeedState;
                        char_beliefs := createBeliefState id;
                        char_traits := [];
                        char_intelligence := 0.7; char_location := "TOWN" |}]>
               characters, addCharacterNode graph id))
    with (fun (st : gmap string GameCharacter * SocialGraphState) id =>
            let '(characters, graph) := st in
            (<[id := default_character id]> characters,
             addCharacterNode graph id)).
  rewrite character_loop.
  change {| delta_trust := Some 0; delta_intimacy := Some 0.1 |}
    with link_delta.
  by rewrite link_loop.
Qed.

(** X28. [createInitialGameState] keeps the world, makes the default
    character and a node for each id and for nothing else and, when the ids
    are different from each other and without the character [>], links
    every ordered pair of different characters by one edge of trust 0 and
    intimacy 0.1 with one interaction, dated with the turn of the world. *)
Theorem createInitialGameState_links
    (characterIds : list string) (world : ExtendedWorldState) :
  let gameState := createInitialGameState characterIds world in
  game_world gameState = world /\
  (forall id,
      characters gameState !! id
      = if decide (id ∈ characterIds) then Some (default_character id)
        else None) /\
  (forall id,
      is_Some (nodes (socialGraph gameState) !! id) <-> id ∈ characterIds) /\
  (NoDup characterIds -> Forall plain_id characterIds ->
   forall a b,
     a ∈ characterIds -> b ∈ characterIds -> a <> b ->
     getRelationship (socialGraph gameState) a b
     = Some (first_link a b (turn world))).
Proof.
  cbv zeta. rewrite createInitialGameState_unfold.
  cbn [game_world characters socialGraph].
  destruct (node_loop characterIds createEmptySocialGraph) as [Hrel Hnodes].
  split; [done |]. split; [| split].
  - intros id. by rewrite character_loop_lookup, lookup_empty.
  - intros id. rewrite link_pairs_nodes, Hnodes.
    unfold createEmptySocialGraph. cbn [nodes]. rewrite lookup_empty. split; [intros [? | [? ?]]; done | by left].
  - intros Hnd Hplain a b Ha Hb Hne. unfold getRelationship.
    apply link_pairs_lookup.
    + by apply (proj1 (Forall_forall _ _) Hplain).
    + apply Forall_forall. intros [s t] Hst.
      apply elem_of_ordered_pairs in Hst as (Hs & _ & _).
      by apply (proj1 (Forall_forall _ _) Hplain).
    + by apply NoDup_ordered_pairs.
    + by apply elem_of_ordered_pairs.
    + by rewrite Hrel.
Qed.

Lemma createInitialGameState_links_witness :
  getRelationship (socialGraph (createInitialGameState actors initialWorld))
                  "npc-3" "npc-1"
  = Some (first_link "npc-3" "npc-1" 1).
Proof.
  assert (Hnd : NoDup actors).
  { unfold actors.
    repeat (apply NoDup_cons; split;
            [by intros H; repeat (apply elem_of_cons in H as [H | H];
                                  [discriminate |]);
                apply elem_of_nil in H |]).
    apply NoDup_nil_2. }
  assert (Hplain : Forall plain_id actors).
  { unfold actors. repeat (apply Forall_cons; split; [reflexivity |]).
    apply Forall_nil_2. }
  assert (H3 : "npc-3"%string ∈ actors) by (unfold actors; repeat constructor).
  assert (H1 : "npc-1"%string ∈ actors) by (unfold actors; repeat constructor).
  assert (Hne : "npc-3"%string <> "npc-1"%string) by discriminate.
  destruct (createInitialGameState_links actors initialWorld)
    as (_ & _ & _ & Hlinks).
  exact (Hlinks Hnd Hplain "npc-3"%string "npc-1"%string H3 H1 Hne).
Defined.

(** An id that is given twice is linked twice: the intimacy is added
    again and the interaction counted again. *)
Example createInitialGameState_repeated :
  (fun rel => (intimacy rel, interactions rel))
    <$> getRelationship
          (socialGraph (createInitialGameState ["a"; "b"; "b"] initialWorld))
          "a" "b"
  = Some (clamp (clamp 0.1 0 1 + 0.1) 0 1, 2%Z).
Proof. reflexivity. Qed.

End InitialGameFacts.

(** ** core/meaningEngine.ts *)

Section PluginFacts.
Local Open Scope Q_scope.

Lemma mapM_Forall2 {A B} (R : A -> B -> Prop) (f : A -> Eff B) (l : list A)
    (amb : Ambient) (n : nat) :
  (forall x amb n, R x (f x amb n).1) -> Forall2 R l (mapM f l amb n).1.
Proof.
  intros Hf. revert n. induction l as [| x l IH]; intros n; [constructor |].
  cbn [mapM]. unfold bind at 1. specialize (Hf x amb n).
  destruct (f x amb n) as [y n1]. unfold bind at 1. specialize (IH n1).
  destruct (mapM f l amb n1) as [ys n2]. cbn [ret fst] in *.
  by constructor.
Qed.

(** Meanings of other types leave the running sum where it is. *)
Lemma running_pressure_others (type type' : string) (value : Q)
    (logs : list ActionLog) (new_meanings : list MeaningEvent) (start : Q) :
  type' <> type ->
  Forall2 (interprets type' value) logs new_meanings ->
  running_pressure type start new_meanings = start.
Proof.
  intros Hne H. revert start.
  induction H as [| l m logs new_meanings (_ & Htype & _) _ IH];
    intros start; [done |].
  unfold running_pressure in *. cbn [foldl]. rewrite Htype.
  apply String.eqb_neq in Hne. rewrite Hne. apply IH.
Qed.

(** Meanings of the type add their intensity once each. *)
Lemma running_pressure_interprets (type : string) (value : Q)
    (logs : list ActionLog) (new_meanings : list MeaningEvent) (start : Q) :
  Forall2 (interprets type value) logs new_meanings ->
  running_pressure type start new_meanings
  = Nat.iter (length logs) (fun sum => sum + value) start.
Proof.
  intros H. revert start.
  induction H as [| l m logs new_meanings (_ & Htype & Hvalue) _ IH];
    intros start; [done |].
  unfold running_pressure in *. cbn [foldl length].
  rewrite Htype, String.eqb_refl, Hvalue, IH.
  by rewrite Nat.iter_succ_r.
Qed.

Lemma running_pressure_app (type : string) (start : Q)
    (l1 l2 : list MeaningEvent) :
  running_pressure type start (l1 ++ l2)
  = running_pressure type (running_pressure type start l1) l2.
Proof. unfold running_pressure. apply foldl_app. Qed.

Lemma evaluate_meaningEngine_run (new_logs : list ActionLog) (amb : Ambient)
    (n : nat) :
  exists fear trust respect,
    (evaluate meaningEngine new_logs amb n).1 = fear ++ trust ++ respect /\
    Forall2 (interprets "FEAR" 0.4) (tagged RISKY new_logs) fear /\
    Forall2 (interprets "TRUST" 0.3) (tagged SOCIAL new_logs) trust /\
    Forall2 (interprets "RESPECT" 0.2) (tagged AGGRESSIVE new_logs) respect.
Proof.
  unfold meaningEngine, register. cbn [app evaluate].
  unfold bind at 1.
  assert (Hfear : Forall2 (interprets "FEAR" 0.4) (tagged RISKY new_logs)
                          (plugin_evaluate FearPlugin new_logs amb n).1).
  { apply mapM_Forall2. by intros l amb' n'. }
  destruct (plugin_evaluate FearPlugin new_logs amb n) as [fear n1].
  unfold bind at 1. unfold bind at 1.
  assert (Htrust : Forall2 (interprets "TRUST" 0.3) (tagged SOCIAL new_logs)
                           (plugin_evaluate TrustPlugin new_logs amb n1).1).
  { apply mapM_Forall2. by intros l amb' n'. }
  destruct (plugin_evaluate TrustPlugin new_logs amb n1) as [trust n2].
  unfold bind at 1. unfold bind at 1.
  assert (Hrespect :
            Forall2 (interprets "RESPECT" 0.2) (tagged AGGRESSIVE new_logs)
                    (plugin_evaluate RespectPlugin new_logs amb n2).1).
  { apply mapM_Forall2. by intros l amb' n'. }
  destruct (plugin_evaluate RespectPlugin new_logs amb n2) as [respect n3].
  unfold bind at 1. cbn [ret fst] in *. rewrite app_nil_r.
  by exists fear, trust, respect.
Qed.

(** X29. The engine with the three plugins gives, for any logs and any
    ambient, first one FEAR meaning of intensity 0.4 for each log tagged
    RISKY, then one TRUST meaning of intensity 0.3 for each log tagged
    SOCIAL, then one RESPECT meaning of intensity 0.2 for each log tagged
    AGGRESSIVE, each with its log as only source; so accumulating these
    meanings adds to the FEAR pressure of a world 0.4 once for each log
    tagged RISKY, one addition after the other, and in the same way 0.3 to
    the TRUST pressure for each log tagged SOCIAL and 0.2 to the RESPECT
    pressure for each log tagged AGGRESSIVE. *)
Theorem evaluate_meaningEngine (new_logs : list ActionLog) (amb : Ambient)
    (n : nat) :
  let new_meanings := (evaluate meaningEngine new_logs amb n).1 in
  (exists fear trust respect,
      new_meanings = fear ++ trust ++ respect /\
      Forall2 (interprets "FEAR" 0.4) (tagged RISKY new_logs) fear /\
      Forall2 (interprets "TRUST" 0.3) (tagged SOCIAL new_logs) trust /\
      Forall2 (interprets "RESPECT" 0.2) (tagged AGGRESSIVE new_logs)
              respect) /\
  forall world,
    let world' := accumulateMeaningPressure world new_meanings in
    pressure_of world' "FEAR"
    = Nat.iter (length (tagged RISKY new_logs)) (fun sum => sum + 0.4)
               (pressure_of world "FEAR") /\
    pressure_of world' "TRUST"
    = Nat.iter (length (tagged SOCIAL new_logs)) (fun sum => sum + 0.3)
               (pressure_of world "TRUST") /\
    pressure_of world' "RESPECT"
    = Nat.iter (length (tagged AGGRESSIVE new_logs)) (fun sum => sum + 0.2)
               (pressure_of world "RESPECT").
Proof.
  cbv zeta.
  destruct (evaluate_meaningEngine_run new_logs amb n)
    as (fear & trust & respect & -> & Hfear & Htrust & Hrespect).
  split; [by exists fear, trust, respect |].
  intros world. unfold pressure_of, accumulateMeaningPressure.
  cbn [meaningPressure with_meaningPressure].
  split; [| split].
  - destruct (accumulate_loop (fear ++ trust ++ respect)
                (meaningPressure world) "FEAR") as (-> & _).
    rewrite !running_pressure_app.
    rewrite (running_pressure_others "FEAR" "RESPECT" 0.2 _ _ _
               ltac:(done) Hrespect).
    rewrite (running_pressure_others "FEAR" "TRUST" 0.3 _ _ _
               ltac:(done) Htrust).
    apply (running_pressure_interprets _ _ _ _ _ Hfear).
  - destruct (accumulate_loop (fear ++ trust ++ respect)
                (meaningPressure world) "TRUST") as (-> & _).
    rewrite !running_pressure_app.
    rewrite (running_pressure_others "TRUST" "RESPECT" 0.2 _ _ _
               ltac:(done) Hrespect).
    rewrite (running_pressure_others "TRUST" "FEAR" 0.4 _ _ _
               ltac:(done) Hfear).
    apply (running_pressure_interprets _ _ _ _ _ Htrust).
  - destruct (accumulate_loop (fear ++ trust ++ respect)
                (meaningPressure world) "RESPECT") as (-> & _).
    rewrite !running_pressure_app.
    rewrite (running_pressure_others "RESPECT" "FEAR" 0.4 _ _ _
               ltac:(done) Hfear).
    rewrite (running_pressure_others "RESPECT" "TRUST" 0.3 _ _ _
               ltac:(done) Htrust).
    apply (running_pressure_interprets _ _ _ _ _ Hrespect).
Qed.

(** The sample actions, a risky move and a safe wait, give one FEAR
    meaning. *)
Example evaluate_sampleActions :
  let new_logs := (mapM executeAction sampleActions sample_ambient 0%nat).1 in
  (fun m => (meaning_type m, sourceLogIds m))
    <$> (evaluate meaningEngine new_logs sample_ambient 4%nat).1
  = [("FEAR"%string, ["A"%string])].
Proof. reflexivity. Qed.

End PluginFacts.

(** ** modules/socialGraph.ts: communities *)

Section CommunityFacts.

Lemma neighbor_body_queue graph current visited queue relId :
  exists pushed,
    neighbor_body graph current visited queue relId = queue ++ pushed /\
    (length pushed <= 1)%nat.
Proof.
  assert (Hsame : exists pushed : list string,
                    queue = queue ++ pushed /\ (length pushed <= 1)%nat).
  { exists []. rewrite app_nil_r. split; [done | cbn; lia]. }
  unfold neighbor_body.
  destruct (relationships graph !! relId) as [rel |]; [| exact Hsame].
  destruct (Qlt_bool 0 (trust rel)); [| exact Hsame].
  cbv zeta. destruct (bool_decide _); [exact Hsame |].
  eexists [_]. split; [reflexivity | done].
Qed.

Lemma neighbor_loop_queue graph current visited (rels : list string) queue :
  exists pushed,
    foldl (neighbor_body graph current visited) queue rels = queue ++ pushed /\
    (length pushed <= length rels)%nat.
Proof.
  revert queue. induction rels as [| relId rels IH]; intros queue.
  - exists []. rewrite app_nil_r. split; [done | cbn; lia].
  - cbn [foldl].
    destruct (neighbor_body_queue graph current visited queue relId)
      as (p1 & -> & Hp1).
    destruct (IH (queue ++ p1)) as (p2 & -> & Hp2).
    exists (p1 ++ p2). rewrite app_assoc. split; [done |].
    rewrite length_app. cbn [length]. lia.
Qed.

Lemma pending_visit graph visited current node :
  nodes graph !! current = Some node -> current ∉ visited ->
  (pending graph (visited ∪ {[current]}) + degree node
   <= pending graph visited)%nat.
Proof.
  intros Hnode Hfresh. unfold pending.
  apply elem_of_map_to_list in Hnode.
  induction (map_to_list (nodes graph)) as [| [k n] l IH];
    [by apply elem_of_nil in Hnode |].
  assert (Hmono : forall l : list (string * CharacterNode),
    (sum_list_with
       (fun e => if bool_decide (e.1 ∈ visited ∪ {[current]}) then 0%nat
                 else degree e.2) l
     <= sum_list_with
          (fun e => if bool_decide (e.1 ∈ visited) then 0%nat
                    else degree e.2) l)%nat).
  { clear. intros l. induction l as [| [k n] l IH]; [done |].
    cbn [sum_list_with fst snd].
    repeat case_bool_decide; try lia. set_solver. }
  cbn [sum_list_with fst snd].
  apply elem_of_cons in Hnode as [[= <- <-] | Hin].
  - rewrite bool_decide_true by set_solver.
    rewrite (bool_decide_false (current ∈ visited)) by done.
    specialize (Hmono l). lia.
  - specialize (IH Hin).
    repeat case_bool_decide; try lia. set_solver.
Qed.

Lemma pending_mono graph (visited visited' : gset string) :
  visited ⊆ visited' -> (pending graph visited' <= pending graph visited)%nat.
Proof.
  intros Hsub. unfold pending.
  induction (map_to_list (nodes graph)) as [| [k n] l IH]; [done |].
  cbn [sum_list_with fst snd].
  repeat case_bool_decide; try lia. set_solver.
Qed.

Lemma pending_total graph (visited : gset string) :
  (pending graph visited <= total_degree graph)%nat.
Proof.
  unfold pending, total_degree.
  induction (map_to_list (nodes graph)) as [| [k n] l IH]; [done |].
  cbn [sum_list_with fst snd]. case_bool_decide; lia.
Qed.

(** With a bound of at least the length of the queue and the pushes to
    come, the [while] loop ends: it visits the queue, gives the community
    to what it visits, and keeps the communities given before. *)
Lemma community_loop_ends graph communityId (fuel : nat) :
  forall (queue : list string) (visited : gset string)
         (communities : gmap string string),
    (length queue + pending graph visited <= fuel)%nat ->
    dom communities = visited ->
    exists visited' communities',
      community_loop fuel graph communityId queue visited communities
      = Some (visited', communities') /\
      visited ⊆ visited' /\
      (forall q, q ∈ queue -> q ∈ visited') /\
      dom communities' = visited' /\
      (forall id, id ∈ visited -> communities' !! id = communities !! id) /\
      (forall id, id ∈ visited' -> id ∉ visited ->
                  communities' !! id = Some communityId).
Proof.
  induction fuel as [| fuel IH]; intros queue visited communities Hfuel Hdom.
  - destruct queue as [| current queue]; [| cbn in Hfuel; lia].
    exists visited, communities. cbn.
    split; [done |]. split; [done |].
    split; [by intros q Hq%elem_of_nil |]. split; [done |].
    split; [done | by intros id ? ?].
  - destruct queue as [| current queue].
    { exists visited, communities. cbn.
      split; [done |]. split; [done |].
      split; [by intros q Hq%elem_of_nil |]. split; [done |].
      split; [done | by intros id ? ?]. }
    cbn [community_loop length] in *.
    case_bool_decide as Hvisited.
    + destruct (IH queue visited communities ltac:(lia) Hdom)
        as (v' & c' & -> & Hsub & Hqueue & Hdom' & Hkeep & Hnew).
      exists v', c'. split; [done |]. split; [done |].
      split; [| done].
      intros q [-> | Hq]%elem_of_cons; [by apply Hsub | by apply Hqueue].
    + assert (Hdom1 : dom (<[current := communityId]> communities)
                      = visited ∪ {[current]}).
      { rewrite dom_insert_L, Hdom. apply union_comm_L. }
      assert (Hresult : forall queue',
        (length queue' + pending graph (visited ∪ {[current]}) <= fuel)%nat ->
        (forall q, q ∈ queue -> q ∈ queue') ->
        exists visited' communities',
          community_loop fuel graph communityId queue'
            (visited ∪ {[current]}) (<[current := communityId]> communities)
          = Some (visited', communities') /\
          visited ⊆ visited' /\
          (forall q, q ∈ current :: queue -> q ∈ visited') /\
          dom communities' = visited' /\
          (forall id, id ∈ visited ->
                      communities' !! id = communities !! id) /\
          (forall id, id ∈ visited' -> id ∉ visited ->
                      communities' !! id = Some communityId)).
      { intros queue' Hfuel' Hqueue'.
        destruct (IH queue' _ _ Hfuel' Hdom1)
          as (v' & c' & Hrun & Hsub & Hqueue & Hdom' & Hkeep & Hnew).
        assert (Hcurrent : current ∈ visited ∪ {[current]}).
        { apply elem_of_union. right. by apply elem_of_singleton. }
        exists v', c'. split; [done |].
        split; [etrans; [apply union_subseteq_l | exact Hsub] |]. split.
        { intros q [-> | Hq]%elem_of_cons; [by apply Hsub |].
          by apply Hqueue, Hqueue'. }
        split; [done |]. split.
        - intros id Hid. rewrite Hkeep by (apply elem_of_union; by left).
          rewrite lookup_insert_ne; [done |]. by intros ->.
        - intros id Hid Hfresh.
          destruct (decide (id = current)) as [-> | Hne].
          + rewrite Hkeep by done. by rewrite lookup_insert_eq.
          + apply Hnew; [done |].
            by intros [? | ?%elem_of_singleton]%elem_of_union. }
      destruct (nodes graph !! current) as [node |] eqn:Hnode.
      * destruct (neighbor_loop_queue graph current (visited ∪ {[current]})
                    (outgoingRelations node ++ incomingRelations node) queue)
          as (pushed & -> & Hpushed).
        pose proof (pending_visit graph visited current node Hnode Hvisited)
          as Hpending.
        unfold degree in Hpending.
        apply Hresult.
        -- rewrite length_app. lia.
        -- intros q Hq. apply elem_of_app. by left.
      * apply Hresult; [| done].
        pose proof (pending_mono graph visited (visited ∪ {[current]})
                      (union_subseteq_l _ _)). lia.
Qed.

Lemma community_loop_more graph communityId (fuel fuel' : nat) :
  forall queue visited communities result,
    community_loop fuel graph communityId queue visited communities
    = Some result ->
    (fuel <= fuel')%nat ->
    community_loop fuel' graph communityId queue visited communities
    = Some result.
Proof.
  revert fuel'. induction fuel as [| fuel IH];
    intros fuel' queue visited communities result Hrun Hle.
  - destruct queue; [| discriminate]. by destruct fuel'.
  - destruct fuel' as [| fuel']; [lia |].
    destruct queue as [| current queue]; [done |].
    cbn [community_loop] in *.
    case_bool_decide; [apply IH; [done | lia] |].
    destruct (nodes graph !! current); apply IH; (done || lia).
Qed.

Lemma community_body_more graph (fuel fuel' : nat) (keys : list string)
    (st : option CommunityState) (result : CommunityState) :
  foldl (community_body fuel graph) st keys = Some result ->
  (fuel <= fuel')%nat ->
  foldl (community_body fuel' graph) st keys = Some result.
Proof.
  intros Hrun Hle. revert st Hrun.
  induction keys as [| key keys IH]; intros st Hrun; [done |].
  cbn [foldl] in *.
  assert (Hsome : is_Some (community_body fuel graph st key)).
  { destruct (community_body fuel graph st key); [done |].
    exfalso. clear -Hrun. induction keys; [done | auto]. }
  destruct Hsome as [st1 Hst1].
  assert (Hst1' : community_body fuel' graph st key = Some st1).
  { unfold community_body in *.
    destruct st as [[[communities visited] counter] |]; [| done].
    case_bool_decide; [done |].
    destruct (community_loop fuel graph (community_name counter) [key]
                visited communities) as [[v c] |] eqn:Hloop; [| done].
    by rewrite (community_loop_more _ _ _ _ _ _ _ _ Hloop Hle). }
  rewrite Hst1'. apply IH. by rewrite <- Hst1.
Qed.

Lemma neighbor_loop_pushes graph current visited (rels : list string)
    (queue : list string) (relId : string) (rel : Relationship) :
  relId ∈ rels -> relationships graph !! relId = Some rel ->
  (0 < trust rel)%Q ->
  let neighbor :=
    if String.eqb (rel_sourceId rel) current
    then rel_targetId rel else rel_sourceId rel in
  neighbor ∈ visited
  \/ neighbor ∈ foldl (neighbor_body graph current visited) queue rels.
Proof.
  intros Hin Hrel Htrust neighbor. revert queue Hin.
  induction rels as [| r rels IH]; intros queue Hin;
    [by apply elem_of_nil in Hin |].
  cbn [foldl]. apply elem_of_cons in Hin as [<- | Hin]; [| by apply IH].
  destruct (decide (neighbor ∈ visited)) as [Hv | Hv]; [by left |].
  right.
  destruct (neighbor_loop_queue graph current visited rels
              (neighbor_body graph current visited queue relId))
    as (pushed & -> & _).
  apply elem_of_app. left. unfold neighbor_body. rewrite Hrel.
  apply Qlt_bool_iff in Htrust. rewrite Htrust. fold neighbor.
  rewrite bool_decide_false by done.
  apply elem_of_app. right. by apply list_elem_of_singleton.
Qed.

(** What the [while] loop has visited is closed under the edges, when what
    it had visited before was so up to the queue. *)
Lemma community_loop_closed graph communityId (old : gset string)
    (fuel : nat) :
  forall (queue : list string) (visited : gset string)
         (communities : gmap string string) visited' communities',
    community_loop fuel graph communityId queue visited communities
    = Some (visited', communities') ->
    (forall x y, x ∈ visited -> x ∉ old -> joined graph x y ->
                 y ∈ visited \/ y ∈ queue) ->
    forall x y, x ∈ visited' -> x ∉ old -> joined graph x y -> y ∈ visited'.
Proof.
  induction fuel as [| fuel IH];
    intros queue visited communities visited' communities' Hrun Hinv.
  - destruct queue; [| discriminate]. cbn in Hrun. injection Hrun as <- <-.
    intros x y Hx Hold Hxy.
    destruct (Hinv x y Hx Hold Hxy) as [Hy | Hy]; [done |].
    by apply elem_of_nil in Hy.
  - destruct queue as [| current queue].
    { cbn in Hrun. injection Hrun as <- <-. intros x y Hx Hold Hxy.
      destruct (Hinv x y Hx Hold Hxy) as [Hy | Hy]; [done |].
      by apply elem_of_nil in Hy. }
    cbn [community_loop] in Hrun.
    case_bool_decide as Hvisited.
    + apply (IH _ _ _ _ _ Hrun). intros x y Hx Hold Hxy.
      destruct (Hinv x y Hx Hold Hxy) as [Hy | [-> | Hy]%elem_of_cons];
        [by left | by left | by right].
    + destruct (nodes graph !! current) as [node |] eqn:Hnode.
      * apply (IH _ _ _ _ _ Hrun). intros x y Hx Hold Hxy.
        destruct (neighbor_loop_queue graph current (visited ∪ {[current]})
                    (outgoingRelations node ++ incomingRelations node) queue)
          as (pushed & Hqueue & _).
        apply elem_of_union in Hx as [Hx | ->%elem_of_singleton].
        -- destruct (Hinv x y Hx Hold Hxy) as [Hy | [-> | Hy]%elem_of_cons].
           ++ left. apply elem_of_union. by left.
           ++ left. apply elem_of_union. right. by apply elem_of_singleton.
           ++ right. rewrite Hqueue. apply elem_of_app. by left.
        -- destruct Hxy as (node' & relId & rel & Hnode' & Hin & Hrel
                            & Htrust & ->).
           rewrite Hnode in Hnode'. injection Hnode' as <-.
           by apply (neighbor_loop_pushes graph _ _ _ queue relId rel).
      * apply (IH _ _ _ _ _ Hrun). intros x y Hx Hold Hxy.
        apply elem_of_union in Hx as [Hx | ->%elem_of_singleton].
        -- destruct (Hinv x y Hx Hold Hxy) as [Hy | [-> | Hy]%elem_of_cons].
           ++ left. apply elem_of_union. by left.
           ++ left. apply elem_of_union. right. by apply elem_of_singleton.
           ++ by right.
        -- destruct Hxy as (node' & _ & _ & Hnode' & _).
           by rewrite Hnode in Hnode'.
Qed.

Lemma community_body_ends graph (fuel : nat) (keys : list string) :
  (S (total_degree graph) <= fuel)%nat ->
  forall communities visited counter,
    dom communities = visited -> names_below counter communities ->
    (ties_mutual graph -> settled graph visited communities) ->
    exists communities' visited' counter',
      foldl (community_body fuel graph) (Some (communities, visited, counter))
            keys
      = Some (communities', visited', counter') /\
      dom communities' = visited' /\
      visited ⊆ visited' /\
      (forall key, key ∈ keys -> key ∈ visited') /\
      names_below counter' communities' /\
      (counter' <= counter + length keys)%nat /\
      (ties_mutual graph -> settled graph visited' communities').
Proof.
  intros Hfuel. induction keys as [| key keys IH];
    intros communities visited counter Hdom Hnames Hsettled.
  - exists communities, visited, counter. cbn.
    split; [done |]. split; [done |]. split; [done |].
    split; [by intros key Hkey%elem_of_nil |]. split; [done |].
    split; [lia | done].
  - cbn [foldl].
    assert (Hstep : exists communities1 visited1 counter1,
      community_body fuel graph (Some (communities, visited, counter)) key
      = Some (communities1, visited1, counter1) /\
      dom communities1 = visited1 /\ visited ⊆ visited1 /\ key ∈ visited1 /\
      names_below counter1 communities1 /\ (counter1 <= S counter)%nat /\
      (ties_mutual graph -> settled graph visited1 communities1)).
    { unfold community_body. case_bool_decide as Hkey.
      - exists communities, visited, counter.
        split; [done |]. split; [done |]. split; [done |]. split; [done |].
        split; [done |]. split; [lia | done].
      - destruct (community_loop_ends graph (community_name counter) fuel
                    [key] visited communities)
          as (v1 & c1 & Hrun & Hsub & Hqueue & Hdom1 & Hkeep & Hnew);
          [| done |].
        { pose proof (pending_total graph visited). cbn [length]. lia. }
        rewrite Hrun.
        exists c1, v1, (S counter). split; [done |]. split; [done |].
        split; [done |].
        split; [apply Hqueue; by left |]. split; [| split; [lia |]].
        + intros id name Hid.
          destruct (decide (id ∈ visited)) as [Hold | Hfresh].
          * rewrite Hkeep in Hid by done.
            destruct (Hnames id name Hid) as (k & Hk & ->).
            exists k. split; [lia | done].
          * assert (Hin : id ∈ v1).
            { rewrite <- Hdom1. apply elem_of_dom. by eexists. }
            rewrite (Hnew id Hin Hfresh) in Hid. injection Hid as <-.
            exists counter. split; [lia | done].
        + intros Hmutual x y Hx Hxy.
          specialize (Hsettled Hmutual).
          destruct (decide (x ∈ visited)) as [Hold | Hfresh].
          * destruct (Hsettled x y Hold Hxy) as [Hy Hsame].
            split; [by apply Hsub |].
            by rewrite (Hkeep x Hold), (Hkeep y Hy).
          * assert (Hy : y ∈ v1).
            { apply (community_loop_closed graph _ visited fuel _ _ _ _ _
                       Hrun) with x; [| done | done | done].
              intros x' y' Hx' Hold'. contradiction. }
            split; [done |].
            assert (Hyfresh : y ∉ visited).
            { intros Hyold.
              destruct (Hsettled y x Hyold (Hmutual x y Hxy)) as [Hxold _].
              contradiction. }
            by rewrite (Hnew x Hx Hfresh), (Hnew y Hy Hyfresh). }
    destruct Hstep
      as (c1 & v1 & k1 & -> & Hdom1 & Hsub1 & Hkey1 & Hnames1 & Hk1
          & Hsettled1).
    destruct (IH c1 v1 k1 Hdom1 Hnames1 Hsettled1)
      as (c' & v' & k' & Hrun & Hdom' & Hsub' & Hkeys & Hnames' & Hk'
          & Hsettled').
    exists c', v', k'. split; [done |]. split; [done |].
    split; [by etrans |]. split.
    + intros q [-> | Hq]%elem_of_cons; [by apply Hsub' | by apply Hkeys].
    + split; [done |]. split; [cbn [length]; lia | done].
Qed.

(** X30. [detectCommunities] ends, whatever the order in which the keys
    of the nodes come: each of its [while] loops takes a node from the queue
    at most once for its start and once for each id of an adjacency list,
    and a larger bound gives the same result.  The result gives a community
    to every node of the graph; every community is one of [community-0],
    ..., [community-(n-1)] for a graph of [n] nodes; and when every edge of
    positive trust is listed at both of its ends, the two ends of such an
    edge are in the same community. *)
Theorem detectCommunities_ends (graph : SocialGraphState)
    (keys : list string) :
  keys ≡ₚ (map_to_list (nodes graph)).*1 ->
  exists communities,
    (forall fuel, (S (total_degree graph) <= fuel)%nat ->
                  detectCommunities_within fuel keys graph
                  = Some communities) /\
    (forall id, is_Some (nodes graph !! id) -> is_Some (communities !! id)) /\
    names_below (size (nodes graph)) communities /\
    (ties_mutual graph ->
     forall x y, joined graph x y -> communities !! x = communities !! y).
Proof.
  intros Hkeys.
  destruct (community_body_ends graph (S (total_degree graph)) keys
              ltac:(lia) ∅ ∅ O)
    as (c' & v' & k' & Hrun & Hdom & _ & Hvisited & Hnames & Hk & Hsettled);
    [by rewrite dom_empty_L | by intros id name Hid
     | by intros _ x y Hx%elem_of_empty |].
  assert (Hnode : forall id node, nodes graph !! id = Some node -> id ∈ v').
  { intros id node Hid. apply Hvisited. rewrite Hkeys.
    apply list_elem_of_fmap. exists (id, node). split; [done |].
    by apply elem_of_map_to_list. }
  exists c'. unfold detectCommunities_within.
  split; [| split; [| split]].
  - intros fuel Hfuel.
    by rewrite (community_body_more graph _ fuel _ _ _ Hrun Hfuel).
  - intros id [node Hid]. apply elem_of_dom. rewrite Hdom. by eapply Hnode.
  - intros id name Hid. destruct (Hnames id name Hid) as (k & Hlt & ->).
    exists k. split; [| done].
    rewrite Hkeys, length_fmap, length_map_to_list in Hk. lia.
  - intros Hmutual x y Hxy.
    assert (Hx : x ∈ v').
    { destruct Hxy as (node & _ & _ & Hx & _). by eapply Hnode. }
    by destruct (Hsettled Hmutual x y Hx Hxy) as [_ ->].
Qed.

Lemma detectCommunities_ends_witness :
  exists communities,
    detectCommunities three_graph = Some communities /\
    is_Some (communities !! "c") /\
    communities !! "a" = communities !! "b".
Proof.
  assert (Hab : joined three_graph "a" "b").
  { exists {| node_id := "a"; outgoingRelations := ["a->b"];
              incomingRelations := [] |}, "a->b"%string, sample_relationship.
    split; [reflexivity |]. split; [by apply list_elem_of_singleton |].
    split; [reflexivity |]. split; [reflexivity | reflexivity]. }
  assert (Hba : joined three_graph "b" "a").
  { exists {| node_id := "b"; outgoingRelations := [];
              incomingRelations := ["a->b"] |}, "a->b"%string,
           sample_relationship.
    split; [reflexivity |]. split; [by apply list_elem_of_singleton |].
    split; [reflexivity |]. split; [reflexivity | reflexivity]. }
  assert (Hmutual : ties_mutual three_graph).
  { intros x y (node & relId & rel & Hnode & Hin & Hrel & _ & ->).
    change (relationships three_graph)
      with ({[ "a->b"%string := sample_relationship ]}
            : gmap string Relationship) in Hrel.
    apply lookup_singleton_Some in Hrel as [<- <-].
    change (nodes three_graph)
      with (<["c"%string := fresh_node "c"]> (nodes sample_graph)) in Hnode.
    apply lookup_insert_Some in Hnode as [[<- <-] | [_ Hnode]].
    { by apply elem_of_nil in Hin. }
    unfold sample_graph in Hnode. cbn [nodes] in Hnode.
    apply lookup_insert_Some in Hnode as [[<- <-] | [_ Hnode]]; [exact Hba |].
    apply lookup_singleton_Some in Hnode as [<- <-]. exact Hab. }
  destruct (detectCommunities_ends three_graph
              (map_to_list (nodes three_graph)).*1 (reflexivity _))
    as (communities & Hrun & Hall & _ & Hsame).
  exists communities. split; [apply Hrun; lia |].
  split; [apply Hall; by eexists |].
  exact (Hsame Hmutual "a"%string "b"%string Hab).
Defined.

(** With the keys in the order in which the characters were added, the two
    that a trust of 0.5 joins share the first community and the third has
    the second to itself. *)
Example detectCommunities_sample :
  detectCommunities_within 3 ["a"; "b"; "c"] three_graph
  = Some {[ "a" := "community-0"; "b" := "community-0";
            "c" := "community-1" ]}.
Proof. vm_compute. reflexivity. Qed.

End CommunityFacts.
